(** * lab0-c queue: a shallow embedding of [queue.c] and its verification

    The queue of lab0-c is an intrusive, circular, doubly-linked list with a
    sentinel ([struct list_head]) whose elements ([element_t]) own a
    heap-allocated C string.  The code is pointer code, so it is embedded
    over an explicit memory: a finite map from addresses to typed blocks,
    threaded through a state-and-error monad.  Loops take fuel; the
    theorems show that a fuel linear in the length of the list suffices. *)

From Stdlib Require Import ZArith NArith Lia List Permutation Sorted.
From Stdlib.Strings Require Import Byte.
From stdpp Require Import base option list numbers gmap sorting.

Local Open Scope N_scope.
#[local] Set Warnings "-clear-no-such-hyp".

(** ** Machine integers *)

(** [int] is a 32-bit two's complement integer, [size_t] a 64-bit unsigned
    one.  Arithmetic on them is written with its wrap-around. *)
Definition INT_MAX : Z := 2147483647.

Definition wrap_int (z : Z) : Z := ((z + 2 ^ 31) mod 2 ^ 32 - 2 ^ 31)%Z.

Definition SIZE_MOD : N := 2 ^ 64.

Definition size_add (a b : N) : N := (a + b) mod SIZE_MOD.

Definition size_sub (a b : N) : N := (a + SIZE_MOD - b mod SIZE_MOD) mod SIZE_MOD.

(** ** C strings *)

Definition NUL : byte := x00.

Definition is_nul (b : byte) : bool := Byte.eqb b NUL.

(** The string held by an array of bytes: the bytes before the first NUL.
    An array without a NUL holds no string (reading it runs off the
    object). *)
Fixpoint cstr (bs : list byte) : option (list byte) :=
  match bs with
  | [] => None
  | b :: bs' => if is_nul b then Some [] else cons b <$> cstr bs'
  end.

(** [strcmp] on the contents of two strings: the difference of the first
    pair of bytes that differ, as [unsigned char], the terminating NUL
    included. *)
Fixpoint strcmp (a b : list byte) : Z :=
  match a, b with
  | [], [] => 0
  | [], y :: _ => (0 - Z.of_N (Byte.to_N y))
  | x :: _, [] => Z.of_N (Byte.to_N x)
  | x :: a', y :: b' =>
      if Byte.eqb x y then strcmp a' b'
      else (Z.of_N (Byte.to_N x) - Z.of_N (Byte.to_N y))
  end%Z.

(** The [n] bytes [strncpy] writes when reading from the array [src]: the
    string, cut at [n] bytes, padded with NULs up to [n]. *)
Fixpoint strncpy_bytes (src : list byte) (n : nat) : option (list byte) :=
  match n with
  | O => Some []
  | S n' =>
      match src with
      | [] => None
      | b :: src' =>
          if is_nul b then Some (replicate (S n') NUL)
          else cons b <$> strncpy_bytes src' n'
      end
  end.

(** ** Memory *)

(** Addresses are natural numbers, [NULL] is 0.  The address of an
    element and the address of its embedded [list] member are identified:
    [list_entry] and [&ele->list] are the identity. *)
Definition NULL : N := 0.

Inductive block : Type :=
| BList (next prev : N)              (* struct list_head *)
| BElem (value : N) (next prev : N)  (* element_t: value, list.next, list.prev *)
| BChars (bytes : list byte).        (* char[] *)

Definition blk_next (b : block) : option N :=
  match b with
  | BList n _ | BElem _ n _ => Some n
  | BChars _ => None
  end.

Definition blk_prev (b : block) : option N :=
  match b with
  | BList _ p | BElem _ _ p => Some p
  | BChars _ => None
  end.

Definition blk_value (b : block) : option N :=
  match b with
  | BElem v _ _ => Some v
  | _ => None
  end.

Definition blk_chars (b : block) : option (list byte) :=
  match b with
  | BChars bs => Some bs
  | _ => None
  end.

Definition blk_set_next (q : N) (b : block) : block :=
  match b with
  | BList _ p => BList q p
  | BElem v _ p => BElem v q p
  | BChars bs => BChars bs
  end.

Definition blk_set_prev (q : N) (b : block) : block :=
  match b with
  | BList n _ => BList n q
  | BElem v n _ => BElem v n q
  | BChars bs => BChars bs
  end.

Definition blk_set_value (v : N) (b : block) : block :=
  match b with
  | BElem _ n p => BElem v n p
  | other => other
  end.

(** What a memory holds at an address. *)
Definition nxt (m : gmap N block) (p : N) : option N := m !! p ≫= blk_next.
Definition prv (m : gmap N block) (p : N) : option N := m !! p ≫= blk_prev.
Definition val (m : gmap N block) (p : N) : option N := m !! p ≫= blk_value.
Definition chars (m : gmap N block) (p : N) : option (list byte) := m !! p ≫= blk_chars.

(** The C string an address points to. *)
Definition str_at (m : gmap N block) (p : N) : option (list byte) := chars m p ≫= cstr.

Definition set_next (p q : N) (m : gmap N block) : gmap N block := alter (blk_set_next q) p m.
Definition set_prev (p q : N) (m : gmap N block) : gmap N block := alter (blk_set_prev q) p m.
Definition set_value (p v : N) (m : gmap N block) : gmap N block := alter (blk_set_value v) p m.

(** The allocator hands out an address that is neither NULL nor in use. *)
Definition fresh_addr (m : gmap N block) : N := fresh ({[NULL]} ∪ dom m).

(** ** The state-and-error monad *)

(** A state is the memory and the allocator's oracle: the outcomes of the
    coming calls of [malloc] ([false]: the call fails and returns NULL).
    When the oracle is exhausted, [malloc] succeeds. *)
Record state : Type := State { mem : gmap N block; oracle : list bool }.

Inductive result (A : Type) : Type :=
| Done (a : A) (s : state)
| Fault        (* undefined behaviour: an invalid pointer is used *)
| OutOfFuel.
Arguments Done {A} a s.
Arguments Fault {A}.
Arguments OutOfFuel {A}.

Definition M (A : Type) : Type := state → result A.

Definition ret {A} (a : A) : M A := λ s, Done a s.

Definition bind {A B} (c : M A) (k : A → M B) : M B :=
  λ s, match c s with
       | Done a s' => k a s'
       | Fault => Fault
       | OutOfFuel => OutOfFuel
       end.

Definition fault {A} : M A := λ _, Fault.
Definition out_of_fuel {A} : M A := λ _, OutOfFuel.

Notation "'do' x <- c ; k" := (bind c (λ x, k))
  (at level 20, x name, c at level 100, k at level 200).
Notation "'do' ' ( x , y ) <- c ; k" := (bind c (λ '(x, y), k))
  (at level 20, x name, y name, c at level 100, k at level 200).
Notation "c ;; k" := (bind c (λ _, k))
  (at level 100, k at level 200, right associativity).

(** Reading a field or an array; an address that holds no such object is a
    fault. *)
Definition load {A} (f : gmap N block → N → option A) (p : N) : M A :=
  λ s, match f (mem s) p with
       | Some a => Done a s
       | None => Fault
       end.

Definition load_next : N → M N := load nxt.
Definition load_prev : N → M N := load prv.
Definition load_value : N → M N := load val.
Definition load_str : N → M (list byte) := load str_at.

Definition store_next (p q : N) : M unit :=
  λ s, match nxt (mem s) p with
       | Some _ => Done tt (State (set_next p q (mem s)) (oracle s))
       | None => Fault
       end.

Definition store_prev (p q : N) : M unit :=
  λ s, match prv (mem s) p with
       | Some _ => Done tt (State (set_prev p q (mem s)) (oracle s))
       | None => Fault
       end.

Definition store_value (p v : N) : M unit :=
  λ s, match val (mem s) p with
       | Some _ => Done tt (State (set_value p v (mem s)) (oracle s))
       | None => Fault
       end.

(** [malloc]: the block comes with the shape of the requested object; its
    fields are indeterminate in C and null here, and no function below
    reads a field of a fresh block before writing it. *)
Definition pop_outcome (o : list bool) : bool * list bool :=
  match o with
  | [] => (true, [])
  | ok :: o' => (ok, o')
  end.

Definition malloc (b : block) : M N :=
  λ s, let '(ok, o') := pop_outcome (oracle s) in
       if ok : bool then
         let p := fresh_addr (mem s) in Done p (State (<[p:=b]> (mem s)) o')
       else Done NULL (State (mem s) o').

(** [free]: nothing on NULL, a fault on an address that is not allocated. *)
Definition free (p : N) : M unit :=
  λ s, if p =? NULL then Done tt s
       else match mem s !! p with
            | Some _ => Done tt (State (delete p (mem s)) (oracle s))
            | None => Fault
            end.

(** [strcmp(a, b)] on two addresses. *)
Definition strcmp_at (a b : N) : M Z :=
  do x <- load_str a; do y <- load_str b; ret (strcmp x y).

(** [strlen(s)], a [size_t]. *)
Definition strlen_at (s : N) : M N :=
  do x <- load_str s; ret (N.of_nat (length x) mod SIZE_MOD).

(** [strncpy(dst, src, n)]: writes [n] bytes at the start of [dst]; a
    fault when [dst] has fewer than [n] bytes or the read of [src] leaves
    its object. *)
Definition strncpy_at (dst src n : N) : M unit :=
  λ s, match chars (mem s) dst, chars (mem s) src with
       | Some d, Some bs =>
           match strncpy_bytes bs (N.to_nat n) with
           | Some w =>
               if N.to_nat n <=? length d then
                 Done tt (State (<[dst := BChars (w ++ drop (N.to_nat n) d)]> (mem s)) (oracle s))
               else Fault
           | None => Fault
           end
       | _, _ => Fault
       end%nat.

(** [dst[i] = c]. *)
Definition store_char (dst i : N) (c : byte) : M unit :=
  λ s, match chars (mem s) dst with
       | Some d =>
           if (N.to_nat i <? length d)%nat then
             Done tt (State (<[dst := BChars (<[N.to_nat i := c]> d)]> (mem s)) (oracle s))
           else Fault
       | None => Fault
       end.

(** ** list.h *)

(** Modelled from the spec: [list.h] is not among the sources; these are
    the ring primitives of section 4.1 (init-empty, link-after,
    link-before, unlink, test-empty, test-singular).  [list_del] rewrites
    the two neighbours and leaves the unlinked node's own fields as they
    were, so that the node can be relinked through them. *)
Definition INIT_LIST_HEAD (head : N) : M unit :=
  store_next head head;; store_prev head head.

Definition list_add (node head : N) : M unit :=
  do next <- load_next head;
  store_prev next node;;
  store_next node next;;
  store_prev node head;;
  store_next head node.

Definition list_add_tail (node head : N) : M unit :=
  do prev <- load_prev head;
  store_next prev node;;
  store_next node head;;
  store_prev node prev;;
  store_prev head node.

Definition list_del (node : N) : M unit :=
  do next <- load_next node;
  do prev <- load_prev node;
  store_prev next prev;;
  store_next prev next.

Definition list_empty (head : N) : M bool :=
  do next <- load_next head; ret (next =? head).

Definition list_is_singular (head : N) : M bool :=
  do next <- load_next head;
  if next =? head then ret false
  else do nn <- load_next next; ret (nn =? head).

(** ** queue.c *)

Definition q_new : M N :=
  do head <- malloc (BList NULL NULL);
  if head =? NULL then ret NULL
  else INIT_LIST_HEAD head;; ret head.

(** The body of [list_for_each_safe (pos, safe, l)] in [q_free]. *)
Fixpoint q_free_loop (fuel : nat) (l pos safe : N) : M unit :=
  match fuel with
  | O => out_of_fuel
  | S fuel' =>
      if pos =? l then ret tt
      else
        do v <- load_value pos;
        free v;;
        free pos;;
        do safe' <- load_next safe;
        q_free_loop fuel' l safe safe'
  end.

Definition q_free (fuel : nat) (l : N) : M unit :=
  if l =? NULL then ret tt
  else
    do pos <- load_next l;
    do safe <- load_next pos;
    q_free_loop fuel l pos safe;;
    free l.

(** [__q_insert(&ele, s)]: the result is the returned flag and the content
    of [*ele] after the call; [ele] is the content before it. *)
Definition __q_insert (ele s : N) : M (bool * N) :=
  if s =? NULL then ret (false, ele)
  else
    do e <- malloc (BElem NULL NULL NULL);
    if e =? NULL then ret (false, e)
    else
      do len <- strlen_at s;
      do v <- malloc (BChars (replicate (N.to_nat (size_add len 1)) NUL));
      store_value e v;;
      do v' <- load_value e;
      if v' =? NULL then free e;; ret (false, e)
      else
        do dst <- load_value e;
        strncpy_at dst s (size_add len 1);;
        ret (true, e).

Definition q_insert_head (head s : N) : M bool :=
  if head =? NULL then ret false
  else
    do '(ok, ele) <- __q_insert NULL s;
    if ok : bool then list_add ele head;; ret true
    else ret false.

Definition q_insert_tail (head s : N) : M bool :=
  if head =? NULL then ret false
  else
    do '(ok, ele) <- __q_insert NULL s;
    if ok : bool then list_add_tail ele head;; ret true
    else ret false.

(** The copy into the caller's buffer of [q_remove_head] and
    [q_remove_tail]. *)
Definition copy_out (sp bufsize value : N) : M unit :=
  if (sp =? NULL) || (bufsize =? 0) then ret tt
  else
    strncpy_at sp value (size_sub bufsize 1);;
    store_char sp (size_sub bufsize 1) NUL.

Definition q_remove_head (head sp bufsize : N) : M N :=
  if head =? NULL then ret NULL
  else
    do e <- list_empty head;
    if e : bool then ret NULL
    else
      do first <- load_next head;
      list_del first;;
      do v <- load_value first;
      copy_out sp bufsize v;;
      ret first.

Definition q_remove_tail (head sp bufsize : N) : M N :=
  if head =? NULL then ret NULL
  else
    do e <- list_empty head;
    if e : bool then ret NULL
    else
      do last <- load_prev head;
      list_del last;;
      do v <- load_value last;
      copy_out sp bufsize v;;
      ret last.

Definition q_release_element (e : N) : M unit :=
  do v <- load_value e;
  free v;;
  free e.

(** The body of [list_for_each (pos, head) size++]. *)
Fixpoint q_size_loop (fuel : nat) (head pos : N) (size : Z) : M Z :=
  match fuel with
  | O => out_of_fuel
  | S fuel' =>
      if pos =? head then ret size
      else
        do pos' <- load_next pos;
        q_size_loop fuel' head pos' (wrap_int (size + 1))
  end.

Definition q_size (fuel : nat) (head : N) : M Z :=
  if head =? NULL then ret 0%Z
  else
    do pos <- load_next head;
    q_size_loop fuel head pos 0%Z.

(** [list_del(&pos->list); free(pos->value); free(pos);], the deletion of
    an element in [q_delete_mid] and [q_delete_dup]. *)
Definition delete_element (pos : N) : M unit :=
  list_del pos;;
  do v <- load_value pos;
  free v;;
  free pos.

(** The slow/fast walk of [q_delete_mid]; the result is [slow]. *)
Fixpoint q_delete_mid_walk (fuel : nat) (head slow fast : N) : M N :=
  match fuel with
  | O => out_of_fuel
  | S fuel' =>
      if fast =? head then ret slow
      else
        do fn <- load_next fast;
        if fn =? head then ret slow
        else
          do slow' <- load_next slow;
          do fn' <- load_next fast;
          do fast' <- load_next fn';
          q_delete_mid_walk fuel' head slow' fast'
  end.

Definition q_delete_mid (fuel : nat) (head : N) : M bool :=
  if head =? NULL then ret false
  else
    do e <- list_empty head;
    if e : bool then ret false
    else
      do first <- load_next head;
      do slow <- q_delete_mid_walk fuel head first first;
      delete_element slow;;
      ret true.

(** The body of [list_for_each_entry_safe (pos, next, head, list)] in
    [q_delete_dup]; [dup] is the C flag. *)
Fixpoint q_delete_dup_loop (fuel : nat) (head pos next : N) (dup : Z) : M unit :=
  match fuel with
  | O => out_of_fuel
  | S fuel' =>
      if pos =? head then ret tt
      else
        do same <-
          (if next =? head then ret false
           else
             do pv <- load_value pos;
             do nv <- load_value next;
             do c <- strcmp_at pv nv;
             ret (c =? 0)%Z);
        do dup' <-
          (if same : bool then delete_element pos;; ret 1%Z
           else if negb (dup =? 0)%Z then delete_element pos;; ret 0%Z
           else ret dup);
        do next' <- load_next next;
        q_delete_dup_loop fuel' head next next' dup'
  end.

Definition q_delete_dup (fuel : nat) (head : N) : M bool :=
  if head =? NULL then ret false
  else
    do pos <- load_next head;
    do next <- load_next pos;
    q_delete_dup_loop fuel head pos next 0%Z;;
    ret true.

(** The body of [list_for_each (pos, head)] in [q_swap]. *)
Fixpoint q_swap_loop (fuel : nat) (head pos : N) : M unit :=
  match fuel with
  | O => out_of_fuel
  | S fuel' =>
      if pos =? head then ret tt
      else
        do n <- load_next pos;
        if n =? head then ret tt
        else
          list_del pos;;
          do n' <- load_next pos;
          list_add pos n';;
          do pos' <- load_next pos;
          q_swap_loop fuel' head pos'
  end.

(** [!head || list_empty(head) || list_is_singular(head)] *)
Definition at_most_one (head : N) : M bool :=
  if head =? NULL then ret true
  else
    do e <- list_empty head;
    if e : bool then ret true
    else list_is_singular head.

Definition q_swap (fuel : nat) (head : N) : M unit :=
  do small <- at_most_one head;
  if small : bool then ret tt
  else
    do pos <- load_next head;
    q_swap_loop fuel head pos.

(** The [do ... while (pos != head)] of [q_reverse]. *)
Fixpoint q_reverse_loop (fuel : nat) (head pos next : N) : M unit :=
  match fuel with
  | O => out_of_fuel
  | S fuel' =>
      do p <- load_prev pos;
      store_next pos p;;
      store_prev pos next;;
      do next' <- load_next next;
      if next =? head then ret tt
      else q_reverse_loop fuel' head next next'
  end.

Definition q_reverse (fuel : nat) (head : N) : M unit :=
  do small <- at_most_one head;
  if small : bool then ret tt
  else
    do next <- load_next head;
    q_reverse_loop fuel head head next.

(** The slow/fast walk of [__q_split_into_two] on a NULL-terminated
    chain. *)
Fixpoint split_walk (fuel : nat) (fast slow : N) : M N :=
  match fuel with
  | O => out_of_fuel
  | S fuel' =>
      if fast =? NULL then ret slow
      else
        do fn <- load_next fast;
        if fn =? NULL then ret slow
        else
          do fn' <- load_next fast;
          do fast' <- load_next fn';
          do slow' <- load_next slow;
          split_walk fuel' fast' slow'
  end.

Definition __q_split_into_two (fuel : nat) (head : N) : M N :=
  do slow <- split_walk fuel head head;
  do sp <- load_prev slow;
  store_next sp NULL;;
  ret slow.

(** What [struct list_head **ptr] of [__q_merge_two_lists] points to: the
    local variable [head] or the [next] field of a node. *)
Inductive lvalue : Type :=
| LocalHead
| NextOf (node : N).

(** [*ptr = v]; the result is the content of the local [head] after the
    store. *)
Definition store_at (ptr : lvalue) (v head : N) : M N :=
  match ptr with
  | LocalHead => ret v
  | NextOf node => store_next node v;; ret head
  end.

(** [*ptr] *)
Definition load_at (ptr : lvalue) (head : N) : M N :=
  match ptr with
  | LocalHead => ret head
  | NextOf node => load_next node
  end.

Fixpoint merge_loop (fuel : nat) (head : N) (ptr : lvalue) (left right : N) : M N :=
  match fuel with
  | O => out_of_fuel
  | S fuel' =>
      if (left =? NULL) || (right =? NULL) then
        store_at ptr (N.lor left right) head
      else
        do lv <- load_value left;
        do rv <- load_value right;
        do c <- strcmp_at lv rv;
        if (c <=? 0)%Z then
          do head' <- store_at ptr left head;
          do left' <- load_next left;
          do cur <- load_at ptr head';
          merge_loop fuel' head' (NextOf cur) left' right
        else
          do head' <- store_at ptr right head;
          do right' <- load_next right;
          do cur <- load_at ptr head';
          merge_loop fuel' head' (NextOf cur) left right'
  end.

Definition __q_merge_two_lists (fuel : nat) (left right : N) : M N :=
  merge_loop fuel NULL LocalHead left right.

Fixpoint __q_sort (fuel : nat) (left : N) : M N :=
  match fuel with
  | O => out_of_fuel
  | S fuel' =>
      do n <- load_next left;
      if n =? NULL then ret left
      else
        do right <- __q_split_into_two fuel' left;
        do left' <- __q_sort fuel' left;
        do right' <- __q_sort fuel' right;
        __q_merge_two_lists fuel' left' right'
  end.

(** The loop of [q_sort] that fills in the [prev] fields; the result is
    [prev] at the exit. *)
Fixpoint reattach_loop (fuel : nat) (prev pos : N) : M N :=
  match fuel with
  | O => out_of_fuel
  | S fuel' =>
      if pos =? NULL then ret prev
      else
        store_prev pos prev;;
        do pos' <- load_next pos;
        reattach_loop fuel' pos pos'
  end.

Definition q_sort (fuel : nat) (head : N) : M unit :=
  do small <- at_most_one head;
  if small : bool then ret tt
  else
    do last <- load_prev head;
    store_next last NULL;;
    do list <- load_next head;
    do list' <- __q_sort fuel list;
    store_next head list';;
    do pos <- load_next head;
    do prev <- reattach_loop fuel head pos;
    store_next prev head;;
    store_prev head prev.

(** ** Abstraction: strings, paths, the ring and the queue *)

(** A string read from memory has no NUL inside. *)
Definition nul_free (s : list byte) : Prop := Forall (λ b, is_nul b = false) s.

(** [strcmp s t <= 0] is a total preorder on strings. *)
Definition str_le (s t : list byte) : Prop := (strcmp s t <= 0)%Z.

(** [nlinked m path]: each node of [path] has the following one as its
    [next]; [plinked m path]: each node of [path] has the preceding one as
    its [prev]. *)
Fixpoint nlinked (m : gmap N block) (path : list N) : Prop :=
  match path with
  | a :: t => match t with
              | b :: _ => nxt m a = Some b ∧ nlinked m t
              | [] => True
              end
  | [] => True
  end.

Fixpoint plinked (m : gmap N block) (path : list N) : Prop :=
  match path with
  | a :: t => match t with
              | b :: _ => prv m b = Some a ∧ plinked m t
              | [] => True
              end
  | [] => True
  end.

(** [ring m cyc]: the nodes [cyc], the sentinel first, are distinct and
    form a closed doubly-linked ring in this order. *)
Definition ring (m : gmap N block) (cyc : list N) : Prop :=
  NoDup cyc ∧ nlinked m (cyc ++ [hd NULL cyc]) ∧ plinked m (cyc ++ [hd NULL cyc]).

(** An element of the queue: its address, the address of its string and
    the string. *)
Record elem : Type := Elem { e_addr : N; e_val : N; e_str : list byte }.

Definition owns (m : gmap N block) (e : elem) : Prop :=
  e_addr e ≠ NULL ∧ e_val e ≠ NULL ∧
  val m (e_addr e) = Some (e_val e) ∧ str_at m (e_val e) = Some (e_str e).

(** [queue m head es]: in the memory [m], [head] is the sentinel of a
    well-formed queue whose elements are [es], from the first to the
    last. *)
Definition queue (m : gmap N block) (head : N) (es : list elem) : Prop :=
  head ≠ NULL ∧ val m head = None ∧
  ring m (head :: map e_addr es) ∧
  NoDup (map e_val es) ∧
  Forall (owns m) es.

(** Relinking keeps the elements: only [next] and [prev] fields
    change. *)
Definition same_data (m m' : gmap N block) : Prop :=
  ∀ x, val m' x = val m x ∧ str_at m' x = str_at m x.

(** The memory after [list_del x], for [x] between [p] and [n]. *)
Definition unlinked (m : gmap N block) (p n : N) : gmap N block :=
  set_next p n (set_prev n p m).

(** The caller's buffer [d] after [q_remove_head] or [q_remove_tail]
    copied the string [s] into it with capacity [bufsize]. *)
Definition copied (d s : list byte) (bufsize : N) : list byte :=
  let k := N.to_nat (bufsize - 1) in
  <[k := NUL]> (take k (s ++ replicate k NUL) ++ drop k d).

(** The caller's buffer is usable: there is none, or it has room for
    [bufsize] bytes and is not the string of an element. *)
Definition buffer_ok (m : gmap N block) (sp bufsize : N) (es : list elem) : Prop :=
  bufsize < SIZE_MOD ∧
  (sp = NULL ∨ bufsize = 0 ∨
   ∃ d, chars m sp = Some d ∧ (N.to_nat bufsize ≤ length d)%nat ∧ sp ∉ map e_val es).

(** ** What the loops compute *)

(** The test [&next->list != head && !strcmp(pos->value, next->value)] of
    [q_delete_dup], for the element [e] followed by [rest]. *)
Definition same_as_next (e : elem) (rest : list elem) : bool :=
  match rest with
  | [] => false
  | e' :: _ => (strcmp (e_str e) (e_str e') =? 0)%Z
  end.

(** What the loop of [q_delete_dup] keeps of the elements it has not
    visited yet, [dup] being its flag. *)
Fixpoint dedup_from (dup : bool) (es : list elem) : list elem :=
  match es with
  | [] => []
  | e :: rest =>
      if same_as_next e rest then dedup_from true rest
      else if dup then dedup_from false rest
      else e :: dedup_from false rest
  end.

(** What the loop of [q_swap] makes of the elements it has not visited
    yet. *)
Fixpoint swap_pairs (es : list elem) : list elem :=
  match es with
  | e1 :: e2 :: rest => e2 :: e1 :: swap_pairs rest
  | _ => es
  end.

(** What [__q_merge_two_lists] makes of two chains: the lesser head first,
    the left one on a tie. *)
Fixpoint merge (a : list elem) : list elem → list elem :=
  fix merge_a (b : list elem) : list elem :=
    match a, b with
    | [], _ => b
    | _, [] => a
    | x :: a', y :: b' =>
        if (strcmp (e_str x) (e_str y) <=? 0)%Z then x :: merge a' b
        else y :: merge_a b'
    end.

(** ** The properties of the spec *)

Global Instance byte_eq_dec : EqDecision byte := Byte.byte_eq_dec.

(** Delete-duplicates, in the words of the spec: an element stays if and
    only if its payload differs from the payloads of both its immediate
    neighbours; [prev] is the payload of the element before [es], if
    any. *)
Fixpoint unique_among_neighbours (prev : option (list byte)) (es : list elem) : list elem :=
  match es with
  | [] => []
  | e :: rest =>
      let equals_prev := bool_decide (prev = Some (e_str e)) in
      let equals_next := bool_decide (e_str <$> head rest = Some (e_str e)) in
      (if equals_prev || equals_next then [] else [e])
        ++ unique_among_neighbours (Some (e_str e)) rest
  end.

(** Every payload is a C string: it has no NUL inside. *)
Definition all_nul_free (es : list elem) : Prop := Forall (λ e, nul_free (e_str e)) es.

(** Ascending order of the payloads by [strcmp]. *)
Definition elem_le (a b : elem) : Prop := str_le (e_str a) (e_str b).

(** The elements of [es] whose payload is [s], in their order. *)
Definition with_payload (s : list byte) (es : list elem) : list elem :=
  filter (λ e, e_str e = s) es.

(** [es'] is [es] sorted stably: the same elements, in ascending order,
    those of equal payload in their order in [es]. *)
Definition stable_sorted (es es' : list elem) : Prop :=
  es' ≡ₚ es ∧ StronglySorted elem_le es' ∧ ∀ s, with_payload s es' = with_payload s es.

(** [chain m l]: the nodes [l] are distinct and form a NULL-terminated
    chain through their [next] fields, the working representation of
    [__q_sort]. *)
Definition chain (m : gmap N block) (l : list N) : Prop :=
  NoDup l ∧ (NULL ∉ l) ∧ nlinked m (l ++ [NULL]).

(** [ptr] of [__q_merge_two_lists] points to the local [head] or to the
    [next] field of a node outside the chains [l] still to merge. *)
Definition ptr_ok (m : gmap N block) (ptr : lvalue) (l : list N) : Prop :=
  match ptr with
  | LocalHead => True
  | NextOf t => is_Some (nxt m t) ∧ t ∉ l
  end.

(** The content of [*ptr], [hv] being the content of the local [head]. *)
Definition ptr_target (m : gmap N block) (ptr : lvalue) (hv : N) : option N :=
  match ptr with
  | LocalHead => Some hv
  | NextOf t => nxt m t
  end.

(** [y] is not the node whose [next] field [ptr] points to. *)
Definition off_ptr (ptr : lvalue) (y : N) : Prop :=
  match ptr with
  | LocalHead => True
  | NextOf t => y ≠ t
  end.

(** ** The closed-ring invariant *)

(** The node reached from [p] by following [next] [k] times. *)
Fixpoint follow (m : gmap N block) (k : nat) (p : N) : option N :=
  match k with
  | O => Some p
  | S k' => nxt m p ≫= follow m k'
  end.

(** A node of the ring is well linked: neither link is null, and the
    node is the [prev] of its [next] and the [next] of its [prev]. *)
Definition well_linked (m : gmap N block) (node : N) : Prop :=
  ∃ n p, nxt m node = Some n ∧ prv m node = Some p ∧ n ≠ NULL ∧ p ≠ NULL ∧
         prv m n = Some node ∧ nxt m p = Some node.

(** The invariant as the spec words it: [size] steps from the sentinel
    lead back to the sentinel, and every node of the ring is well
    linked. *)
Definition closed_ring_as_claimed (m : gmap N block) (head : N) (size : nat) : Prop :=
  follow m size head = Some head ∧
  ∀ k node, follow m k head = Some node → well_linked m node.

(** The invariant the code keeps: the ring has [size] elements and the
    sentinel, so [size + 1] steps lead back to the sentinel, and no fewer
    do. *)
Definition closed_ring (m : gmap N block) (head : N) (size : nat) : Prop :=
  follow m (S size) head = Some head ∧
  (∀ k, (0 < k ≤ size)%nat → follow m k head ≠ Some head) ∧
  ∀ k node, follow m k head = Some node → well_linked m node.

(** ** Calls of the queue operations *)

(** A call of an operation on the queue at [head], with its other
    arguments. *)
Inductive call : Type :=
| InsertHead (s : N)
| InsertTail (s : N)
| RemoveHead (sp bufsize : N)
| RemoveTail (sp bufsize : N)
| Size
| DeleteMid
| DeleteDup
| Swap
| Reverse
| Sort.

Definition run_call (fuel : nat) (head : N) (c : call) : M unit :=
  match c with
  | InsertHead s => q_insert_head head s;; ret tt
  | InsertTail s => q_insert_tail head s;; ret tt
  | RemoveHead sp bufsize => q_remove_head head sp bufsize;; ret tt
  | RemoveTail sp bufsize => q_remove_tail head sp bufsize;; ret tt
  | Size => q_size fuel head;; ret tt
  | DeleteMid => q_delete_mid fuel head;; ret tt
  | DeleteDup => q_delete_dup fuel head;; ret tt
  | Swap => q_swap fuel head
  | Reverse => q_reverse fuel head
  | Sort => q_sort fuel head
  end.

(** The string argument of an insertion is null or a C string that fits
    an object; the buffer of a removal is usable. *)
Definition string_ok (m : gmap N block) (s : N) : Prop :=
  s = NULL ∨ ∃ str, str_at m s = Some str ∧ N.of_nat (length str) + 1 < SIZE_MOD.

Definition call_ok (m : gmap N block) (es : list elem) (c : call) : Prop :=
  match c with
  | InsertHead s | InsertTail s => string_ok m s
  | RemoveHead sp bufsize | RemoveTail sp bufsize => buffer_ok m sp bufsize es
  | _ => True
  end.

(** A sequence of insertions and removals; the removals pass no
    buffer. *)
Inductive update : Type :=
| PushHead (s : N)
| PushTail (s : N)
| PopHead
| PopTail.

Definition run_update (head : N) (u : update) : M unit :=
  match u with
  | PushHead s => q_insert_head head s;; ret tt
  | PushTail s => q_insert_tail head s;; ret tt
  | PopHead => q_remove_head head NULL 0;; ret tt
  | PopTail => q_remove_tail head NULL 0;; ret tt
  end.

Fixpoint run_updates (head : N) (us : list update) : M unit :=
  match us with
  | [] => ret tt
  | u :: us' => run_update head u;; run_updates head us'
  end.

Definition update_ok (m : gmap N block) (u : update) : Prop :=
  match u with
  | PushHead s | PushTail s => string_ok m s
  | _ => True
  end.

(** ** An earlier state of the file *)

(** [src/unnamed/part_000] is [queue.c] before [q_sort] was written and
    [q_delete_dup] rewritten; the other functions are the same. *)
Module Part000.

(** The loop of [q_delete_dup]: [start] is the first element of the
    current run of duplicates (NULL when there is none), [prev_value]
    the string compared with; the result is [start] at the exit. *)
Fixpoint q_delete_dup_loop (fuel : nat) (head pos safe start prev_value : N) : M N :=
  match fuel with
  | O => out_of_fuel
  | S fuel' =>
      if pos =? head then ret start
      else
        do pv <- load_value pos;
        do c <- strcmp_at pv prev_value;
        do '(start', prev_value') <-
          (if (c =? 0)%Z then
             do start' <- (if start =? NULL then load_prev pos else ret start);
             delete_element pos;;
             ret (start', prev_value)
           else
             do pv' <- load_value pos;
             do start' <- (if negb (start =? NULL) then delete_element start;; ret NULL
                           else ret start);
             ret (start', pv'));
        do safe' <- load_next safe;
        q_delete_dup_loop fuel' head safe safe' start' prev_value'
  end.

(** [empty] is the address of the string literal [""] that [prev_value]
    starts with. *)
Definition q_delete_dup (fuel : nat) (empty head : N) : M bool :=
  if head =? NULL then ret false
  else
    do pos <- load_next head;
    do safe <- load_next pos;
    do start <- q_delete_dup_loop fuel head pos safe NULL empty;
    (if negb (start =? NULL) then delete_element start else ret tt);;
    ret true.

(** [void q_sort(struct list_head *head) {}] *)
Definition q_sort (head : N) : M unit := ret tt.

End Part000.

(** ** Deciding the representation predicates on concrete memories *)

Global Instance nlinked_dec m path : Decision (nlinked m path).
Proof.
  induction path as [|a t IH]; [left; exact I|].
  destruct t as [|b t']; [left; exact I|].
  destruct (decide (nxt m a = Some b)) as [H1|H1].
  - destruct IH as [H2|H2]; [left; exact (conj H1 H2) | right; intros [_ H3]; exact (H2 H3)].
  - right; intros [H3 _]; exact (H1 H3).
Defined.

Global Instance plinked_dec m path : Decision (plinked m path).
Proof.
  induction path as [|a t IH]; [left; exact I|].
  destruct t as [|b t']; [left; exact I|].
  destruct (decide (prv m b = Some a)) as [H1|H1].
  - destruct IH as [H2|H2]; [left; exact (conj H1 H2) | right; intros [_ H3]; exact (H2 H3)].
  - right; intros [H3 _]; exact (H1 H3).
Defined.

Global Instance ring_dec m cyc : Decision (ring m cyc).
Proof. unfold ring. apply _. Defined.

Global Instance owns_dec m e : Decision (owns m e).
Proof. unfold owns. apply _. Defined.

Global Instance queue_dec m head es : Decision (queue m head es).
Proof. unfold queue. apply _. Defined.

(** ** Concrete queues *)

(** The queue holding the strings [strs], laid out at fixed addresses:
    the sentinel at 1, the element of index [i] at [2i + 2] and its
    string at [2i + 3]. *)
Definition addr_of (i : nat) : N := 2 * N.of_nat i + 2.

Definition example_elems (strs : list (list byte)) : list elem :=
  imap (λ i s, Elem (addr_of i) (addr_of i + 1) s) strs.

Definition example_mem (strs : list (list byte)) : gmap N block :=
  let n := length strs in
  let next_of i := if (S i <? n)%nat then addr_of (S i) else 1 in
  let prev_of i := match i with O => 1 | S j => addr_of j end in
  let first := match n with O => 1 | S _ => addr_of 0 end in
  let last := match n with O => 1 | S j => addr_of j end in
  <[1 := BList first last]>
    (list_to_map
       (concat (imap (λ i s, [(addr_of i, BElem (addr_of i + 1) (next_of i) (prev_of i));
                              (addr_of i + 1, BChars (s ++ [NUL]))]) strs))).

(** The payloads of a list of elements. *)
Definition payloads (es : list elem) : list (list byte) := map e_str es.

(** The memory of [example_mem strs] with one more block of characters
    at [p]: a string literal or a caller's buffer. *)
Definition example_mem_with (strs : list (list byte)) (p : N) (bs : list byte) : gmap N block :=
  <[p := BChars bs]> (example_mem strs).

(** ** The blocks of a queue *)

(** The addresses of the blocks of the queue: the sentinel, the elements
    and their strings. *)
Definition blocks_of (head : N) (es : list elem) : list N :=
  head :: map e_addr es ++ map e_val es.

(** [m'] is [m] at every address outside [D]. *)
Definition same_outside (D : list N) (m m' : gmap N block) : Prop :=
  ∀ x, x ∉ D → m' !! x = m !! x.

(** The memory after [free(ele->value); free(ele);] for each element of
    [es] in turn. *)
Fixpoint release_all (es : list elem) (m : gmap N block) : gmap N block :=
  match es with
  | [] => m
  | e :: rest => release_all rest (delete (e_addr e) (delete (e_val e) m))
  end.

Global Instance chain_dec m l : Decision (chain m l).
Proof. unfold chain. apply _. Defined.

(** The elements of [example_mem strs] as [q_sort] hands them to
    [__q_sort]: the [next] of the last one is null.  With [k > 0] the
    chain is cut in two before the element of index [k]. *)
Definition example_chain (strs : list (list byte)) (k : nat) : gmap N block :=
  let m := set_next (addr_of (length strs - 1)) NULL (example_mem strs) in
  match k with
  | O => m
  | S j => set_next (addr_of j) NULL m
  end.

(** ** Sorting, then deleting the duplicates *)

(** The elements of [es] whose payload no other element of [es] has. *)
Definition only_once (es : list elem) : list elem :=
  filter (λ e, length (with_payload (e_str e) es) = 1%nat) es.

(** ** The earlier [q_delete_dup] *)

(** What the loop of [Part000.q_delete_dup] makes of the elements it has
    not visited yet: [p] is the element before them, still linked, and
    [dup] tells whether [start] is set, that is whether [p] is to be
    deleted. *)
Fixpoint part000_dedup_from (p : elem) (dup : bool) (todo : list elem) : list elem :=
  match todo with
  | [] => if dup then [] else [p]
  | e :: rest =>
      if (strcmp (e_str e) (e_str p) =? 0)%Z then part000_dedup_from p true rest
      else (if dup then [] else [p]) ++ part000_dedup_from e false rest
  end.

(** ** A whole use of the queue *)

(** [tidy_step head es m es' m']: from the queue [es] in the memory [m]
    to the queue [es'] in the memory [m'], the blocks that left the queue
    are freed, the blocks that joined it were free, and the blocks that
    never were in the queue are as they were. *)
Definition tidy_step (head : N) (es : list elem) (m : gmap N block)
    (es' : list elem) (m' : gmap N block) : Prop :=
  (∀ x, x ∉ blocks_of head es' →
        m' !! x = if bool_decide (x ∈ blocks_of head es) then None else m !! x) ∧
  (∀ x, x ∈ blocks_of head es' → x ∉ blocks_of head es → m !! x = None).

(** What a caller does with a queue; an element taken out with
    [q_remove_head] or [q_remove_tail], here without a buffer, is
    released with [q_release_element]. *)
Inductive action : Type :=
| DoInsertHead (s : N)
| DoInsertTail (s : N)
| DoRemoveHead
| DoRemoveTail
| DoSize
| DoDeleteMid
| DoDeleteDup
| DoSwap
| DoReverse
| DoSort.

Definition remove_and_release (remove : M N) : M unit :=
  do e <- remove;
  if e =? NULL then ret tt else q_release_element e.

Definition run_action (fuel : nat) (head : N) (a : action) : M unit :=
  match a with
  | DoInsertHead s => q_insert_head head s;; ret tt
  | DoInsertTail s => q_insert_tail head s;; ret tt
  | DoRemoveHead => remove_and_release (q_remove_head head NULL 0)
  | DoRemoveTail => remove_and_release (q_remove_tail head NULL 0)
  | DoSize => q_size fuel head;; ret tt
  | DoDeleteMid => q_delete_mid fuel head;; ret tt
  | DoDeleteDup => q_delete_dup fuel head;; ret tt
  | DoSwap => q_swap fuel head
  | DoReverse => q_reverse fuel head
  | DoSort => q_sort fuel head
  end.

Fixpoint run_actions (fuel : nat) (head : N) (l : list action) : M unit :=
  match l with
  | [] => ret tt
  | a :: l' => run_action fuel head a;; run_actions fuel head l'
  end.

(** [q_new], the actions, [q_free]. *)
Definition session (fuel : nat) (l : list action) : M unit :=
  do head <- q_new;
  run_actions fuel head l;;
  q_free fuel head.

Definition action_ok (m : gmap N block) (a : action) : Prop :=
  match a with
  | DoInsertHead s | DoInsertTail s => string_ok m s
  | _ => True
  end.

(** The string of an insertion is null, or a C string that fits an
    object and lies outside the queue. *)
Definition outside_ok (head : N) (es : list elem) (m : gmap N block) (a : action) : Prop :=
  match a with
  | DoInsertHead s | DoInsertTail s =>
      s = NULL ∨
      ((s ∉ blocks_of head es) ∧
       ∃ str, str_at m s = Some str ∧ N.of_nat (length str) + 1 < SIZE_MOD)
  | _ => True
  end.

(** ** Filling the queue *)

(** [strs] are the strings at the addresses [ss], each a C string that
    fits an object. *)
Definition strings_at (m : gmap N block) (ss : list N) (strs : list (list byte)) : Prop :=
  Forall2 (λ s str, s ≠ NULL ∧ str_at m s = Some str ∧
                    N.of_nat (length str) + 1 < SIZE_MOD) ss strs.

(** Every allocation succeeds. *)
Definition never_fails (o : list bool) : Prop := Forall (λ b, b = true) o.

(** ** Facts about C strings *)

Lemma byte_eqb_eq (x y : byte) : Byte.eqb x y = true ↔ x = y.
Proof.
  split; [apply Byte.byte_dec_bl | apply Byte.byte_dec_lb].
Qed.

Lemma byte_eqb_refl (x : byte) : Byte.eqb x x = true.
Proof. by apply byte_eqb_eq. Qed.

Lemma byte_to_N_inj (x y : byte) : Byte.to_N x = Byte.to_N y → x = y.
Proof.
  intros H. pose proof (Byte.of_to_N x) as Hx. pose proof (Byte.of_to_N y) as Hy.
  rewrite H in Hx. congruence.
Qed.


Lemma cstr_nul_free bs s : cstr bs = Some s → nul_free s.
Proof.
  revert s. induction bs as [|b bs IH]; intros s; simpl; [done|].
  destruct (is_nul b) eqn:Hb.
  - intros [= <-]. constructor.
  - destruct (cstr bs) as [s'|]; simpl; [|done].
    intros [= <-]. constructor; [done | by apply IH].
Qed.

Lemma cstr_app_nul s rest : nul_free s → cstr (s ++ NUL :: rest) = Some s.
Proof.
  induction 1 as [|b s Hb _ IH]; simpl; [done|].
  by rewrite Hb, IH.
Qed.

Lemma strcmp_refl s : strcmp s s = 0%Z.
Proof. induction s as [|x s IH]; simpl; [done|]. by rewrite byte_eqb_refl. Qed.

Lemma nonnul_pos b : is_nul b = false → (0 < Z.of_N (Byte.to_N b))%Z.
Proof.
  intros Hb. destruct (N.eq_dec (Byte.to_N b) 0) as [E|E]; [|lia].
  assert (b = NUL) as -> by (apply byte_to_N_inj; by rewrite E).
  discriminate Hb.
Qed.

Lemma strcmp_eq s t : nul_free s → nul_free t → strcmp s t = 0%Z → s = t.
Proof.
  intros Hs. revert t. induction Hs as [|x s Hx Hs IH]; intros t Ht; destruct Ht as [|y t Hy Ht]; simpl.
  - done.
  - pose proof (nonnul_pos _ Hy). lia.
  - pose proof (nonnul_pos _ Hx). lia.
  - destruct (Byte.eqb x y) eqn:E.
    + apply byte_eqb_eq in E as ->. intros H. f_equal. by apply IH.
    + intros H. assert (Byte.to_N x = Byte.to_N y) as H' by lia.
      apply byte_to_N_inj in H'. subst. by rewrite byte_eqb_refl in E.
Qed.

Lemma strcmp_eqb_iff s t : nul_free s → nul_free t → (strcmp s t =? 0)%Z = true ↔ s = t.
Proof.
  intros Hs Ht. rewrite Z.eqb_eq. split; [by apply strcmp_eq|].
  intros ->. apply strcmp_refl.
Qed.

Lemma strcmp_antisym_sign s t : nul_free s → nul_free t → strcmp t s = (- strcmp s t)%Z.
Proof.
  intros Hs. revert t. induction Hs as [|x s Hx Hs IH]; intros t Ht; destruct Ht as [|y t Hy Ht]; simpl; try lia.
  destruct (Byte.eqb x y) eqn:E.
  - apply byte_eqb_eq in E as ->. rewrite byte_eqb_refl. by apply IH.
  - destruct (Byte.eqb y x) eqn:E'; [|lia].
    apply byte_eqb_eq in E' as ->. by rewrite byte_eqb_refl in E.
Qed.


Lemma str_le_total s t : nul_free s → nul_free t → str_le s t ∨ str_le t s.
Proof.
  intros Hs Ht. unfold str_le. rewrite (strcmp_antisym_sign s t) by done. lia.
Qed.

Lemma str_le_trans s t u :
  nul_free s → nul_free t → nul_free u → str_le s t → str_le t u → str_le s u.
Proof.
  unfold str_le. intros Hs. revert t u.
  induction Hs as [|x s Hx Hs IH]; intros t u Ht Hu;
    destruct Ht as [|y t Hy Ht]; destruct Hu as [|z u Hz Hu]; simpl;
    try (pose proof (nonnul_pos _ Hx)); try (pose proof (nonnul_pos _ Hy));
    try (pose proof (nonnul_pos _ Hz)); try lia.
  destruct (Byte.eqb x y) eqn:Exy; destruct (Byte.eqb y z) eqn:Eyz.
  - apply byte_eqb_eq in Exy as ->. rewrite Eyz. by apply IH.
  - apply byte_eqb_eq in Exy as ->. rewrite Eyz. lia.
  - apply byte_eqb_eq in Eyz as ->. rewrite Exy. lia.
  - intros H2 H3. destruct (Byte.eqb x z) eqn:Exz; [|lia].
    apply byte_eqb_eq in Exz as ->.
    assert (Byte.to_N z = Byte.to_N y) as H' by lia.
    apply byte_to_N_inj in H'. subst. by rewrite byte_eqb_refl in Exy.
Qed.

Lemma strncpy_bytes_cstr bs s n :
  cstr bs = Some s → strncpy_bytes bs n = Some (take n (s ++ replicate n NUL)).
Proof.
  revert s n. induction bs as [|b bs IH]; intros s n; simpl; [done|].
  destruct (is_nul b) eqn:Hb.
  - intros [= <-]. destruct n as [|n]; simpl; [done|].
    f_equal. f_equal.
    by rewrite take_ge by (rewrite length_replicate; lia).
  - destruct (cstr bs) as [s'|] eqn:Hs'; simpl; [|done].
    intros [= <-]. destruct n as [|n]; simpl; [done|].
    rewrite (IH s' n eq_refl). simpl. f_equal. f_equal.
    rewrite !take_app. f_equal.
    change (NUL :: replicate n NUL) with (replicate (S n) NUL).
    rewrite !take_replicate. f_equal. lia.
Qed.

(** ** Facts about the memory *)

Section memory.
Implicit Types (m : gmap N block) (p q x v : N) (b : block).

Lemma node_prv m p : is_Some (prv m p) ↔ is_Some (nxt m p).
Proof.
  unfold prv, nxt. destruct (m !! p) as [[]|]; simpl;
    split; intros [? ?]; by eauto.
Qed.

Lemma val_node m p v : val m p = Some v → is_Some (nxt m p).
Proof.
  unfold val, nxt. destruct (m !! p) as [[]|]; simpl; by eauto.
Qed.

Lemma node_not_chars m p : is_Some (nxt m p) → chars m p = None.
Proof.
  unfold chars, nxt. destruct (m !! p) as [[]|]; simpl; try done;
    try by intros [? ?].
Qed.

Lemma node_allocated m p : is_Some (nxt m p) → is_Some (m !! p).
Proof.
  unfold nxt. destruct (m !! p); simpl; [by eauto | by intros [? ?]].
Qed.

Lemma chars_allocated m p : is_Some (chars m p) → is_Some (m !! p).
Proof.
  unfold chars. destruct (m !! p); simpl; [by eauto | by intros [? ?]].
Qed.

(** [set_next] *)
Lemma nxt_set_next_eq m p q : is_Some (nxt m p) → nxt (set_next p q m) p = Some q.
Proof.
  unfold nxt, set_next. rewrite lookup_alter_eq.
  destruct (m !! p) as [[]|]; simpl; try done; by intros [? ?].
Qed.

Lemma nxt_set_next_ne m p q x : x ≠ p → nxt (set_next p q m) x = nxt m x.
Proof. intros. unfold nxt, set_next. by rewrite lookup_alter_ne. Qed.

Lemma nxt_set_next_some m p q x : is_Some (nxt (set_next p q m) x) ↔ is_Some (nxt m x).
Proof.
  unfold nxt, set_next. rewrite lookup_alter.
  case_decide; [|done]. subst. destruct (m !! x) as [[]|]; simpl; try done;
    split; intros [? ?]; by eauto.
Qed.

Lemma prv_set_next m p q x : prv (set_next p q m) x = prv m x.
Proof.
  unfold prv, set_next. rewrite lookup_alter.
  case_decide; [|done]. subst. by destruct (m !! x) as [[]|].
Qed.

Lemma val_set_next m p q x : val (set_next p q m) x = val m x.
Proof.
  unfold val, set_next. rewrite lookup_alter.
  case_decide; [|done]. subst. by destruct (m !! x) as [[]|].
Qed.

Lemma chars_set_next m p q x : chars (set_next p q m) x = chars m x.
Proof.
  unfold chars, set_next. rewrite lookup_alter.
  case_decide; [|done]. subst. by destruct (m !! x) as [[]|].
Qed.

(** [set_prev] *)
Lemma prv_set_prev_eq m p q : is_Some (nxt m p) → prv (set_prev p q m) p = Some q.
Proof.
  unfold nxt, prv, set_prev. rewrite lookup_alter_eq.
  destruct (m !! p) as [[]|]; simpl; try done; by intros [? ?].
Qed.

Lemma prv_set_prev_ne m p q x : x ≠ p → prv (set_prev p q m) x = prv m x.
Proof. intros. unfold prv, set_prev. by rewrite lookup_alter_ne. Qed.

Lemma nxt_set_prev m p q x : nxt (set_prev p q m) x = nxt m x.
Proof.
  unfold nxt, set_prev. rewrite lookup_alter.
  case_decide; [|done]. subst. by destruct (m !! x) as [[]|].
Qed.

Lemma val_set_prev m p q x : val (set_prev p q m) x = val m x.
Proof.
  unfold val, set_prev. rewrite lookup_alter.
  case_decide; [|done]. subst. by destruct (m !! x) as [[]|].
Qed.

Lemma chars_set_prev m p q x : chars (set_prev p q m) x = chars m x.
Proof.
  unfold chars, set_prev. rewrite lookup_alter.
  case_decide; [|done]. subst. by destruct (m !! x) as [[]|].
Qed.

Lemma str_at_set_next m p q x : str_at (set_next p q m) x = str_at m x.
Proof. unfold str_at. by rewrite chars_set_next. Qed.

Lemma str_at_set_prev m p q x : str_at (set_prev p q m) x = str_at m x.
Proof. unfold str_at. by rewrite chars_set_prev. Qed.

(** [delete] *)
Lemma nxt_delete_ne m p x : x ≠ p → nxt (delete p m) x = nxt m x.
Proof. intros. unfold nxt. by rewrite lookup_delete_ne. Qed.

Lemma prv_delete_ne m p x : x ≠ p → prv (delete p m) x = prv m x.
Proof. intros. unfold prv. by rewrite lookup_delete_ne. Qed.

Lemma val_delete_ne m p x : x ≠ p → val (delete p m) x = val m x.
Proof. intros. unfold val. by rewrite lookup_delete_ne. Qed.

Lemma chars_delete_ne m p x : x ≠ p → chars (delete p m) x = chars m x.
Proof. intros. unfold chars. by rewrite lookup_delete_ne. Qed.

Lemma str_at_delete_ne m p x : x ≠ p → str_at (delete p m) x = str_at m x.
Proof. intros. unfold str_at. by rewrite chars_delete_ne. Qed.

(** [insert] *)
Lemma nxt_insert_ne m p b x : x ≠ p → nxt (<[p:=b]> m) x = nxt m x.
Proof. intros. unfold nxt. by rewrite lookup_insert_ne. Qed.

Lemma prv_insert_ne m p b x : x ≠ p → prv (<[p:=b]> m) x = prv m x.
Proof. intros. unfold prv. by rewrite lookup_insert_ne. Qed.

Lemma val_insert_ne m p b x : x ≠ p → val (<[p:=b]> m) x = val m x.
Proof. intros. unfold val. by rewrite lookup_insert_ne. Qed.

Lemma chars_insert_ne m p b x : x ≠ p → chars (<[p:=b]> m) x = chars m x.
Proof. intros. unfold chars. by rewrite lookup_insert_ne. Qed.

Lemma str_at_insert_ne m p b x : x ≠ p → str_at (<[p:=b]> m) x = str_at m x.
Proof. intros. unfold str_at. by rewrite chars_insert_ne. Qed.

(** The allocator *)
Lemma fresh_addr_nonnull m : fresh_addr m ≠ NULL.
Proof.
  unfold fresh_addr. intros E.
  apply (is_fresh ({[NULL]} ∪ dom m)). rewrite E. set_solver.
Qed.

Lemma fresh_addr_free m : m !! fresh_addr m = None.
Proof.
  apply not_elem_of_dom. unfold fresh_addr. intros E.
  apply (is_fresh ({[NULL]} ∪ dom m)). set_solver.
Qed.

Lemma fresh_addr_ne m x : is_Some (m !! x) → x ≠ fresh_addr m.
Proof.
  intros [b Hb] ->. by rewrite fresh_addr_free in Hb.
Qed.
End memory.

(** Writes to [next] and [prev] fields are invisible to [val], [chars]
    and [str_at]. *)
Ltac strip_links :=
  repeat first
    [ rewrite val_set_next | rewrite val_set_prev
    | rewrite chars_set_next | rewrite chars_set_prev
    | rewrite str_at_set_next | rewrite str_at_set_prev ].

(** ** Running the primitives *)

Section run.
Implicit Types (m : gmap N block) (o : list bool) (p q x v : N).

Lemma bind_done {A B} (c : M A) (k : A → M B) s a s' :
  c s = Done a s' → bind c k s = k a s'.
Proof. unfold bind. by intros ->. Qed.

Lemma bind_assoc {A B C} (c : M A) (f : A → M B) (k : B → M C) s :
  bind (bind c f) k s = bind c (λ r, bind (f r) k) s.
Proof. unfold bind. by destruct (c s). Qed.

Lemma bind_ret {A B} (a : A) (k : A → M B) s : bind (ret a) k s = k a s.
Proof. done. Qed.

Lemma load_run {A} (f : gmap N block → N → option A) p m o a :
  f m p = Some a → load f p (State m o) = Done a (State m o).
Proof. unfold load. simpl. by intros ->. Qed.

Lemma load_next_run p m o a : nxt m p = Some a → load_next p (State m o) = Done a (State m o).
Proof. apply load_run. Qed.

Lemma load_prev_run p m o a : prv m p = Some a → load_prev p (State m o) = Done a (State m o).
Proof. apply load_run. Qed.

Lemma load_value_run p m o a : val m p = Some a → load_value p (State m o) = Done a (State m o).
Proof. apply load_run. Qed.

Lemma store_next_run p q m o :
  is_Some (nxt m p) → store_next p q (State m o) = Done tt (State (set_next p q m) o).
Proof. unfold store_next. simpl. by intros [? ->]. Qed.

Lemma store_prev_run p q m o :
  is_Some (nxt m p) → store_prev p q (State m o) = Done tt (State (set_prev p q m) o).
Proof. unfold store_prev. simpl. intros H. apply node_prv in H as [? ->]. done. Qed.

Lemma free_run p m o :
  p ≠ NULL → is_Some (m !! p) → free p (State m o) = Done tt (State (delete p m) o).
Proof.
  intros Hp [b Hb]. unfold free. simpl.
  destruct (N.eqb_spec p NULL); [done|]. by rewrite Hb.
Qed.

Lemma strcmp_at_run a b m o s t :
  str_at m a = Some s → str_at m b = Some t →
  strcmp_at a b (State m o) = Done (strcmp s t) (State m o).
Proof.
  intros Ha Hb. unfold strcmp_at, load_str.
  rewrite (bind_done _ _ _ _ _ (load_run _ _ _ _ _ Ha)).
  by rewrite (bind_done _ _ _ _ _ (load_run _ _ _ _ _ Hb)).
Qed.

Lemma list_empty_run head m o n :
  nxt m head = Some n → list_empty head (State m o) = Done (n =? head) (State m o).
Proof.
  intros H. unfold list_empty.
  by rewrite (bind_done _ _ _ _ _ (load_next_run _ _ _ _ H)).
Qed.

Lemma list_del_run x m o n p :
  nxt m x = Some n → prv m x = Some p →
  is_Some (nxt m n) → is_Some (nxt m p) →
  list_del x (State m o) = Done tt (State (set_next p n (set_prev n p m)) o).
Proof.
  intros Hn Hp Hnn Hpn. unfold list_del.
  rewrite (bind_done _ _ _ _ _ (load_next_run _ _ _ _ Hn)).
  rewrite (bind_done _ _ _ _ _ (load_prev_run _ _ _ _ Hp)).
  rewrite (bind_done _ _ _ _ _ (store_prev_run _ _ _ _ Hnn)).
  apply store_next_run. by rewrite nxt_set_prev.
Qed.

Lemma list_add_run node head m o n :
  nxt m head = Some n → is_Some (nxt m n) → is_Some (nxt m node) →
  list_add node head (State m o) =
  Done tt (State (set_next head node (set_prev node head (set_next node n (set_prev n node m)))) o).
Proof.
  intros Hn Hnn Hnode. unfold list_add.
  rewrite (bind_done _ _ _ _ _ (load_next_run _ _ _ _ Hn)).
  rewrite (bind_done _ _ _ _ _ (store_prev_run _ _ _ _ Hnn)).
  erewrite bind_done; [|apply store_next_run; by rewrite nxt_set_prev].
  erewrite bind_done;
    [|apply store_prev_run; by rewrite nxt_set_next_some, nxt_set_prev].
  apply store_next_run.
  rewrite nxt_set_prev, nxt_set_next_some, nxt_set_prev. by rewrite Hn.
Qed.

Lemma list_add_tail_run node head m o p :
  prv m head = Some p → is_Some (nxt m p) → is_Some (nxt m node) →
  list_add_tail node head (State m o) =
  Done tt (State (set_prev head node (set_prev node p (set_next node head (set_next p node m)))) o).
Proof.
  intros Hp Hpn Hnode. unfold list_add_tail.
  rewrite (bind_done _ _ _ _ _ (load_prev_run _ _ _ _ Hp)).
  rewrite (bind_done _ _ _ _ _ (store_next_run _ _ _ _ Hpn)).
  erewrite bind_done; [|apply store_next_run; by rewrite nxt_set_next_some].
  erewrite bind_done;
    [|apply store_prev_run; by rewrite !nxt_set_next_some].
  apply store_prev_run.
  rewrite nxt_set_prev, !nxt_set_next_some. apply node_prv. by rewrite Hp.
Qed.
End run.

(** ** Paths through the memory *)


Section paths.
Implicit Types (m : gmap N block) (P S l : list N) (a b x y z : N).

Lemma last_cons_cons {A} (a b : A) (t : list A) d : List.last (a :: b :: t) d = List.last (b :: t) d.
Proof. done. Qed.

Lemma last_elem_of {A} (P : list A) d : P ≠ [] → List.last P d ∈ P.
Proof.
  induction P as [|a [|b t] IH]; intros HP; [done| |].
  - simpl. set_solver.
  - rewrite last_cons_cons. apply elem_of_cons. right. by apply IH.
Qed.

Lemma hd_elem_of {A} (S : list A) d : S ≠ [] → hd d S ∈ S.
Proof. destruct S; [done|]. intros _. simpl. set_solver. Qed.

Lemma removelast_cons_cons {A} (a b : A) (t : list A) :
  removelast (a :: b :: t) = a :: removelast (b :: t).
Proof. done. Qed.

Lemma last_not_in_removelast {A} (P : list A) d :
  NoDup P → P ≠ [] → List.last P d ∉ removelast P.
Proof.
  induction P as [|a [|b t] IH]; intros HP Hne; [done| |].
  - simpl. set_solver.
  - rewrite last_cons_cons, removelast_cons_cons.
    apply NoDup_cons in HP as [Ha HP].
    apply not_elem_of_cons. split.
    + intros E. apply Ha. rewrite <- E. by apply last_elem_of.
    + by apply IH.
Qed.

Lemma elem_of_removelast {A} (P : list A) (x : A) : x ∈ removelast P → x ∈ P.
Proof.
  induction P as [|a [|b t] IH]; [done| |].
  - simpl. set_solver.
  - rewrite removelast_cons_cons. set_solver.
Qed.

Lemma elem_of_tl {A} (P : list A) (x : A) : x ∈ tl P → x ∈ P.
Proof. destruct P; simpl; set_solver. Qed.

Lemma removelast_snoc {A} (l : list A) (z : A) : removelast (l ++ [z]) = l.
Proof. apply removelast_last. Qed.

Lemma last_snoc {A} (l : list A) (z d : A) : List.last (l ++ [z]) d = z.
Proof. apply last_last. Qed.

Lemma nlinked_concat m P S :
  P ≠ [] → S ≠ [] →
  nlinked m (P ++ S) ↔
  nlinked m P ∧ nxt m (List.last P NULL) = Some (hd NULL S) ∧ nlinked m S.
Proof.
  intros HP HS. induction P as [|a [|b t] IH]; [done| |].
  - destruct S as [|c S]; [done|]. simpl. tauto.
  - change (nlinked m ((a :: b :: t) ++ S))
      with (nxt m a = Some b ∧ nlinked m ((b :: t) ++ S)).
    change (nlinked m (a :: b :: t)) with (nxt m a = Some b ∧ nlinked m (b :: t)).
    rewrite last_cons_cons. rewrite IH by done. tauto.
Qed.

Lemma plinked_concat m P S :
  P ≠ [] → S ≠ [] →
  plinked m (P ++ S) ↔
  plinked m P ∧ prv m (hd NULL S) = Some (List.last P NULL) ∧ plinked m S.
Proof.
  intros HP HS. induction P as [|a [|b t] IH]; [done| |].
  - destruct S as [|c S]; [done|]. simpl. tauto.
  - change (plinked m ((a :: b :: t) ++ S))
      with (prv m b = Some a ∧ plinked m ((b :: t) ++ S)).
    change (plinked m (a :: b :: t)) with (prv m b = Some a ∧ plinked m (b :: t)).
    rewrite last_cons_cons. rewrite IH by done. tauto.
Qed.

(** A path only depends on the [next] fields of all its nodes but the
    last, and on the [prev] fields of all its nodes but the first. *)
Lemma nlinked_agree m m' P :
  (∀ y, y ∈ removelast P → nxt m' y = nxt m y) → nlinked m P → nlinked m' P.
Proof.
  induction P as [|a [|b t] IH]; [done..|].
  rewrite removelast_cons_cons. intros Hag [H1 H2]. split.
  - rewrite Hag; [done | set_solver].
  - apply IH; [|done]. intros y Hy. apply Hag. set_solver.
Qed.

Lemma plinked_agree m m' P :
  (∀ y, y ∈ tl P → prv m' y = prv m y) → plinked m P → plinked m' P.
Proof.
  induction P as [|a [|b t] IH]; [done..|].
  intros Hag [H1 H2]. split.
  - rewrite Hag; [done | simpl; set_solver].
  - apply IH; [|done]. intros y Hy. apply Hag. simpl in *. set_solver.
Qed.

Lemma nlinked_node m P x : nlinked m P → x ∈ removelast P → is_Some (nxt m x).
Proof.
  induction P as [|a [|b t] IH]; [simpl; set_solver..|].
  rewrite removelast_cons_cons. intros [H1 H2] [->|Hx]%elem_of_cons; [by eauto|].
  by apply IH.
Qed.

Lemma nlinked_tl m P : nlinked m P → nlinked m (tl P).
Proof. destruct P as [|a [|b t]]; simpl; tauto. Qed.

Lemma plinked_tl m P : plinked m P → plinked m (tl P).
Proof. destruct P as [|a [|b t]]; simpl; tauto. Qed.

(** Linking [x] between the last node of [P] and the first node of
    [S]. *)
Lemma nlinked_insert m m' P x S :
  P ≠ [] → S ≠ [] →
  nlinked m (P ++ S) →
  nxt m' (List.last P NULL) = Some x → nxt m' x = Some (hd NULL S) →
  (∀ y, y ∈ removelast P → nxt m' y = nxt m y) →
  (∀ y, y ∈ removelast S → nxt m' y = nxt m y) →
  nlinked m' (P ++ x :: S).
Proof.
  intros HP HS H Hp Hx HfP HfS.
  apply nlinked_concat in H as (H1 & _ & H3); [|done..].
  apply nlinked_concat; [done..|]. split_and!.
  - by apply (nlinked_agree m).
  - done.
  - apply (nlinked_concat m' [x] S); [done..|]. split_and!; [done..|].
    by apply (nlinked_agree m).
Qed.

Lemma plinked_insert m m' P x S :
  P ≠ [] → S ≠ [] →
  plinked m (P ++ S) →
  prv m' x = Some (List.last P NULL) → prv m' (hd NULL S) = Some x →
  (∀ y, y ∈ tl P → prv m' y = prv m y) →
  (∀ y, y ∈ tl S → prv m' y = prv m y) →
  plinked m' (P ++ x :: S).
Proof.
  intros HP HS H Hp Hx HfP HfS.
  apply plinked_concat in H as (H1 & _ & H3); [|done..].
  apply plinked_concat; [done..|]. split_and!.
  - by apply (plinked_agree m).
  - done.
  - apply (plinked_concat m' [x] S); [done..|]. split_and!; [done..|].
    by apply (plinked_agree m).
Qed.

(** Unlinking [x] from between the last node of [P] and the first node
    of [S]. *)
Lemma nlinked_remove m m' P x S :
  P ≠ [] → S ≠ [] →
  nlinked m (P ++ x :: S) →
  nxt m' (List.last P NULL) = Some (hd NULL S) →
  (∀ y, y ∈ removelast P → nxt m' y = nxt m y) →
  (∀ y, y ∈ removelast S → nxt m' y = nxt m y) →
  nlinked m' (P ++ S).
Proof.
  intros HP HS H Hp HfP HfS.
  apply nlinked_concat in H as (H1 & _ & H3); [|done..].
  apply (nlinked_concat m [x] S) in H3 as (_ & _ & H3); [|done..].
  apply nlinked_concat; [done..|]. split_and!; [|done|].
  - by apply (nlinked_agree m).
  - by apply (nlinked_agree m).
Qed.

Lemma plinked_remove m m' P x S :
  P ≠ [] → S ≠ [] →
  plinked m (P ++ x :: S) →
  prv m' (hd NULL S) = Some (List.last P NULL) →
  (∀ y, y ∈ tl P → prv m' y = prv m y) →
  (∀ y, y ∈ tl S → prv m' y = prv m y) →
  plinked m' (P ++ S).
Proof.
  intros HP HS H Hp HfP HfS.
  apply plinked_concat in H as (H1 & _ & H3); [|done..].
  apply (plinked_concat m [x] S) in H3 as (_ & _ & H3); [|done..].
  apply plinked_concat; [done..|]. split_and!; [|done|].
  - by apply (plinked_agree m).
  - by apply (plinked_agree m).
Qed.

(** What a path says about the node [x] inside it. *)
Lemma nlinked_at m P x S :
  P ≠ [] → S ≠ [] → nlinked m (P ++ x :: S) →
  nxt m (List.last P NULL) = Some x ∧ nxt m x = Some (hd NULL S).
Proof.
  intros HP HS H.
  apply nlinked_concat in H as (_ & H2 & H3); [|done..].
  apply (nlinked_concat m [x] S) in H3 as (_ & H3 & _); [|done..].
  done.
Qed.

Lemma plinked_at m P x S :
  P ≠ [] → S ≠ [] → plinked m (P ++ x :: S) →
  prv m x = Some (List.last P NULL) ∧ prv m (hd NULL S) = Some x.
Proof.
  intros HP HS H.
  apply plinked_concat in H as (_ & H2 & H3); [|done..].
  apply (plinked_concat m [x] S) in H3 as (_ & H3 & _); [|done..].
  done.
Qed.

(** Exchanging [next] and [prev] walks the path backwards. *)
Lemma nlinked_rev m m' P :
  plinked m P → (∀ y, y ∈ tl P → nxt m' y = prv m y) → nlinked m' (rev P).
Proof.
  induction P as [|a [|b t] IH]; [done..|].
  intros [H1 H2] Hsw.
  change (rev (a :: b :: t)) with (rev (b :: t) ++ [a]).
  apply nlinked_concat; [simpl; by destruct (rev t) | done |]. split_and!; [|  |done].
  - apply IH; [done|]. intros y Hy. apply Hsw. simpl in *. set_solver.
  - simpl rev. rewrite last_snoc. simpl. rewrite Hsw; [done | simpl; set_solver].
Qed.

Lemma plinked_rev m m' P :
  nlinked m P → (∀ y, y ∈ removelast P → prv m' y = nxt m y) → plinked m' (rev P).
Proof.
  induction P as [|a [|b t] IH]; [done..|].
  rewrite removelast_cons_cons. intros [H1 H2] Hsw.
  change (rev (a :: b :: t)) with (rev (b :: t) ++ [a]).
  apply plinked_concat; [simpl; by destruct (rev t) | done |]. split_and!; [|  |done].
  - apply IH; [done|]. intros y Hy. apply Hsw. set_solver.
  - simpl rev. rewrite last_snoc. simpl. rewrite Hsw; [done | set_solver].
Qed.
End paths.

(** ** The ring and the queue *)


Section ring.
Implicit Types (m : gmap N block) (C l : list N) (h x y z n p : N).

Lemma hd_snoc {A} (l : list A) (z d : A) : hd d (l ++ [z]) = hd z l.
Proof. by destruct l. Qed.

Lemma last_default {A} (l : list A) (d d' : A) : l ≠ [] → List.last l d = List.last l d'.
Proof.
  induction l as [|a [|b t] IH]; intros Hl; [done..|].
  rewrite !last_cons_cons. by apply IH.
Qed.

Lemma last_cons {A} (l : list A) (a d : A) : List.last (a :: l) d = List.last l a.
Proof.
  destruct l as [|b l]; [done|]. rewrite last_cons_cons. by apply last_default.
Qed.

Lemma ring_node m C x : ring m C → x ∈ C → is_Some (nxt m x).
Proof.
  intros (_ & Hn & _) Hx. apply (nlinked_node m (C ++ [hd NULL C])); [done|].
  by rewrite removelast_snoc.
Qed.

Lemma path_split {A} (h x : A) (l1 l2 : list A) :
  (h :: l1 ++ x :: l2) ++ [h] = (h :: l1) ++ x :: (l2 ++ [h]).
Proof. simpl. by rewrite <- app_assoc. Qed.

(** The neighbours of an element of the ring. *)
Lemma ring_at m h l1 x l2 :
  ring m (h :: l1 ++ x :: l2) →
  nxt m x = Some (hd h l2) ∧ prv m x = Some (List.last l1 h) ∧
  nxt m (List.last l1 h) = Some x ∧ prv m (hd h l2) = Some x.
Proof.
  intros (_ & Hn & Hp). simpl hd in Hn, Hp. rewrite path_split in Hn, Hp.
  apply nlinked_at in Hn as [Hn1 Hn2]; [|done|by destruct l2].
  apply plinked_at in Hp as [Hp1 Hp2]; [|done|by destruct l2].
  rewrite hd_snoc in Hn2, Hp2. rewrite last_cons in Hn1, Hp1. done.
Qed.

(** The neighbours of the sentinel. *)
Lemma ring_at_head m h l :
  ring m (h :: l) → nxt m h = Some (hd h l) ∧ prv m h = Some (List.last l h).
Proof.
  intros (_ & Hn & Hp). simpl hd in Hn, Hp. split.
  - destruct l; simpl in *; tauto.
  - apply plinked_concat in Hp as (_ & Hp & _); [|done..].
    simpl hd in Hp. by rewrite last_cons in Hp.
Qed.
End ring.

(** ** Relinking the ring *)

Section ring_ops.
Implicit Types (m : gmap N block) (C l : list N) (h x y z n p : N).

Lemma nodup_parts h l1 x l2 :
  NoDup (h :: l1 ++ x :: l2) →
  NoDup (h :: l1) ∧ NoDup (l2 ++ [h]) ∧ (∀ y, y ∈ h :: l1 → y ∉ l2) ∧
  (x ∉ h :: l1) ∧ (x ∉ l2) ∧ NoDup (h :: l1 ++ l2).
Proof.
  rewrite !NoDup_cons, !NoDup_app, !NoDup_cons.
  intros (Hh & H1 & Hd & Hx & H2).
  split_and!; try done; try apply NoDup_nil_2; set_solver.
Qed.

Lemma path_join {A} (a : A) (k1 k2 : list A) :
  (a :: k1 ++ k2) ++ [a] = (a :: k1) ++ (k2 ++ [a]).
Proof. simpl. by rewrite <- app_assoc. Qed.

Lemma hd_not_in_tl {A} (S : list A) d : NoDup S → S ≠ [] → hd d S ∉ tl S.
Proof. destruct S; [done|]. simpl. by intros [? _]%NoDup_cons. Qed.

Lemma ring_unlink m h l1 x l2 :
  ring m (h :: l1 ++ x :: l2) →
  ring (set_next (List.last l1 h) (hd h l2) (set_prev (hd h l2) (List.last l1 h) m))
       (h :: l1 ++ l2).
Proof.
  intros Hr. pose proof (ring_at _ _ _ _ _ Hr) as (Hxn & Hxp & Hpx & Hnx).
  destruct Hr as (Hnd & Hn & Hp).
  apply nodup_parts in Hnd as (Hnd1 & Hnd2 & Hdisj & Hx1 & Hx2 & Hnd).
  simpl hd in *. rewrite path_split in Hn, Hp.
  assert (List.last l1 h ∈ h :: l1) as Hpin.
  { rewrite <- (last_cons l1 h NULL). by apply last_elem_of. }
  assert (hd h l2 ∈ l2 ++ [h]) as Hnin.
  { rewrite <- (hd_snoc l2 h NULL). apply hd_elem_of. by destruct l2. }
  split_and!; [done|simpl hd; rewrite path_join..].
  - 
    apply (nlinked_remove m _ (h :: l1) x (l2 ++ [h])); [done|by destruct l2|done|..].
    + rewrite last_cons, hd_snoc. apply nxt_set_next_eq.
      rewrite nxt_set_prev. by eauto.
    + intros y Hy. rewrite nxt_set_next_ne, nxt_set_prev; [done|].
      intros ->. revert Hy. rewrite <- (last_cons l1 h NULL).
      by apply last_not_in_removelast.
    + rewrite removelast_snoc. intros y Hy.
      rewrite nxt_set_next_ne, nxt_set_prev; [done|].
      intros ->. by apply (Hdisj (List.last l1 h)).
  - 
    apply (plinked_remove m _ (h :: l1) x (l2 ++ [h])); [done|by destruct l2|done|..].
    + rewrite last_cons, hd_snoc. rewrite prv_set_next. apply prv_set_prev_eq.
      apply node_prv. by eauto.
    + simpl tl. intros y Hy. rewrite prv_set_next, prv_set_prev_ne; [done|].
      intros ->. apply elem_of_app in Hnin as [Hin|Hin%list_elem_of_singleton].
      * apply (Hdisj (hd h l2)); [set_solver | done].
      * rewrite Hin in Hy. by apply NoDup_cons in Hnd1 as [? _].
    + intros y Hy. rewrite prv_set_next, prv_set_prev_ne; [done|].
      intros ->. revert Hy. rewrite <- (hd_snoc l2 h NULL).
      apply hd_not_in_tl; [done | by destruct l2].
Qed.

(** [list_add x y]: [x] is linked after the node [y] of the ring. *)
Lemma ring_link_after m C1 y C2 x :
  ring m (C1 ++ y :: C2) → x ∉ C1 ++ y :: C2 → is_Some (nxt m x) →
  ring (set_next y x (set_prev x y (set_next x (hd (hd y C1) C2)
          (set_prev (hd (hd y C1) C2) x m))))
       (C1 ++ y :: x :: C2).
Proof.
  intros (Hnd & Hn & Hp) Hx Hxn.
  remember (hd y C1) as h eqn:Eh. remember (hd h C2) as n eqn:En.
  assert (hd NULL (C1 ++ y :: C2) = h) as Hh by (subst; by destruct C1).
  assert (hd NULL (C1 ++ y :: x :: C2) = h) as Hh' by (subst; by destruct C1).
  rewrite Hh in Hn, Hp.
  assert ((C1 ++ y :: C2) ++ [h] = (C1 ++ [y]) ++ (C2 ++ [h])) as E
    by (by rewrite <- !app_assoc).
  assert ((C1 ++ y :: x :: C2) ++ [h] = (C1 ++ [y]) ++ x :: (C2 ++ [h])) as E'
    by (by rewrite <- !app_assoc).
  rewrite E in Hn, Hp.
  assert (NoDup (C1 ++ [y])) as HndP.
  { revert Hnd. rewrite !NoDup_app, !NoDup_cons. intros (? & ? & ? & ?).
    split_and!; try done; try apply NoDup_nil_2; set_solver. }
  assert (h ∈ C1 ++ [y]) as Hhin.
  { rewrite Eh, <- (hd_snoc C1 y NULL). apply hd_elem_of. by destruct C1. }
  assert (∀ z, z ∈ C1 ++ [y] → z ∉ C2) as Hdisj.
  { revert Hnd. rewrite !NoDup_app, !NoDup_cons. set_solver. }
  assert (NoDup (C2 ++ [h])) as HndS.
  { revert Hnd. rewrite !NoDup_app, !NoDup_cons. intros (? & ? & ? & ?).
    split_and!; try done; try apply NoDup_nil_2; set_solver. }
  assert (n ∈ C2 ++ [h]) as Hnin.
  { rewrite En, <- (hd_snoc C2 h NULL). apply hd_elem_of. by destruct C2. }
  assert (x ≠ y) as Hxy.
  { intros ->. apply Hx. apply elem_of_app. right. apply elem_of_cons. by left. }
  assert (x ≠ n) as Hxnn.
  { intros ->. apply Hx. clear -Hnin Hhin.
    apply elem_of_app in Hnin as [Hin|Hin%list_elem_of_singleton].
    - apply elem_of_app. right. apply elem_of_cons. by right.
    - rewrite Hin. apply elem_of_app in Hhin as [?|Hq%list_elem_of_singleton].
      + apply elem_of_app. by left.
      + rewrite Hq. apply elem_of_app. right. apply elem_of_cons. by left. }
  assert (is_Some (nxt m y)) as Hyn.
  { apply (nlinked_node m ((C1 ++ [y]) ++ C2 ++ [h])); [done|].
    rewrite app_assoc, removelast_snoc. set_solver. }
  assert (is_Some (nxt m n)) as Hnn.
  { apply elem_of_app in Hnin as [Hin|Hin%list_elem_of_singleton].
    - apply (nlinked_node m ((C1 ++ [y]) ++ C2 ++ [h])); [done|].
      rewrite app_assoc, removelast_snoc. set_solver.
    - rewrite Hin. apply (nlinked_node m ((C1 ++ [y]) ++ C2 ++ [h])); [done|].
      rewrite app_assoc, removelast_snoc. set_solver. }
  split_and!.
  - revert Hnd Hx. rewrite !NoDup_app, !NoDup_cons. set_solver.
  - rewrite Hh', E'.
    apply (nlinked_insert m); [by destruct C1|by destruct C2|done|..].
    + rewrite last_snoc. apply nxt_set_next_eq.
      by rewrite nxt_set_prev, nxt_set_next_some, nxt_set_prev.
    + rewrite hd_snoc, <- En. rewrite nxt_set_next_ne, nxt_set_prev by done.
      apply nxt_set_next_eq. by rewrite nxt_set_prev.
    + rewrite removelast_snoc. intros z Hz.
      rewrite nxt_set_next_ne, nxt_set_prev, nxt_set_next_ne, nxt_set_prev; [done|..].
      * set_solver.
      * intros ->. revert HndP. rewrite NoDup_app. set_solver.
    + rewrite removelast_snoc. intros z Hz.
      rewrite nxt_set_next_ne, nxt_set_prev, nxt_set_next_ne, nxt_set_prev; [done|..].
      * set_solver.
      * intros ->. apply (Hdisj y); set_solver.
  - rewrite Hh', E'.
    apply (plinked_insert m); [by destruct C1|by destruct C2|done|..].
    + rewrite last_snoc. rewrite prv_set_next. apply prv_set_prev_eq.
      by rewrite nxt_set_next_some, nxt_set_prev.
    + rewrite hd_snoc, <- En. rewrite prv_set_next, prv_set_prev_ne, prv_set_next by done.
      by apply prv_set_prev_eq.
    + intros z Hz.
      rewrite prv_set_next, prv_set_prev_ne, prv_set_next, prv_set_prev_ne; [done|..].
      * intros ->. apply elem_of_app in Hnin as [Hin|Hin%list_elem_of_singleton].
        -- apply (Hdisj n); [by apply elem_of_tl | done].
        -- revert Hz. rewrite Hin, Eh, <- (hd_snoc C1 y NULL).
           apply hd_not_in_tl; [done | by destruct C1].
      * apply elem_of_tl in Hz. set_solver.
    + intros z Hz.
      rewrite prv_set_next, prv_set_prev_ne, prv_set_next, prv_set_prev_ne; [done|..].
      * intros ->. revert Hz. rewrite En, <- (hd_snoc C2 h NULL).
        apply hd_not_in_tl; [done | by destruct C2].
      * apply elem_of_tl in Hz. set_solver.
Qed.

(** [list_add_tail x h]: [x] is linked before the sentinel. *)
Lemma ring_link_before_head m h l x :
  ring m (h :: l) → x ∉ h :: l → is_Some (nxt m x) →
  ring (set_prev h x (set_prev x (List.last l h) (set_next x h
          (set_next (List.last l h) x m))))
       (h :: l ++ [x]).
Proof.
  intros Hr Hx Hxn. pose proof (ring_at_head _ _ _ Hr) as [Hhn Hhp].
  destruct Hr as (Hnd & Hn & Hp). simpl hd in *.
  remember (List.last l h) as p eqn:Ep.
  assert (p ∈ h :: l) as Hpin.
  { rewrite Ep, <- (last_cons l h NULL). by apply last_elem_of. }
  assert (x ≠ h) as Hxh by set_solver.
  assert (x ≠ p) as Hxp by set_solver.
  assert (is_Some (nxt m p)) as Hpn.
  { apply (nlinked_node m ((h :: l) ++ [h])); [done|]. by rewrite removelast_snoc. }
  assert (is_Some (nxt m h)) as Hhnode by eauto.
  assert ((h :: l ++ [x]) ++ [h] = (h :: l) ++ x :: [h]) as E
    by (simpl; by rewrite <- app_assoc).
  split_and!.
  - rewrite app_comm_cons. apply NoDup_app. split_and!; [done| |apply NoDup_singleton].
    set_solver.
  - simpl hd. rewrite E. apply (nlinked_insert m); [done..| | | |].
    + rewrite last_cons, <- Ep. rewrite !nxt_set_prev, nxt_set_next_ne by congruence.
      by apply nxt_set_next_eq.
    + simpl hd. rewrite !nxt_set_prev. apply nxt_set_next_eq.
      by rewrite nxt_set_next_some.
    + intros z Hz. rewrite !nxt_set_prev, !nxt_set_next_ne; [done|..].
      * intros ->. revert Hz. rewrite Ep, <- (last_cons l h NULL).
        by apply last_not_in_removelast.
      * apply elem_of_removelast in Hz. set_solver.
    + simpl. set_solver.
  - simpl hd. rewrite E. apply (plinked_insert m); [done..| | | |].
    + rewrite last_cons, <- Ep. rewrite prv_set_prev_ne by done. apply prv_set_prev_eq.
      by rewrite !nxt_set_next_some.
    + simpl hd. apply prv_set_prev_eq.
      by rewrite nxt_set_prev, !nxt_set_next_some.
    + simpl tl. intros z Hz. rewrite !prv_set_prev_ne, !prv_set_next; [done|..].
      * set_solver.
      * intros ->. by apply NoDup_cons in Hnd as [? _].
    + simpl. set_solver.
Qed.
End ring_ops.

(** ** Facts about the queue *)

Section queue.
Implicit Types (m : gmap N block) (es : list elem) (e : elem) (head x v : N).

Lemma queue_head_node m head es : queue m head es → is_Some (nxt m head).
Proof.
  intros (_ & _ & Hr & _). apply (ring_node m _ head Hr). set_solver.
Qed.

Lemma queue_elem m head es e :
  queue m head es → e ∈ es → owns m e ∧ is_Some (nxt m (e_addr e)).
Proof.
  intros (_ & _ & Hr & _ & Ho) He. split.
  - by apply (proj1 (Forall_forall _ _) Ho).
  - apply (ring_node m _ _ Hr). apply elem_of_cons. right.
    by apply list_elem_of_fmap_2.
Qed.

Lemma owns_chars m e : owns m e → is_Some (chars m (e_val e)).
Proof.
  intros (_ & _ & _ & Hs). unfold str_at in Hs.
  destruct (chars m (e_val e)); [by eauto | done].
Qed.

(** The address of a node is not the address of a string. *)
Lemma node_ne_chars m x v : is_Some (nxt m x) → is_Some (chars m v) → x ≠ v.
Proof.
  intros Hx [bs Hv] ->. rewrite (node_not_chars _ _ Hx) in Hv. done.
Qed.

(** The queue only depends on the fields of its own nodes and on its
    own strings. *)
Lemma queue_agree m m' head es :
  queue m head es →
  (∀ x, x ∈ head :: map e_addr es →
        nxt m' x = nxt m x ∧ prv m' x = prv m x ∧ val m' x = val m x) →
  (∀ v, v ∈ map e_val es → str_at m' v = str_at m v) →
  queue m' head es.
Proof.
  intros (Hh & Hv & (Hnd & Hn & Hp) & Hndv & Ho) Hag Hags.
  split_and!; try done.
  - destruct (Hag head) as (_ & _ & ->); [set_solver | done].
  - split_and!; [done| |].
    + apply (nlinked_agree m); [|done]. rewrite removelast_snoc.
      intros y Hy. by apply Hag.
    + apply (plinked_agree m); [|done]. simpl. intros y Hy.
      apply Hag. set_solver.
  - apply Forall_forall. intros e He.
    destruct (proj1 (Forall_forall _ _) Ho e He) as (H1 & H2 & H3 & H4).
    split_and!; [done..| |].
    + destruct (Hag (e_addr e)) as (_ & _ & ->); [|done].
      apply elem_of_cons. right. by apply list_elem_of_fmap_2.
    + rewrite Hags; [done|]. by apply list_elem_of_fmap_2.
Qed.

(** Every address of the queue is allocated, so that a fresh address is
    none of them. *)
Lemma queue_addr_allocated m head es x :
  queue m head es → x ∈ head :: map e_addr es → is_Some (nxt m x).
Proof. intros (_ & _ & Hr & _) Hx. by apply (ring_node m _ _ Hr). Qed.

Lemma queue_val_allocated m head es v :
  queue m head es → v ∈ map e_val es → is_Some (chars m v).
Proof.
  intros (_ & _ & _ & _ & Ho) (e & -> & He)%list_elem_of_fmap.
  apply owns_chars. by apply (proj1 (Forall_forall _ _) Ho).
Qed.

(** A block that is not part of the queue may be written, allocated or
    freed. *)
Lemma queue_insert_other m head es p b :
  queue m head es → p ∉ head :: map e_addr es → p ∉ map e_val es →
  queue (<[p:=b]> m) head es.
Proof.
  intros Hq Hp Hpv. apply (queue_agree m); [done|..].
  - intros x Hx. assert (x ≠ p) by (by intros ->).
    by rewrite nxt_insert_ne, prv_insert_ne, val_insert_ne.
  - intros v Hv. assert (v ≠ p) by (by intros ->).
    by rewrite str_at_insert_ne.
Qed.

Lemma queue_delete_other m head es p :
  queue m head es → p ∉ head :: map e_addr es → p ∉ map e_val es →
  queue (delete p m) head es.
Proof.
  intros Hq Hp Hpv. apply (queue_agree m); [done|..].
  - intros x Hx. assert (x ≠ p) by (by intros ->).
    by rewrite nxt_delete_ne, prv_delete_ne, val_delete_ne.
  - intros v Hv. assert (v ≠ p) by (by intros ->).
    by rewrite str_at_delete_ne.
Qed.


Lemma same_data_refl m : same_data m m.
Proof. done. Qed.

Lemma same_data_trans m1 m2 m3 : same_data m1 m2 → same_data m2 m3 → same_data m1 m3.
Proof.
  intros H1 H2 x. destruct (H1 x) as [<- <-]. apply H2.
Qed.

Lemma same_data_set_next m p q : same_data m (set_next p q m).
Proof. intros x. by rewrite val_set_next, str_at_set_next. Qed.

Lemma same_data_set_prev m p q : same_data m (set_prev p q m).
Proof. intros x. by rewrite val_set_prev, str_at_set_prev. Qed.

Lemma owns_same_data m m' e : same_data m m' → owns m e → owns m' e.
Proof.
  intros Hs (H1 & H2 & H3 & H4). split_and!; [done..| |].
  - by rewrite (proj1 (Hs _)).
  - by rewrite (proj2 (Hs _)).
Qed.

Lemma queue_relink m m' head es es' :
  queue m head es → same_data m m' → es' ≡ₚ es →
  ring m' (head :: map e_addr es') → queue m' head es'.
Proof.
  intros (Hh & Hv & _ & Hndv & Ho) Hs Hperm Hr. split_and!; try done.
  - by rewrite (proj1 (Hs _)).
  - by rewrite Hperm.
  - rewrite Hperm. eapply Forall_impl; [done|]. intros e. by apply owns_same_data.
Qed.
End queue.

(** ** What a write leaves alone *)

Section frame.
Implicit Types (m : gmap N block) (D : list N) (p q x n head : N) (es : list elem).

Lemma same_outside_refl D m : same_outside D m m.
Proof. done. Qed.

Lemma same_outside_trans D m1 m2 m3 :
  same_outside D m1 m2 → same_outside D m2 m3 → same_outside D m1 m3.
Proof. intros H1 H2 x Hx. by rewrite H2, H1. Qed.

Lemma same_outside_mono D D' m m' :
  (∀ x, x ∈ D → x ∈ D') → same_outside D m m' → same_outside D' m m'.
Proof. intros Hsub H x Hx. apply H. intros Hin. by apply Hx, Hsub. Qed.

Lemma same_outside_set_next D m0 m p q :
  p ∈ D → same_outside D m0 m → same_outside D m0 (set_next p q m).
Proof.
  intros Hp H x Hx. unfold set_next. rewrite lookup_alter_ne; [by apply H|].
  by intros ->.
Qed.

Lemma same_outside_set_prev D m0 m p q :
  p ∈ D → same_outside D m0 m → same_outside D m0 (set_prev p q m).
Proof.
  intros Hp H x Hx. unfold set_prev. rewrite lookup_alter_ne; [by apply H|].
  by intros ->.
Qed.

Lemma same_outside_unlinked D m0 m p n :
  p ∈ D → n ∈ D → same_outside D m0 m → same_outside D m0 (unlinked m p n).
Proof.
  intros Hp Hn H. unfold unlinked.
  by apply same_outside_set_next, same_outside_set_prev.
Qed.

Lemma same_outside_insert D m0 m p b :
  p ∈ D → same_outside D m0 m → same_outside D m0 (<[p := b]> m).
Proof.
  intros Hp H x Hx. rewrite lookup_insert_ne; [by apply H|]. by intros ->.
Qed.

Lemma same_outside_delete D m0 m p :
  p ∈ D → same_outside D m0 m → same_outside D m0 (delete p m).
Proof.
  intros Hp H x Hx. rewrite lookup_delete_ne; [by apply H|]. by intros ->.
Qed.

Lemma hd_in_ring {A} (h : A) (l1 l2 : list A) : hd h l2 ∈ h :: l1 ++ l2.
Proof. destruct l2; simpl; set_solver. Qed.

Lemma last_in_ring {A} (h : A) (l1 l2 : list A) : List.last l1 h ∈ h :: l1 ++ l2.
Proof.
  rewrite <- (last_cons l1 h h). rewrite app_comm_cons. apply elem_of_app. left.
  by apply last_elem_of.
Qed.

Lemma elem_of_blocks_of head es x :
  x ∈ blocks_of head es ↔ x = head ∨ x ∈ map e_addr es ∨ x ∈ map e_val es.
Proof. unfold blocks_of. rewrite elem_of_cons, elem_of_app. tauto. Qed.

Lemma blocks_of_perm head es es' x :
  es' ≡ₚ es → x ∈ blocks_of head es' ↔ x ∈ blocks_of head es.
Proof. intros Hp. rewrite !elem_of_blocks_of. by rewrite Hp. Qed.

Lemma nodes_in_blocks head es x : x ∈ head :: map e_addr es → x ∈ blocks_of head es.
Proof. rewrite elem_of_blocks_of, elem_of_cons. tauto. Qed.

Lemma tidy_refl head es m : tidy_step head es m es m.
Proof.
  split; [|done]. intros x Hx. by rewrite bool_decide_eq_false_2.
Qed.

Lemma tidy_trans head es1 m1 es2 m2 es3 m3 :
  tidy_step head es1 m1 es2 m2 → tidy_step head es2 m2 es3 m3 →
  tidy_step head es1 m1 es3 m3.
Proof.
  intros [H1 G1] [H2 G2]. split.
  - intros x Hx. rewrite (H2 x Hx). case_bool_decide as Hx2.
    + case_bool_decide as Hx1; [done|]. symmetry. by apply G1.
    + by apply H1.
  - intros x Hx3 Hx1. destruct (decide (x ∈ blocks_of head es2)) as [Hx2|Hx2].
    + by apply G1.
    + rewrite <- (G2 x Hx3 Hx2). symmetry. rewrite (H1 x Hx2).
      by rewrite bool_decide_eq_false_2.
Qed.

(** Relinking the elements. *)
Lemma tidy_relink head es es' m m' :
  es' ≡ₚ es → same_outside (head :: map e_addr es) m m' → tidy_step head es m es' m'.
Proof.
  intros Hp Hfr. split.
  - intros x Hx. rewrite (blocks_of_perm head es es' x Hp) in Hx.
    rewrite bool_decide_eq_false_2 by done. apply Hfr.
    intros Hin. by apply Hx, nodes_in_blocks.
  - intros x Hx Hx'. by rewrite (blocks_of_perm head es es' x Hp) in Hx.
Qed.

(** Taking elements out and freeing them. *)
Lemma tidy_shrink head es es' m m' :
  (∀ x, x ∈ blocks_of head es' → x ∈ blocks_of head es) →
  (∀ x, x ∈ blocks_of head es → x ∉ blocks_of head es' → m' !! x = None) →
  same_outside (blocks_of head es) m m' →
  tidy_step head es m es' m'.
Proof.
  intros Hsub Hfreed Hfr. split.
  - intros x Hx. case_bool_decide as Hx'; [by apply Hfreed | by apply Hfr].
  - intros x Hx Hx'. exfalso. by apply Hx', Hsub.
Qed.

(** Putting in an element made of fresh blocks. *)
Lemma tidy_grow head es es' m m' :
  (∀ x, x ∈ blocks_of head es → x ∈ blocks_of head es') →
  (∀ x, x ∈ blocks_of head es' → x ∉ blocks_of head es → m !! x = None) →
  same_outside (blocks_of head es') m m' →
  tidy_step head es m es' m'.
Proof.
  intros Hsub Hfresh Hfr. split; [|done].
  intros x Hx. rewrite bool_decide_eq_false_2; [by apply Hfr|].
  intros Hin. by apply Hx, Hsub.
Qed.
End frame.

(** ** Unlinking, deleting, walking *)

Section queue_ops.
Implicit Types (m : gmap N block) (o : list bool) (es : list elem) (e : elem).
Implicit Types (head h x v : N) (l : list N) (i fuel : nat).

Lemma allocated_set_next m p q x : is_Some (set_next p q m !! x) ↔ is_Some (m !! x).
Proof. unfold set_next. apply lookup_alter_is_Some. Qed.

Lemma allocated_set_prev m p q x : is_Some (set_prev p q m !! x) ↔ is_Some (m !! x).
Proof. unfold set_prev. apply lookup_alter_is_Some. Qed.

Lemma queue_split_addrs head es1 e es2 :
  head :: map e_addr (es1 ++ e :: es2) =
  head :: map e_addr es1 ++ e_addr e :: map e_addr es2.
Proof. by rewrite map_app. Qed.

Lemma queue_unlink m o head es1 e es2 :
  queue m head (es1 ++ e :: es2) →
  let p := List.last (map e_addr es1) head in
  let n := hd head (map e_addr es2) in
  list_del (e_addr e) (State m o) = Done tt (State (unlinked m p n) o) ∧
  queue (unlinked m p n) head (es1 ++ es2) ∧
  owns (unlinked m p n) e ∧
  p ≠ e_addr e ∧ n ≠ e_addr e ∧
  is_Some (nxt m (e_addr e)).
Proof.
  intros Hq p n.
  pose proof Hq as (Hh & Hv & Hr & Hndv & Ho).
  rewrite queue_split_addrs in Hr.
  pose proof (ring_at _ _ _ _ _ Hr) as (Hxn & Hxp & Hpx & Hnx).
  fold p in Hxp, Hpx. fold n in Hxn, Hnx.
  assert (is_Some (nxt m n)) as Hnn by (apply node_prv; by eauto).
  assert (is_Some (nxt m p)) as Hpn by eauto.
  assert (same_data m (unlinked m p n)) as Hsd.
  { intros y. unfold unlinked.
    by rewrite val_set_next, val_set_prev, str_at_set_next, str_at_set_prev. }
  apply Forall_app in Ho as [Ho1 Ho2]. apply Forall_cons in Ho2 as [Hoe Ho2].
  assert (NoDup (head :: map e_addr es1 ++ e_addr e :: map e_addr es2)) as Hnd
    by apply Hr.
  apply nodup_parts in Hnd as (Hnd1 & Hnd2 & Hdisj & Hx1 & Hx2 & Hnd).
  split_and!.
  - by apply list_del_run.
  - split_and!; [done| | | |].
    + by rewrite (proj1 (Hsd _)).
    + rewrite map_app. by apply (ring_unlink m head _ (e_addr e) _).
    + revert Hndv. rewrite !map_app, map_cons, !NoDup_app, NoDup_cons. set_solver.
    + apply Forall_app. split; (eapply Forall_impl; [done|]);
        intros e'; by apply owns_same_data.
  - by apply (owns_same_data m).
  - intros E. apply Hx1. rewrite <- E. subst p.
    rewrite <- (last_cons _ head NULL). by apply last_elem_of.
  - intros E. assert (n ∈ map e_addr es2 ++ [head]) as Hin.
    { subst n. rewrite <- (hd_snoc _ head NULL). apply hd_elem_of.
      by destruct (map e_addr es2). }
    rewrite E in Hin. apply elem_of_app in Hin as [Hin|Hin%list_elem_of_singleton].
    + done.
    + apply Hx1. rewrite Hin. set_solver.
  - by eauto.
Qed.

Lemma delete_element_run m o head es1 e es2 :
  queue m head (es1 ++ e :: es2) →
  let p := List.last (map e_addr es1) head in
  let n := hd head (map e_addr es2) in
  let m' := delete (e_addr e) (delete (e_val e) (unlinked m p n)) in
  delete_element (e_addr e) (State m o) = Done tt (State m' o) ∧
  queue m' head (es1 ++ es2).
Proof.
  intros Hq p n m'.
  destruct (queue_unlink m o head es1 e es2 Hq) as (Hrun & Hq1 & Ho & Hpx & Hnx & Hxnode).
  fold p n in Hrun, Hq1, Ho, Hpx, Hnx.
  pose proof Hq as (_ & _ & Hr & Hndv & _).
  rewrite queue_split_addrs in Hr.
  assert (NoDup (head :: map e_addr es1 ++ e_addr e :: map e_addr es2)) as Hnd
    by apply Hr.
  apply nodup_parts in Hnd as (_ & _ & _ & Hx1 & Hx2 & _).
  set (m1 := unlinked m p n) in *.
  destruct Ho as (Hx0 & Hv0 & Hval & Hstr).
  assert (is_Some (chars m1 (e_val e))) as Hvc.
  { unfold str_at in Hstr. destruct (chars m1 (e_val e)); [by eauto | done]. }
  assert (is_Some (nxt m1 (e_addr e))) as Hxn1.
  { unfold m1, unlinked. by rewrite nxt_set_next_some, nxt_set_prev. }
  assert (e_addr e ≠ e_val e) as Hxv by (by apply (node_ne_chars m1)).
  assert (queue (delete (e_val e) m1) head (es1 ++ es2)) as Hq2.
  { apply queue_delete_other; [done| |].
    - intros Hin. apply (queue_addr_allocated _ _ _ _ Hq1) in Hin.
      by apply (node_ne_chars m1 _ _ Hin Hvc).
    - revert Hndv. rewrite !map_app, map_cons, NoDup_app, NoDup_cons. set_solver. }
  split.
  - unfold delete_element. rewrite (bind_done _ _ _ _ _ Hrun).
    rewrite (bind_done _ _ _ _ _ (load_value_run _ _ _ _ Hval)).
    erewrite bind_done; [|apply free_run; [done | by apply chars_allocated]].
    apply free_run; [done|]. rewrite lookup_delete_ne by done.
    by apply node_allocated.
  - apply queue_delete_other; [done| |].
    + rewrite map_app. intros [E|Hin]%elem_of_cons.
      * apply Hx1. rewrite E. set_solver.
      * apply elem_of_app in Hin as [Hin|Hin]; [|done]. apply Hx1. set_solver.
    + intros Hin. apply (queue_val_allocated _ _ _ _ Hq2) in Hin.
      assert (is_Some (nxt (delete (e_val e) m1) (e_addr e))) as Hn2
        by (by rewrite nxt_delete_ne).
      by apply (node_ne_chars _ _ _ Hn2 Hin).
Qed.

(** What the deletion of an element does to the memory. *)
Lemma tidy_delete m head es1 e es2 :
  queue m head (es1 ++ e :: es2) →
  let p := List.last (map e_addr es1) head in
  let n := hd head (map e_addr es2) in
  tidy_step head (es1 ++ e :: es2) m (es1 ++ es2)
    (delete (e_addr e) (delete (e_val e) (unlinked m p n))).
Proof.
  intros Hq p n. apply tidy_shrink.
  - intros x. rewrite !elem_of_blocks_of, !map_app. cbn [map]. set_solver.
  - intros x. rewrite !elem_of_blocks_of, !map_app. cbn [map]. intros Hx Hx'.
    assert (x = e_addr e ∨ x = e_val e) as [->| ->] by set_solver.
    + by rewrite lookup_delete_eq.
    + rewrite lookup_delete. case_decide; [done|]. by rewrite lookup_delete_eq.
  - assert (∀ x, x ∈ head :: map e_addr es1 ++ e_addr e :: map e_addr es2 →
                 x ∈ blocks_of head (es1 ++ e :: es2)) as Hin.
    { intros x Hx. apply nodes_in_blocks. by rewrite map_app. }
    repeat first [apply same_outside_delete | apply same_outside_unlinked
                 | apply same_outside_refl ].
    + apply Hin. set_solver.
    + rewrite elem_of_blocks_of, !map_app. cbn [map]. set_solver.
    + apply Hin. apply last_in_ring.
    + apply Hin. rewrite (cons_middle (e_addr e)), app_assoc. apply hd_in_ring.
Qed.

(** *** Walking the ring by index *)

Lemma hd_drop {A} (l : list A) (i : nat) (d : A) : hd d (drop i l) = nth i l d.
Proof.
  revert i. induction l as [|a l IH]; intros [|i]; simpl; by try done.
Qed.

Lemma split_at {A} (l : list A) (i : nat) (d : A) :
  (i < length l)%nat → l = take i l ++ nth i l d :: drop (S i) l.
Proof.
  revert i. induction l as [|a l IH]; intros i Hi; simpl in Hi; [lia|].
  destruct i as [|i]; simpl; [done|]. f_equal. apply IH. lia.
Qed.

Lemma ring_nxt_nth m h l i :
  ring m (h :: l) → (i < length l)%nat → nxt m (nth i l h) = Some (nth (S i) l h).
Proof.
  intros Hr Hi. rewrite (split_at l i h Hi) in Hr.
  apply ring_at in Hr as (Hn & _). by rewrite hd_drop in Hn.
Qed.

Lemma ring_nxt_head m h l : ring m (h :: l) → nxt m h = Some (nth 0 l h).
Proof.
  intros Hr. apply ring_at_head in Hr as [-> _]. by destruct l.
Qed.

Lemma nth_sentinel h l i : (h ∉ l) → nth i l h = h ↔ (length l ≤ i)%nat.
Proof.
  intros Hh. split.
  - intros E. destruct (Nat.le_gt_cases (length l) i) as [?|Hlt]; [done|].
    exfalso. apply Hh. rewrite <- E. apply list_elem_of_In. by apply nth_In.
  - intros Hi. by apply nth_overflow.
Qed.

Lemma ring_sentinel_fresh m h l : ring m (h :: l) → h ∉ l.
Proof. intros (Hnd & _). by apply NoDup_cons in Hnd as [? _]. Qed.

Lemma wrap_int_small z : (- 2 ^ 31 ≤ z ≤ INT_MAX)%Z → wrap_int z = z.
Proof.
  intros Hz. unfold wrap_int, INT_MAX in *.
  rewrite Z.mod_small; lia.
Qed.

Lemma q_size_loop_run m o h l fuel i size :
  ring m (h :: l) → (i ≤ length l)%nat → (length l - i < fuel)%nat →
  (- 2 ^ 31 ≤ size)%Z → (size + Z.of_nat (length l - i) ≤ INT_MAX)%Z →
  q_size_loop fuel h (nth i l h) size (State m o) =
  Done (size + Z.of_nat (length l - i))%Z (State m o).
Proof.
  unfold INT_MAX. intros Hr. revert i size.
  induction fuel as [|fuel IH]; intros i size Hi Hf Hlo Hhi; [lia|].
  simpl. destruct (N.eqb_spec (nth i l h) h) as [E|E].
  - apply nth_sentinel in E; [|by eapply ring_sentinel_fresh].
    unfold ret. f_equal. lia.
  - assert (i < length l)%nat as Hlt.
    { destruct (Nat.le_gt_cases (length l) i) as [Hge|?]; [|done].
      exfalso. apply E. apply nth_sentinel; [by eapply ring_sentinel_fresh | done]. }
    rewrite (bind_done _ _ _ _ _ (load_next_run _ _ _ _ (ring_nxt_nth _ _ _ _ Hr Hlt))).
    rewrite wrap_int_small by (unfold INT_MAX; lia).
    rewrite IH by lia. f_equal. lia.
Qed.

Lemma q_delete_mid_walk_run m o h l fuel i :
  ring m (h :: l) → (2 * i ≤ length l)%nat → (length l - 2 * i < 2 * fuel)%nat →
  q_delete_mid_walk fuel h (nth i l h) (nth (2 * i) l h) (State m o) =
  Done (nth (length l / 2) l h) (State m o).
Proof.
  intros Hr. pose proof (ring_sentinel_fresh _ _ _ Hr) as Hh.
  revert i. induction fuel as [|fuel IH]; intros i Hi Hf; [lia|].
  cbn [q_delete_mid_walk]. destruct (N.eqb_spec (nth (2 * i) l h) h) as [E|E].
  - apply nth_sentinel in E; [|done].
    assert (length l / 2 = i)%nat as -> by (symmetry; apply Nat.div_unique with 0%nat; lia).
    reflexivity.
  - assert (2 * i < length l)%nat as Hlt.
    { destruct (Nat.le_gt_cases (length l) (2 * i)) as [Hge|?]; [|done].
      exfalso. apply E. by apply nth_sentinel. }
    rewrite (bind_done _ _ _ _ _ (load_next_run _ _ _ _ (ring_nxt_nth _ _ _ _ Hr Hlt))).
    destruct (N.eqb_spec (nth (S (2 * i)) l h) h) as [E'|E'].
    + apply nth_sentinel in E'; [|done].
      assert (length l / 2 = i)%nat as -> by (symmetry; apply Nat.div_unique with 1%nat; lia).
      reflexivity.
    + assert (S (2 * i) < length l)%nat as Hlt'.
      { destruct (Nat.le_gt_cases (length l) (S (2 * i))) as [Hge|?]; [|done].
        exfalso. apply E'. by apply nth_sentinel. }
      assert (i < length l)%nat as Hlti by lia.
      rewrite (bind_done _ _ _ _ _ (load_next_run _ _ _ _ (ring_nxt_nth _ _ _ _ Hr Hlti))).
      rewrite (bind_done _ _ _ _ _ (load_next_run _ _ _ _ (ring_nxt_nth _ _ _ _ Hr Hlt))).
      rewrite (bind_done _ _ _ _ _ (load_next_run _ _ _ _ (ring_nxt_nth _ _ _ _ Hr Hlt'))).
      replace (S (S (2 * i))) with (2 * S i)%nat by lia.
      apply IH; lia.
Qed.
End queue_ops.

(** ** Size, middle, removal *)

Section simple_ops.
Implicit Types (m : gmap N block) (o : list bool) (es : list elem) (e : elem).
Implicit Types (head h x v : N) (l : list N) (i fuel : nat).

Lemma queue_ring m head es : queue m head es → ring m (head :: map e_addr es).
Proof. by intros (_ & _ & Hr & _). Qed.

Lemma queue_first m head es :
  queue m head es → nxt m head = Some (hd head (map e_addr es)).
Proof. intros Hq. by apply ring_at_head, queue_ring. Qed.

Lemma queue_last m head es :
  queue m head es → prv m head = Some (List.last (map e_addr es) head).
Proof. intros Hq. by apply ring_at_head, queue_ring. Qed.

Lemma hd_sentinel_iff h l : (h ∉ l) → hd h l = h ↔ l = [].
Proof.
  intros Hh. destruct l as [|a l]; [done|]. simpl. split; [|done].
  intros ->. exfalso. apply Hh. set_solver.
Qed.

Lemma list_empty_queue m o head es :
  queue m head es →
  list_empty head (State m o) = Done (bool_decide (es = [])) (State m o).
Proof.
  intros Hq. rewrite (list_empty_run _ _ _ _ (queue_first _ _ _ Hq)).
  f_equal. pose proof (ring_sentinel_fresh _ _ _ (queue_ring _ _ _ Hq)) as Hh.
  destruct es as [|e es]; simpl.
  - by rewrite N.eqb_refl.
  - apply N.eqb_neq.
    intros E. apply Hh. simpl. rewrite E. set_solver.
Qed.

Lemma q_size_run m o head es fuel :
  queue m head es → (length es < fuel)%nat → (Z.of_nat (length es) ≤ INT_MAX)%Z →
  q_size fuel head (State m o) = Done (Z.of_nat (length es)) (State m o).
Proof.
  intros Hq Hf Hmax. pose proof Hq as (Hh & _). pose proof (queue_ring _ _ _ Hq) as Hr.
  unfold q_size. destruct (N.eqb_spec head NULL) as [|_]; [done|].
  rewrite (bind_done _ _ _ _ _ (load_next_run _ _ _ _ (ring_nxt_head _ _ _ Hr))).
  rewrite (q_size_loop_run m o head (map e_addr es) fuel 0 0 Hr);
    rewrite ?length_map; try lia.
  f_equal. lia.
Qed.

Lemma nth_map_addr es i head (d : elem) :
  (i < length es)%nat → nth i (map e_addr es) head = e_addr (nth i es d).
Proof.
  intros Hi. rewrite (nth_indep _ head (e_addr d)) by (by rewrite length_map).
  apply map_nth.
Qed.

Lemma q_delete_mid_run m o head es fuel :
  queue m head es → es ≠ [] → (length es < 2 * fuel)%nat →
  ∃ m', q_delete_mid fuel head (State m o) = Done true (State m' o) ∧
        queue m' head (take (length es / 2) es ++ drop (S (length es / 2)) es) ∧
        ∀ e, es !! (length es / 2)%nat = Some e →
             m' !! e_addr e = None ∧ m' !! e_val e = None.
Proof.
  intros Hq Hne Hf. pose proof Hq as (Hh & _). pose proof (queue_ring _ _ _ Hq) as Hr.
  destruct es as [|e0 es0] eqn:Ees; [done|]. rewrite <- Ees in *.
  set (k := (length es / 2)%nat).
  assert (k < length es)%nat as Hk.
  { subst k. apply Nat.div_lt; [|lia]. rewrite Ees. simpl. lia. }
  pose proof (split_at es k e0 Hk) as Hsplit.
  set (e := nth k es e0) in *.
  pose proof Hq as Hq0. rewrite Hsplit in Hq.
  destruct (delete_element_run m o head _ _ _ Hq) as [Hrun Hq'].
  eexists. split_and!.
  - unfold q_delete_mid. destruct (N.eqb_spec head NULL) as [|_]; [done|].
    rewrite (bind_done _ _ _ _ _ (list_empty_queue _ _ _ _ Hq0)).
    rewrite bool_decide_eq_false_2 by (by rewrite Ees).
    rewrite (bind_done _ _ _ _ _ (load_next_run _ _ _ _ (ring_nxt_head _ _ _ Hr))).
    pose proof (q_delete_mid_walk_run m o head (map e_addr es) fuel 0 Hr) as Hw.
    rewrite length_map in Hw. simpl nth in Hw at 2. rewrite (bind_done _ _ _ _ _ (Hw ltac:(lia) ltac:(lia))).
    fold k. rewrite (nth_map_addr es k head e0 Hk). fold e.
    by rewrite (bind_done _ _ _ _ _ Hrun).
  - done.
  - intros e' He'. assert (e' = e) as ->.
    { subst e. by rewrite (nth_lookup_Some _ _ e0 _ He'). }
    split; [by rewrite lookup_delete_eq|].
    rewrite lookup_delete_ne, lookup_delete_eq; [done|].
    destruct (queue_elem m head es e Hq0) as [Ho Hn].
    { by apply list_elem_of_lookup_2 in He'. }
    intros E. eapply node_ne_chars; [apply Hn | by apply owns_chars | done].
Qed.
End simple_ops.

(** ** Removal *)

Section remove.
Implicit Types (m : gmap N block) (o : list bool) (es : list elem) (e : elem).
Implicit Types (head h x v sp bufsize : N) (l : list N) (d s : list byte).

Lemma size_sub_1 bufsize : 0 < bufsize → bufsize < SIZE_MOD → size_sub bufsize 1 = bufsize - 1.
Proof.
  unfold size_sub, SIZE_MOD. intros H0 H1.
  rewrite (N.mod_small 1) by lia.
  replace (bufsize + 2 ^ 64 - 1) with (bufsize - 1 + 1 * 2 ^ 64) by lia.
  rewrite N.Div0.mod_add. apply N.mod_small. lia.
Qed.

Lemma nul_free_take s k : nul_free s → nul_free (take k s).
Proof. apply Forall_take. Qed.

Lemma cstr_copied d s bufsize :
  nul_free s → 0 < bufsize → (N.to_nat bufsize ≤ length d)%nat →
  cstr (copied d s bufsize) = Some (take (N.to_nat (bufsize - 1)) s).
Proof.
  intros Hs H0 Hd. unfold copied.
  set (k := N.to_nat (bufsize - 1)).
  assert (k < length d)%nat as Hk by (subst k; lia).
  destruct (Nat.le_gt_cases k (length s)) as [Hle|Hgt].
  - rewrite take_app_le by done.
    rewrite insert_app_r_alt by (rewrite length_take; lia).
    rewrite length_take. replace (k - k `min` length s)%nat with 0%nat by lia.
    destruct (drop k d) as [|c rest] eqn:Hdrop.
    { apply (f_equal length) in Hdrop. rewrite length_drop in Hdrop. simpl in *. lia. }
    simpl. apply cstr_app_nul. by apply nul_free_take.
  - rewrite take_app_ge by lia. rewrite take_replicate.
    rewrite (take_ge s) by lia.
    replace ((k - length s) `min` k)%nat with (S (k - length s - 1)) by lia.
    rewrite <- app_assoc. simpl.
    rewrite insert_app_r_alt by lia.
    replace (k - length s)%nat with (S (k - length s - 1)) by lia. simpl.
    by apply cstr_app_nul.
Qed.

Lemma length_copied d s bufsize :
  (N.to_nat (bufsize - 1) ≤ length d)%nat → length (copied d s bufsize) = length d.
Proof.
  intros Hd. unfold copied. rewrite length_insert, length_app, length_take, length_drop.
  rewrite length_app, length_replicate. lia.
Qed.

Lemma copy_out_skip m o sp bufsize v :
  sp = NULL ∨ bufsize = 0 → copy_out sp bufsize v (State m o) = Done tt (State m o).
Proof.
  intros [-> | ->]; unfold copy_out; [done|].
  by rewrite orb_true_r.
Qed.

Lemma copy_out_run m o sp bufsize v d s :
  chars m sp = Some d → str_at m v = Some s →
  sp ≠ NULL → 0 < bufsize → bufsize < SIZE_MOD → (N.to_nat bufsize ≤ length d)%nat →
  copy_out sp bufsize v (State m o) =
  Done tt (State (<[sp := BChars (copied d s bufsize)]> m) o).
Proof.
  intros Hd Hs Hsp H0 Hmax Hlen. unfold copy_out.
  destruct (N.eqb_spec sp NULL) as [|_]; [done|].
  destruct (N.eqb_spec bufsize 0) as [|_]; [lia|]. simpl.
  rewrite size_sub_1 by done.
  unfold str_at in Hs. destruct (chars m v) as [bs|] eqn:Hv; [|done]. simpl in Hs.
  unfold bind, strncpy_at, store_char. simpl.
  rewrite Hd, Hv. rewrite (strncpy_bytes_cstr _ _ _ Hs).
  destruct (Nat.leb_spec (N.to_nat (bufsize - 1)) (length d)) as [_|]; [|lia].
  unfold chars. simpl. rewrite lookup_insert_eq. simpl.
  destruct (Nat.ltb_spec (N.to_nat (bufsize - 1))
    (length (take (N.to_nat (bufsize - 1)) (s ++ replicate (N.to_nat (bufsize - 1)) NUL)
       ++ drop (N.to_nat (bufsize - 1)) d))) as [_|Hge].
  - by rewrite insert_insert_eq.
  - exfalso. revert Hge.
    rewrite length_app, length_take, length_drop, length_app, length_replicate. lia.
Qed.

Lemma queue_copy_out m o head es sp bufsize v s :
  queue m head es → buffer_ok m sp bufsize es → str_at m v = Some s →
  ∃ m', copy_out sp bufsize v (State m o) = Done tt (State m' o) ∧
        queue m' head es ∧
        (sp ≠ v → str_at m' v = Some s) ∧
        (∀ x, val m' x = val m x) ∧
        (sp ≠ NULL → bufsize ≠ 0 →
         ∃ d, chars m sp = Some d ∧ chars m' sp = Some (copied d s bufsize)).
Proof.
  intros Hq (Hmax & Hbuf) Hs.
  destruct (decide (sp = NULL ∨ bufsize = 0)) as [Hskip|Hcopy].
  { exists m. rewrite copy_out_skip by done. split_and!; try done.
    intros ??. tauto. }
  destruct Hbuf as [?|[?|(d & Hd & Hlen & Hfresh)]]; [tauto..|].
  assert (sp ≠ NULL) as Hsp by tauto. assert (0 < bufsize) as H0 by lia.
  exists (<[sp := BChars (copied d s bufsize)]> m).
  rewrite (copy_out_run _ _ _ _ _ _ _ Hd Hs) by done.
  assert (∀ x, val (<[sp:=BChars (copied d s bufsize)]> m) x = val m x) as Hval.
  { intros x. destruct (decide (x = sp)) as [->|Hne]; [|by apply val_insert_ne].
    unfold val. rewrite lookup_insert_eq. simpl. unfold chars in Hd.
    by destruct (m !! sp) as [[]|]. }
  split_and!; try done.
  - apply queue_insert_other; [done| |done].
    intros Hin. apply (queue_addr_allocated _ _ _ _ Hq) in Hin.
    eapply node_ne_chars; [apply Hin | by eauto | done].
  - intros Hne. by rewrite str_at_insert_ne.
  - intros _ _. exists d. split; [done|].
    unfold chars. by rewrite lookup_insert_eq.
Qed.

Lemma q_remove_head_run m o head e es sp bufsize :
  queue m head (e :: es) → buffer_ok m sp bufsize (e :: es) →
  ∃ m', q_remove_head head sp bufsize (State m o) = Done (e_addr e) (State m' o) ∧
        queue m' head es ∧ owns m' e ∧
        (sp ≠ NULL → bufsize ≠ 0 →
         ∃ d, chars m sp = Some d ∧ chars m' sp = Some (copied d (e_str e) bufsize)).
Proof.
  intros Hq Hbuf. pose proof Hq as (Hh & _).
  destruct (queue_unlink m o head [] e es Hq) as (Hdel & Hq1 & Ho1 & _ & _ & _).
  simpl in Hdel, Hq1, Ho1.
  set (m1 := unlinked m head (hd head (map e_addr es))) in *.
  assert (buffer_ok m1 sp bufsize es) as Hbuf1.
  { destruct Hbuf as [Hmax Hbuf]. split; [done|].
    destruct Hbuf as [?|[?|(d & Hd & Hlen & Hfresh)]]; [tauto..|].
    right. right. exists d. split_and!; [|done|].
    - unfold m1, unlinked. by rewrite chars_set_next, chars_set_prev.
    - intros Hin. apply Hfresh. simpl. set_solver. }
  destruct Ho1 as (Ha & Hv & Hval & Hstr).
  destruct (queue_copy_out m1 o head es sp bufsize (e_val e) (e_str e) Hq1 Hbuf1 Hstr)
    as (m' & Hcopy & Hq' & Hstr' & Hval' & Hout).
  exists m'. split_and!.
  - unfold q_remove_head. destruct (N.eqb_spec head NULL) as [|_]; [done|].
    rewrite (bind_done _ _ _ _ _ (list_empty_queue _ _ _ _ Hq)).
    rewrite bool_decide_eq_false_2 by done.
    rewrite (bind_done _ _ _ _ _ (load_next_run _ _ _ _ (queue_first _ _ _ Hq))).
    simpl hd. rewrite (bind_done _ _ _ _ _ Hdel).
    rewrite (bind_done _ _ _ _ _ (load_value_run _ _ _ _ Hval)).
    by rewrite (bind_done _ _ _ _ _ Hcopy).
  - done.
  - split_and!; [done..| by rewrite Hval' |].
    destruct (decide (sp = e_val e)) as [E|Hne]; [|by apply Hstr'].
    destruct Hbuf as [_ [->|[->|(d & Hd & Hlen & Hfresh)]]].
    + by rewrite <- E in Hv.
    + rewrite copy_out_skip in Hcopy by (by right). by injection Hcopy as <-.
    + exfalso. apply Hfresh. rewrite E. simpl. set_solver.
  - intros H1 H2. destruct (Hout H1 H2) as (d & Hd & Hd'). exists d. split; [|done].
    revert Hd. unfold m1, unlinked. by rewrite chars_set_next, chars_set_prev.
Qed.

Lemma q_remove_tail_run m o head e es sp bufsize :
  queue m head (es ++ [e]) → buffer_ok m sp bufsize (es ++ [e]) →
  ∃ m', q_remove_tail head sp bufsize (State m o) = Done (e_addr e) (State m' o) ∧
        queue m' head es ∧ owns m' e ∧
        (sp ≠ NULL → bufsize ≠ 0 →
         ∃ d, chars m sp = Some d ∧ chars m' sp = Some (copied d (e_str e) bufsize)).
Proof.
  intros Hq Hbuf. pose proof Hq as (Hh & _).
  destruct (queue_unlink m o head es e [] Hq) as (Hdel & Hq1 & Ho1 & _ & _ & _).
  simpl in Hdel, Hq1, Ho1. rewrite app_nil_r in Hq1.
  set (m1 := unlinked m (List.last (map e_addr es) head) head) in *.
  assert (buffer_ok m1 sp bufsize es) as Hbuf1.
  { destruct Hbuf as [Hmax Hbuf]. split; [done|].
    destruct Hbuf as [?|[?|(d & Hd & Hlen & Hfresh)]]; [tauto..|].
    right. right. exists d. split_and!; [|done|].
    - unfold m1, unlinked. by rewrite chars_set_next, chars_set_prev.
    - intros Hin. apply Hfresh. rewrite map_app. set_solver. }
  destruct Ho1 as (Ha & Hv & Hval & Hstr).
  destruct (queue_copy_out m1 o head es sp bufsize (e_val e) (e_str e) Hq1 Hbuf1 Hstr)
    as (m' & Hcopy & Hq' & Hstr' & Hval' & Hout).
  exists m'. split_and!.
  - unfold q_remove_tail. destruct (N.eqb_spec head NULL) as [|_]; [done|].
    rewrite (bind_done _ _ _ _ _ (list_empty_queue _ _ _ _ Hq)).
    rewrite bool_decide_eq_false_2 by (by destruct es).
    rewrite (bind_done _ _ _ _ _ (load_prev_run _ _ _ _ (queue_last _ _ _ Hq))).
    rewrite map_app. change (map e_addr [e]) with [e_addr e]. rewrite last_snoc.
    rewrite (bind_done _ _ _ _ _ Hdel).
    rewrite (bind_done _ _ _ _ _ (load_value_run _ _ _ _ Hval)).
    by rewrite (bind_done _ _ _ _ _ Hcopy).
  - done.
  - split_and!; [done..| by rewrite Hval' |].
    destruct (decide (sp = e_val e)) as [E|Hne]; [|by apply Hstr'].
    destruct Hbuf as [_ [->|[->|(d & Hd & Hlen & Hfresh)]]].
    + by rewrite <- E in Hv.
    + rewrite copy_out_skip in Hcopy by (by right). by injection Hcopy as <-.
    + exfalso. apply Hfresh. rewrite E, map_app. set_solver.
  - intros H1 H2. destruct (Hout H1 H2) as (d & Hd & Hd'). exists d. split; [|done].
    revert Hd. unfold m1, unlinked. by rewrite chars_set_next, chars_set_prev.
Qed.
End remove.

(** ** Allocation and insertion *)

Section insert.
Implicit Types (m : gmap N block) (o : list bool) (es : list elem) (e : elem).
Implicit Types (head h x v s p : N) (l : list N) (str : list byte) (b : block).

Lemma malloc_run_ok m o b :
  (pop_outcome o).1 = true →
  malloc b (State m o) =
  Done (fresh_addr m) (State (<[fresh_addr m := b]> m) (pop_outcome o).2).
Proof. unfold malloc. simpl. destruct (pop_outcome o) as [ok o']. simpl. by intros ->. Qed.

Lemma malloc_run_fail m o b :
  (pop_outcome o).1 = false →
  malloc b (State m o) = Done NULL (State m (pop_outcome o).2).
Proof. unfold malloc. simpl. destruct (pop_outcome o) as [ok o']. simpl. by intros ->. Qed.

Lemma store_value_run p v m o :
  is_Some (val m p) → store_value p v (State m o) = Done tt (State (set_value p v m) o).
Proof. unfold store_value. simpl. by intros [? ->]. Qed.

Lemma set_value_insert m p v a n q :
  set_value p v (<[p := BElem a n q]> m) = <[p := BElem v n q]> m.
Proof. unfold set_value. by rewrite alter_insert_eq. Qed.

Lemma set_value_insert_ne m p v x b :
  p ≠ x → set_value p v (<[x := b]> m) = <[x := b]> (set_value p v m).
Proof. intros. unfold set_value. by rewrite alter_insert_ne. Qed.

Lemma str_at_allocated m s str : str_at m s = Some str → is_Some (m !! s).
Proof.
  unfold str_at. intros H. apply chars_allocated.
  destruct (chars m s); [by eauto | done].
Qed.

Lemma strlen_at_run m o s str :
  str_at m s = Some str → N.of_nat (length str) < SIZE_MOD →
  strlen_at s (State m o) = Done (N.of_nat (length str)) (State m o).
Proof.
  intros Hs Hlen. unfold strlen_at, load_str.
  rewrite (bind_done _ _ _ _ _ (load_run _ _ _ _ _ Hs)).
  unfold ret. by rewrite N.mod_small.
Qed.

(** The memory after a successful [__q_insert] of the string [str]. *)
Lemma q_insert_run_null m o ele :
  __q_insert ele NULL (State m o) = Done (false, ele) (State m o).
Proof. done. Qed.

Lemma q_insert_run_fail1 m o ele s :
  s ≠ NULL → (pop_outcome o).1 = false →
  __q_insert ele s (State m o) = Done (false, NULL) (State m (pop_outcome o).2).
Proof.
  intros Hs Ho. unfold __q_insert. destruct (N.eqb_spec s NULL) as [|_]; [done|].
  by rewrite (bind_done _ _ _ _ _ (malloc_run_fail _ _ _ Ho)).
Qed.

Lemma q_insert_run_fail2 m o ele s str :
  s ≠ NULL → str_at m s = Some str → N.of_nat (length str) < SIZE_MOD →
  (pop_outcome o).1 = true → (pop_outcome (pop_outcome o).2).1 = false →
  __q_insert ele s (State m o) =
  Done (false, fresh_addr m) (State m (pop_outcome (pop_outcome o).2).2).
Proof.
  intros Hs Hstr Hlen Ho1 Ho2. unfold __q_insert.
  destruct (N.eqb_spec s NULL) as [|_]; [done|].
  rewrite (bind_done _ _ _ _ _ (malloc_run_ok _ _ _ Ho1)).
  set (e := fresh_addr m).
  destruct (N.eqb_spec e NULL) as [E|_]; [by apply fresh_addr_nonnull in E|].
  assert (s ≠ e) as Hse by (apply fresh_addr_ne; by eapply str_at_allocated).
  erewrite bind_done; [|apply strlen_at_run; [by rewrite str_at_insert_ne | done]].
  rewrite (bind_done _ _ _ _ _ (malloc_run_fail _ _ _ Ho2)).
  erewrite bind_done;
    [|apply store_value_run; unfold val; by rewrite lookup_insert_eq].
  rewrite set_value_insert.
  erewrite bind_done;
    [|apply load_value_run; unfold val; by rewrite lookup_insert_eq].
  simpl. erewrite bind_done;
    [|apply free_run; [by apply fresh_addr_nonnull | by rewrite lookup_insert_eq]].
  unfold ret. do 2 f_equal. rewrite delete_insert_eq. apply delete_id, fresh_addr_free.
Qed.

Lemma q_insert_run_ok m o ele s str :
  s ≠ NULL → str_at m s = Some str → N.of_nat (length str) + 1 < SIZE_MOD →
  (pop_outcome o).1 = true → (pop_outcome (pop_outcome o).2).1 = true →
  let e := fresh_addr m in
  let v := fresh_addr (<[e := BElem NULL NULL NULL]> m) in
  __q_insert ele s (State m o) =
  Done (true, e)
       (State (<[v := BChars (str ++ [NUL])]> (<[e := BElem v NULL NULL]> m))
              (pop_outcome (pop_outcome o).2).2).
Proof.
  intros Hs Hstr Hlen Ho1 Ho2 e v. unfold __q_insert.
  destruct (N.eqb_spec s NULL) as [|_]; [done|].
  rewrite (bind_done _ _ _ _ _ (malloc_run_ok _ _ _ Ho1)). fold e.
  destruct (N.eqb_spec e NULL) as [E|_]; [by apply fresh_addr_nonnull in E|].
  assert (s ≠ e) as Hse by (apply fresh_addr_ne; by eapply str_at_allocated).
  erewrite bind_done; [|apply strlen_at_run; [by rewrite str_at_insert_ne | lia]].
  rewrite (bind_done _ _ _ _ _ (malloc_run_ok _ _ _ Ho2)). fold v.
  assert (e ≠ v) as Hev.
  { apply fresh_addr_ne. by rewrite lookup_insert_eq. }
  assert (s ≠ v) as Hsv.
  { apply fresh_addr_ne. rewrite lookup_insert_ne by done. by eapply str_at_allocated. }
  assert (v ≠ NULL) as Hv by apply fresh_addr_nonnull.
  erewrite bind_done;
    [|apply store_value_run; unfold val;
      by rewrite lookup_insert_ne, lookup_insert_eq by done].
  rewrite set_value_insert_ne, set_value_insert by done.
  erewrite bind_done;
    [|apply load_value_run; unfold val;
      by rewrite lookup_insert_ne, lookup_insert_eq by done].
  destruct (N.eqb_spec v NULL) as [|_]; [done|].
  erewrite bind_done;
    [|apply load_value_run; unfold val;
      by rewrite lookup_insert_ne, lookup_insert_eq by done].
  assert (size_add (N.of_nat (length str)) 1 = N.of_nat (length str) + 1) as ->.
  { unfold size_add. apply N.mod_small. lia. }
  replace (N.to_nat (N.of_nat (length str) + 1)) with (S (length str)) by lia.
  remember (replicate (S (length str)) NUL) as buf eqn:Ebuf.
  assert (length buf = S (length str)) as Hbuf by (by rewrite Ebuf, length_replicate).
  unfold str_at in Hstr. destruct (chars m s) as [bs|] eqn:Hbs; [|done]. simpl in Hstr.
  unfold bind, strncpy_at. cbn [mem oracle].
  unfold chars at 1. rewrite lookup_insert_eq. cbn [mbind option_bind blk_chars].
  unfold chars. rewrite !lookup_insert_ne by done. fold (chars m s). rewrite Hbs.
  replace (N.to_nat (N.of_nat (length str) + 1)) with (S (length str)) by lia.
  rewrite (strncpy_bytes_cstr _ _ _ Hstr).
  rewrite Hbuf, Nat.leb_refl.
  unfold ret. do 2 f_equal. rewrite insert_insert_eq. do 2 f_equal.
  rewrite drop_ge by lia. rewrite app_nil_r.
  rewrite take_app_ge by lia.
  rewrite take_replicate. f_equal.
  replace ((S (length str) - length str) `min` S (length str))%nat with 1%nat by lia.
  done.
Qed.

(** Building a queue from its parts. *)
Lemma queue_build m m' head es :
  head ≠ NULL → val m head = None → same_data m m' →
  Forall (owns m) es → NoDup (map e_val es) →
  ring m' (head :: map e_addr es) → queue m' head es.
Proof.
  intros Hh Hv Hs Ho Hnd Hr. split_and!; try done.
  - by rewrite (proj1 (Hs _)).
  - eapply Forall_impl; [done|]. intros e. by apply owns_same_data.
Qed.

(** The state of the queue just before the new element is linked. *)
Lemma queue_allocated m head es str p v :
  queue m head es → nul_free str →
  p = fresh_addr m → v = fresh_addr (<[p := BElem NULL NULL NULL]> m) →
  let m' := <[v := BChars (str ++ [NUL])]> (<[p := BElem v NULL NULL]> m) in
  queue m' head es ∧ owns m' (Elem p v str) ∧
  (p ∉ head :: map e_addr es) ∧ (v ∉ map e_val es) ∧ is_Some (nxt m' p).
Proof.
  intros Hq Hstr Hp Hv m'.
  assert (p ≠ NULL) as Hp0 by (rewrite Hp; apply fresh_addr_nonnull).
  assert (v ≠ NULL) as Hv0 by (rewrite Hv; apply fresh_addr_nonnull).
  assert (p ≠ v) as Hpv.
  { rewrite Hv. apply fresh_addr_ne. by rewrite lookup_insert_eq. }
  assert (∀ x, is_Some (m !! x) → x ≠ p ∧ x ≠ v) as Hfresh.
  { intros x Hx. split; [rewrite Hp; by apply fresh_addr_ne|].
    rewrite Hv. apply fresh_addr_ne.
    destruct (decide (x = p)) as [->|]; [by rewrite lookup_insert_eq|].
    by rewrite lookup_insert_ne. }
  assert (p ∉ head :: map e_addr es) as Hp1.
  { intros Hin. apply (queue_addr_allocated _ _ _ _ Hq), node_allocated, Hfresh in Hin.
    tauto. }
  assert (v ∉ head :: map e_addr es) as Hv1.
  { intros Hin. apply (queue_addr_allocated _ _ _ _ Hq), node_allocated, Hfresh in Hin.
    tauto. }
  assert (p ∉ map e_val es) as Hp2.
  { intros Hin. apply (queue_val_allocated _ _ _ _ Hq), chars_allocated, Hfresh in Hin.
    tauto. }
  assert (v ∉ map e_val es) as Hv2.
  { intros Hin. apply (queue_val_allocated _ _ _ _ Hq), chars_allocated, Hfresh in Hin.
    tauto. }
  split_and!; try done.
  - by do 2 (apply queue_insert_other; [|done..]).
  - split_and!; simpl; [done..| |].
    + unfold m', val. by rewrite lookup_insert_ne, lookup_insert_eq by done.
    + unfold m', str_at, chars. rewrite lookup_insert_eq. simpl.
      by apply cstr_app_nul.
  - unfold m', nxt. rewrite lookup_insert_ne, lookup_insert_eq by done. by eauto.
Qed.

Lemma q_insert_head_ok m o head es s str :
  queue m head es → s ≠ NULL → str_at m s = Some str →
  N.of_nat (length str) + 1 < SIZE_MOD →
  (pop_outcome o).1 = true → (pop_outcome (pop_outcome o).2).1 = true →
  ∃ m' p v,
    q_insert_head head s (State m o) =
      Done true (State m' (pop_outcome (pop_outcome o).2).2) ∧
    queue m' head (Elem p v str :: es) ∧
    m !! p = None ∧ m !! v = None ∧
    (∀ x, x ≠ p → x ≠ v → str_at m' x = str_at m x) ∧
    tidy_step head es m (Elem p v str :: es) m'.
Proof.
  intros Hq Hs Hstr Hlen Ho1 Ho2. pose proof Hq as (Hh & Hvh & _).
  pose proof (q_insert_run_ok m o NULL s str Hs Hstr Hlen Ho1 Ho2) as Hins.
  cbn zeta in Hins.
  remember (fresh_addr m) as p eqn:Ep.
  remember (fresh_addr (<[p := BElem NULL NULL NULL]> m)) as v eqn:Ev.
  assert (nul_free str) as Hnf.
  { unfold str_at in Hstr. destruct (chars m s); [|done]. by eapply cstr_nul_free. }
  destruct (queue_allocated m head es str p v Hq Hnf Ep Ev)
    as (Hq4 & Ho4 & Hp & Hv & Hpn).
  remember (<[v := BChars (str ++ [NUL])]> (<[p := BElem v NULL NULL]> m)) as m4 eqn:Em4.
  pose proof (queue_ring _ _ _ Hq4) as Hr4.
  pose proof (queue_first _ _ _ Hq4) as Hfirst.
  assert (is_Some (nxt m4 (hd head (map e_addr es)))) as Hnn.
  { apply (ring_node m4 _ _ Hr4). rewrite <- (hd_snoc _ head NULL).
    destruct (map e_addr es); simpl; set_solver. }
  assert (m !! p = None) as Hmp by (rewrite Ep; apply fresh_addr_free).
  assert (m !! v = None) as Hmv.
  { assert (m !! v = (<[p := BElem NULL NULL NULL]> m) !! v) as ->.
    { rewrite lookup_insert_ne; [done|]. rewrite Ev. apply fresh_addr_ne.
      by rewrite lookup_insert_eq. }
    rewrite Ev. apply fresh_addr_free. }
  eexists _, p, v. split_and!.
  - unfold q_insert_head. destruct (N.eqb_spec head NULL) as [|_]; [done|].
    rewrite (bind_done _ _ _ _ _ Hins). cbn beta iota.
    by rewrite (bind_done _ _ _ _ _ (list_add_run _ _ _ _ _ Hfirst Hnn Hpn)).
  - apply (queue_build m4); try done.
    + by apply Hq4.
    + intros x. by strip_links.
    + constructor; [done | by apply Hq4].
    + constructor; [done | by apply Hq4].
    + apply (ring_link_after m4 [] head (map e_addr es) p); done.
  - rewrite Ep. apply fresh_addr_free.
  - assert (m !! v = (<[p := BElem NULL NULL NULL]> m) !! v) as ->.
    { rewrite lookup_insert_ne; [done|]. rewrite Ev. apply fresh_addr_ne.
      by rewrite lookup_insert_eq. }
    rewrite Ev. apply fresh_addr_free.
  - intros x Hxp Hxv. strip_links. rewrite Em4.
    by rewrite !str_at_insert_ne.
  - apply tidy_grow.
    + intros x. rewrite !elem_of_blocks_of. cbn [map]. set_solver.
    + intros x. rewrite !elem_of_blocks_of. cbn [map e_addr e_val]. intros Hx Hx'.
      assert (x = p ∨ x = v) as [->| ->] by set_solver; done.
    + rewrite Em4.
      assert (∀ x, x ∈ head :: p :: map e_addr es →
                   x ∈ blocks_of head (Elem p v str :: es)) as Hin.
      { intros x Hx. by apply nodes_in_blocks. }
      repeat first [apply same_outside_set_next | apply same_outside_set_prev
                   | apply same_outside_insert | apply same_outside_refl ].
      * apply Hin. set_solver.
      * apply Hin. set_solver.
      * apply Hin. set_solver.
      * apply Hin. destruct (map e_addr es); simpl; set_solver.
      * rewrite elem_of_blocks_of. cbn [map e_val]. set_solver.
      * apply Hin. set_solver.
Qed.

Lemma q_insert_tail_ok m o head es s str :
  queue m head es → s ≠ NULL → str_at m s = Some str →
  N.of_nat (length str) + 1 < SIZE_MOD →
  (pop_outcome o).1 = true → (pop_outcome (pop_outcome o).2).1 = true →
  ∃ m' p v,
    q_insert_tail head s (State m o) =
      Done true (State m' (pop_outcome (pop_outcome o).2).2) ∧
    queue m' head (es ++ [Elem p v str]) ∧
    m !! p = None ∧ m !! v = None ∧
    (∀ x, x ≠ p → x ≠ v → str_at m' x = str_at m x) ∧
    tidy_step head es m (es ++ [Elem p v str]) m'.
Proof.
  intros Hq Hs Hstr Hlen Ho1 Ho2. pose proof Hq as (Hh & Hvh & _).
  pose proof (q_insert_run_ok m o NULL s str Hs Hstr Hlen Ho1 Ho2) as Hins.
  cbn zeta in Hins.
  remember (fresh_addr m) as p eqn:Ep.
  remember (fresh_addr (<[p := BElem NULL NULL NULL]> m)) as v eqn:Ev.
  assert (nul_free str) as Hnf.
  { unfold str_at in Hstr. destruct (chars m s); [|done]. by eapply cstr_nul_free. }
  destruct (queue_allocated m head es str p v Hq Hnf Ep Ev)
    as (Hq4 & Ho4 & Hp & Hv & Hpn).
  remember (<[v := BChars (str ++ [NUL])]> (<[p := BElem v NULL NULL]> m)) as m4 eqn:Em4.
  pose proof (queue_ring _ _ _ Hq4) as Hr4.
  pose proof (queue_last _ _ _ Hq4) as Hlast.
  assert (is_Some (nxt m4 (List.last (map e_addr es) head))) as Hnn.
  { apply (ring_node m4 _ _ Hr4). rewrite <- (last_cons _ head NULL).
    by apply last_elem_of. }
  assert (m !! p = None) as Hmp by (rewrite Ep; apply fresh_addr_free).
  assert (m !! v = None) as Hmv.
  { assert (m !! v = (<[p := BElem NULL NULL NULL]> m) !! v) as ->.
    { rewrite lookup_insert_ne; [done|]. rewrite Ev. apply fresh_addr_ne.
      by rewrite lookup_insert_eq. }
    rewrite Ev. apply fresh_addr_free. }
  eexists _, p, v. split_and!.
  - unfold q_insert_tail. destruct (N.eqb_spec head NULL) as [|_]; [done|].
    rewrite (bind_done _ _ _ _ _ Hins). cbn beta iota.
    by rewrite (bind_done _ _ _ _ _ (list_add_tail_run _ _ _ _ _ Hlast Hnn Hpn)).
  - apply (queue_build m4); try done.
    + by apply Hq4.
    + intros x. by strip_links.
    + apply Forall_app. split; [by apply Hq4 | by constructor].
    + rewrite map_app. apply NoDup_app. split_and!; [by apply Hq4| |apply NoDup_singleton].
      intros x Hx [->|[]%elem_of_nil]%elem_of_cons. done.
    + rewrite map_app. by apply (ring_link_before_head m4 head (map e_addr es) p).
  - rewrite Ep. apply fresh_addr_free.
  - assert (m !! v = (<[p := BElem NULL NULL NULL]> m) !! v) as ->.
    { rewrite lookup_insert_ne; [done|]. rewrite Ev. apply fresh_addr_ne.
      by rewrite lookup_insert_eq. }
    rewrite Ev. apply fresh_addr_free.
  - intros x Hxp Hxv. strip_links. rewrite Em4.
    by rewrite !str_at_insert_ne.
  - apply tidy_grow.
    + intros x. rewrite !elem_of_blocks_of, !map_app. cbn [map]. set_solver.
    + intros x. rewrite !elem_of_blocks_of, !map_app. cbn [map e_addr e_val].
      intros Hx Hx'.
      assert (x = p ∨ x = v) as [->| ->] by set_solver; done.
    + rewrite Em4.
      assert (∀ x, x ∈ head :: map e_addr es ++ [p] →
                   x ∈ blocks_of head (es ++ [Elem p v str])) as Hin.
      { intros x Hx. apply nodes_in_blocks. by rewrite map_app. }
      repeat first [apply same_outside_set_next | apply same_outside_set_prev
                   | apply same_outside_insert | apply same_outside_refl ].
      * apply Hin. set_solver.
      * apply Hin. set_solver.
      * apply Hin. set_solver.
      * apply Hin. apply last_in_ring.
      * rewrite elem_of_blocks_of, !map_app. cbn [map e_val]. set_solver.
      * apply Hin. set_solver.
Qed.

Lemma q_new_ok m o :
  (pop_outcome o).1 = true →
  ∃ m', q_new (State m o) = Done (fresh_addr m) (State m' (pop_outcome o).2) ∧
        queue m' (fresh_addr m) [] ∧ m !! fresh_addr m = None.
Proof.
  intros Ho. set (h := fresh_addr m).
  assert (h ≠ NULL) as Hh by apply fresh_addr_nonnull.
  eexists. split_and!.
  - unfold q_new. rewrite (bind_done _ _ _ _ _ (malloc_run_ok _ _ _ Ho)). fold h.
    destruct (N.eqb_spec h NULL) as [|_]; [done|].
    unfold INIT_LIST_HEAD.
    erewrite bind_done; [reflexivity|].
    erewrite bind_done;
      [|apply store_next_run; unfold nxt; by rewrite lookup_insert_eq].
    apply store_prev_run. rewrite nxt_set_next_some. unfold nxt.
    by rewrite lookup_insert_eq.
  - assert (is_Some (nxt (<[h:=BList NULL NULL]> m) h)) as Hn.
    { unfold nxt. by rewrite lookup_insert_eq. }
    split_and!; [done| | |apply NoDup_nil_2|constructor].
    + rewrite val_set_prev, val_set_next. unfold val. by rewrite lookup_insert_eq.
    + split_and!; simpl.
      * apply NoDup_singleton.
      * split; [|done]. rewrite nxt_set_prev. by apply nxt_set_next_eq.
      * split; [|done]. apply prv_set_prev_eq. by rewrite nxt_set_next_some.
  - apply fresh_addr_free.
Qed.

Lemma q_new_fail m o :
  (pop_outcome o).1 = false → q_new (State m o) = Done NULL (State m (pop_outcome o).2).
Proof.
  intros Ho. unfold q_new. by rewrite (bind_done _ _ _ _ _ (malloc_run_fail _ _ _ Ho)).
Qed.
End insert.

(** ** Delete-duplicates *)

Section dedup.
Implicit Types (m : gmap N block) (o : list bool) (es rest todo : list elem) (e : elem).
Implicit Types (head h x v : N) (l : list N) (dup : bool).

(** The node after the first node of the part of the queue that is
    still to visit. *)
Lemma queue_next_of_first m head es1 e es2 :
  queue m head (es1 ++ e :: es2) →
  nxt m (e_addr e) = Some (hd head (map e_addr es2)).
Proof.
  intros Hq. apply queue_ring in Hq. rewrite queue_split_addrs in Hq.
  by apply ring_at in Hq as (? & _).
Qed.

Lemma queue_elem_not_head m head es e : queue m head es → e ∈ es → e_addr e ≠ head.
Proof.
  intros Hq He E. apply queue_ring, ring_sentinel_fresh in Hq. apply Hq.
  rewrite <- E. by apply list_elem_of_fmap_2.
Qed.

Lemma queue_owns m head es e : queue m head es → e ∈ es → owns m e.
Proof. intros Hq He. by apply (queue_elem m head es e Hq). Qed.

Lemma same_as_next_run m o head es1 e rest :
  queue m head (es1 ++ e :: rest) →
  (if hd head (map e_addr rest) =? head then ret false
   else
     do pv <- load_value (e_addr e);
     do nv <- load_value (hd head (map e_addr rest));
     do c <- strcmp_at pv nv;
     ret (c =? 0)%Z) (State m o) = Done (same_as_next e rest) (State m o).
Proof.
  intros Hq. destruct rest as [|e' rest]; simpl.
  - by rewrite N.eqb_refl.
  - assert (e ∈ es1 ++ e :: e' :: rest) as He by set_solver.
    assert (e' ∈ es1 ++ e :: e' :: rest) as He' by set_solver.
    destruct (N.eqb_spec (e_addr e') head) as [E|_].
    { by apply (queue_elem_not_head _ _ _ _ Hq) in E. }
    destruct (queue_owns _ _ _ _ Hq He) as (_ & _ & Hv & Hs).
    destruct (queue_owns _ _ _ _ Hq He') as (_ & _ & Hv' & Hs').
    rewrite (bind_done _ _ _ _ _ (load_value_run _ _ _ _ Hv)).
    rewrite (bind_done _ _ _ _ _ (load_value_run _ _ _ _ Hv')).
    by rewrite (bind_done _ _ _ _ _ (strcmp_at_run _ _ _ _ _ _ Hs Hs')).
Qed.

(** The successor of [next] once the loop body is done. *)
Lemma queue_next_next m head es1 rest :
  queue m head (es1 ++ rest) →
  ∃ n', nxt m (hd head (map e_addr rest)) = Some n' ∧
        (rest ≠ [] → n' = hd head (map e_addr (tl rest))).
Proof.
  intros Hq. destruct rest as [|e' rest]; simpl.
  - destruct (queue_head_node _ _ _ Hq) as [n' Hn']. exists n'. by split.
  - eexists. split; [by eapply queue_next_of_first | done].
Qed.

Lemma q_delete_dup_loop_run o head todo :
  ∀ done m dup fuel next,
    queue m head (done ++ todo) → (length todo < fuel)%nat →
    (todo ≠ [] → next = hd head (map e_addr (tl todo))) →
    ∃ m', q_delete_dup_loop fuel head (hd head (map e_addr todo)) next (Z.b2z dup)
            (State m o) = Done tt (State m' o) ∧
          queue m' head (done ++ dedup_from dup todo) ∧
          tidy_step head (done ++ todo) m (done ++ dedup_from dup todo) m'.
Proof.
  induction todo as [|e rest IH]; intros done m dup fuel next Hq Hf Hnext;
    (destruct fuel as [|fuel]; [simpl in Hf; lia|]).
  - exists m. simpl. rewrite N.eqb_refl. split_and!; [done..|]. apply tidy_refl.
  - simpl in Hf. specialize (Hnext ltac:(done)). simpl in Hnext. subst next.
    cbn [q_delete_dup_loop hd map].
    destruct (N.eqb_spec (e_addr e) head) as [E|_].
    { apply (queue_elem_not_head _ _ _ _ Hq) in E; [done | set_solver]. }
    rewrite (bind_done _ _ _ _ _ (same_as_next_run _ _ _ _ _ _ Hq)).
    cbn [dedup_from].
    destruct (same_as_next e rest) eqn:Hsame; [|destruct dup; cbn [Z.b2z Z.eqb negb]].
    + destruct (delete_element_run m o head done e rest Hq) as [Hdel Hq1].
      rewrite bind_assoc, (bind_done _ _ _ _ _ Hdel), bind_ret.
      destruct (queue_next_next _ _ _ _ Hq1) as (n' & Hn' & Hn'').
      rewrite (bind_done _ _ _ _ _ (load_next_run _ _ _ _ Hn')).
      change 1%Z with (Z.b2z true).
      destruct (IH done _ true fuel n' Hq1) as (m' & Hrun & Hq' & Ht'); [lia | done|].
      exists m'. split_and!; [done..|].
      eapply tidy_trans; [by apply tidy_delete | done].
    + destruct (delete_element_run m o head done e rest Hq) as [Hdel Hq1].
      rewrite bind_assoc, (bind_done _ _ _ _ _ Hdel), bind_ret.
      destruct (queue_next_next _ _ _ _ Hq1) as (n' & Hn' & Hn'').
      rewrite (bind_done _ _ _ _ _ (load_next_run _ _ _ _ Hn')).
      change 0%Z with (Z.b2z false).
      destruct (IH done _ false fuel n' Hq1) as (m' & Hrun & Hq' & Ht'); [lia | done|].
      exists m'. split_and!; [done..|].
      eapply tidy_trans; [by apply tidy_delete | done].
    + rewrite bind_ret.
      pose proof Hq as Hq0. rewrite (cons_middle e done rest), app_assoc in Hq0.
      destruct (queue_next_next _ _ _ _ Hq0) as (n' & Hn' & Hn'').
      rewrite (bind_done _ _ _ _ _ (load_next_run _ _ _ _ Hn')).
      change 0%Z with (Z.b2z false).
      destruct (IH (done ++ [e]) _ false fuel n' Hq0) as (m' & Hrun & Hq' & Ht');
        [lia | done|].
      rewrite <- (app_assoc done [e] (dedup_from false rest)) in Hq', Ht'.
      rewrite <- (app_assoc done [e] rest) in Ht'. cbn [app] in Hq', Ht'.
      by exists m'.
Qed.

Lemma q_delete_dup_run_strong m o head es fuel :
  queue m head es → (length es < fuel)%nat →
  ∃ m', q_delete_dup fuel head (State m o) = Done true (State m' o) ∧
        queue m' head (dedup_from false es) ∧
        tidy_step head es m (dedup_from false es) m'.
Proof.
  intros Hq Hf. pose proof Hq as (Hh & _).
  unfold q_delete_dup. destruct (N.eqb_spec head NULL) as [|_]; [done|].
  rewrite (bind_done _ _ _ _ _ (load_next_run _ _ _ _ (queue_first _ _ _ Hq))).
  destruct (queue_next_next m head [] es Hq) as (n' & Hn' & Hn'').
  rewrite (bind_done _ _ _ _ _ (load_next_run _ _ _ _ Hn')).
  destruct (q_delete_dup_loop_run o head es [] m false fuel n' Hq Hf Hn'')
    as (m' & Hrun & Hq' & Ht').
  exists m'. split_and!; [|done..].
  by rewrite (bind_done _ _ _ _ _ Hrun).
Qed.

Lemma q_delete_dup_run m o head es fuel :
  queue m head es → (length es < fuel)%nat →
  ∃ m', q_delete_dup fuel head (State m o) = Done true (State m' o) ∧
        queue m' head (dedup_from false es).
Proof.
  intros Hq Hf.
  destruct (q_delete_dup_run_strong m o head es fuel Hq Hf) as (m' & Hrun & Hq' & _).
  by exists m'.
Qed.

Lemma dedup_from_spec prev dup es :
  Forall (λ e, nul_free (e_str e)) es →
  (∀ e, head es = Some e → dup = bool_decide (prev = Some (e_str e))) →
  dedup_from dup es = unique_among_neighbours prev es.
Proof.
  intros Hnf. revert prev dup. induction Hnf as [|e rest He Hrest IH]; intros prev dup Hdup;
    [done|].
  specialize (Hdup e eq_refl). cbn [dedup_from unique_among_neighbours].
  assert (same_as_next e rest = bool_decide (e_str <$> head rest = Some (e_str e)))
    as Hsame.
  { destruct rest as [|e' rest]; simpl; [done|].
    apply Forall_cons_1 in Hrest as [He' _].
    destruct (bool_decide_reflect (Some (e_str e') = Some (e_str e))) as [[= E]|Hne].
    - rewrite E. by rewrite strcmp_refl.
    - apply not_true_is_false. intros Heq%strcmp_eqb_iff; [|done..].
      by rewrite Heq in Hne. }
  rewrite Hsame, <- Hdup. clear Hsame.
  destruct (bool_decide_reflect (e_str <$> head rest = Some (e_str e))) as [Hs|Hs].
  - rewrite orb_true_r. simpl. apply IH.
    intros e' He'. rewrite He' in Hs. simpl in Hs. injection Hs as Hs. rewrite Hs.
    by rewrite bool_decide_eq_true_2.
  - rewrite orb_false_r.
    assert (∀ e', head rest = Some e' →
                   false = bool_decide (Some (e_str e) = Some (e_str e'))) as Hnext.
    { intros e' He'. rewrite He' in Hs. simpl in Hs.
      symmetry. apply bool_decide_eq_false.
      intros [= E]. apply Hs. by rewrite E. }
    destruct dup; simpl; [by apply IH|]. f_equal. by apply IH.
Qed.

Lemma queue_nul_free m head es : queue m head es → Forall (λ e, nul_free (e_str e)) es.
Proof.
  intros (_ & _ & _ & _ & Ho). eapply Forall_impl; [done|].
  intros e (_ & _ & _ & Hs). unfold str_at in Hs.
  destruct (chars m (e_val e)); [|done]. by eapply cstr_nul_free.
Qed.
End dedup.

(** ** Swap *)

Section swap.
Implicit Types (m : gmap N block) (o : list bool) (es rest todo : list elem) (e : elem).
Implicit Types (head h x v : N) (l : list N).

Lemma at_most_one_null m o : at_most_one NULL (State m o) = Done true (State m o).
Proof. done. Qed.

Lemma at_most_one_run m o head es :
  queue m head es →
  at_most_one head (State m o) = Done (bool_decide (length es ≤ 1)%nat) (State m o).
Proof.
  intros Hq. pose proof Hq as (Hh & _). unfold at_most_one.
  destruct (N.eqb_spec head NULL) as [|_]; [done|].
  rewrite (bind_done _ _ _ _ _ (list_empty_queue _ _ _ _ Hq)).
  destruct es as [|e1 rest]; [done|].
  rewrite (bool_decide_eq_false_2 (e1 :: rest = [])) by done.
  unfold list_is_singular.
  rewrite (bind_done _ _ _ _ _ (load_next_run _ _ _ _ (queue_first _ _ _ Hq))).
  cbn [hd map].
  destruct (N.eqb_spec (e_addr e1) head) as [E|_].
  { apply (queue_elem_not_head _ _ _ _ Hq) in E; [done | set_solver]. }
  rewrite (bind_done _ _ _ _ _
             (load_next_run _ _ _ _ (queue_next_of_first m head [] e1 rest Hq))).
  unfold ret. f_equal. destruct rest as [|e2 rest]; simpl.
  - by rewrite N.eqb_refl.
  - apply N.eqb_neq.
    apply (queue_elem_not_head _ _ _ _ Hq). set_solver.
Qed.

(** One step of the loop: [e1] is unlinked and linked again after
    [e2]. *)
Lemma queue_swap_step m o head done e1 e2 rest :
  queue m head (done ++ e1 :: e2 :: rest) →
  ∃ m', (∀ B (k : M B),
           (list_del (e_addr e1);;
            do n' <- load_next (e_addr e1);
            list_add (e_addr e1) n';;
            k) (State m o) = k (State m' o)) ∧
        queue m' head (done ++ e2 :: e1 :: rest) ∧
        same_outside (head :: map e_addr (done ++ e1 :: e2 :: rest)) m m'.
Proof.
  intros Hq.
  destruct (queue_unlink m o head done e1 (e2 :: rest) Hq)
    as (Hdel & Hq1 & Ho1 & Hp & Hn & Hnode).
  cbn [hd map] in Hdel, Hq1, Ho1, Hp, Hn.
  remember (unlinked m (List.last (map e_addr done) head) (e_addr e2)) as m1 eqn:Em1.
  assert (nxt m1 (e_addr e1) = Some (e_addr e2)) as Hn1.
  { rewrite Em1. unfold unlinked. rewrite nxt_set_next_ne, nxt_set_prev by done.
    by apply (queue_next_of_first m head done e1 (e2 :: rest)). }
  pose proof (queue_next_of_first m1 head done e2 rest Hq1) as Hn2.
  pose proof (queue_ring _ _ _ Hq1) as Hr1.
  assert (is_Some (nxt m1 (hd head (map e_addr rest)))) as Hnn.
  { apply (ring_node m1 _ _ Hr1). rewrite map_app. cbn [map].
    destruct rest; simpl; set_solver. }
  assert (is_Some (nxt m1 (e_addr e1))) as Hnode1 by eauto.
  pose proof (queue_ring _ _ _ Hq) as Hr.
  assert (e_addr e1 ∉ head :: map e_addr (done ++ e2 :: rest)) as Hfresh.
  { destruct Hr as (Hnd & _). revert Hnd. rewrite !map_app. cbn [map].
    rewrite !NoDup_cons, !NoDup_app, !NoDup_cons. set_solver. }
  eexists. split_and!.
  - intros B k. rewrite (bind_done _ _ _ _ _ Hdel).
    rewrite (bind_done _ _ _ _ _ (load_next_run _ _ _ _ Hn1)).
    by rewrite (bind_done _ _ _ _ _ (list_add_run _ _ _ _ _ Hn2 Hnn Hnode1)).
  - pose proof Hq as (Hh & Hv & _ & Hndv & Ho).
    apply (queue_build m).
    + done.
    + done.
    + intros y. rewrite Em1. unfold unlinked. by strip_links.
    + revert Ho. rewrite !Forall_app, !Forall_cons. tauto.
    + revert Hndv. rewrite !map_app. cbn [map].
      rewrite !NoDup_app, !NoDup_cons. set_solver.
    + rewrite map_app in Hr1, Hfresh |- *. cbn [map] in Hr1, Hfresh |- *.
      rewrite app_comm_cons in Hr1, Hfresh |- *.
      pose proof (ring_link_after m1 (head :: map e_addr done) (e_addr e2)
                    (map e_addr rest) (e_addr e1) Hr1 Hfresh Hnode1) as Hr2.
      by cbn [hd] in Hr2.
  - rewrite Em1, map_app. cbn [map].
    repeat first [apply same_outside_set_next | apply same_outside_set_prev
                 | apply same_outside_unlinked | apply same_outside_refl ];
      try apply last_in_ring; try (destruct rest; simpl; set_solver).
Qed.

Lemma q_swap_loop_run o head fuel :
  ∀ todo done m,
    queue m head (done ++ todo) → (length todo < 2 * fuel)%nat →
    ∃ m', q_swap_loop fuel head (hd head (map e_addr todo)) (State m o) =
            Done tt (State m' o) ∧
          queue m' head (done ++ swap_pairs todo) ∧
          same_outside (head :: map e_addr (done ++ todo)) m m'.
Proof.
  induction fuel as [|fuel IH]; intros todo done m Hq Hf; [lia|].
  cbn [q_swap_loop].
  destruct todo as [|e1 [|e2 rest]].
  - exists m. simpl. rewrite N.eqb_refl. by split.
  - exists m. cbn [hd map].
    destruct (N.eqb_spec (e_addr e1) head) as [E|_].
    { apply (queue_elem_not_head _ _ _ _ Hq) in E; [done | set_solver]. }
    rewrite (bind_done _ _ _ _ _
               (load_next_run _ _ _ _ (queue_next_of_first m head done e1 [] Hq))).
    simpl. rewrite N.eqb_refl. by split.
  - cbn [hd map].
    destruct (N.eqb_spec (e_addr e1) head) as [E|_].
    { apply (queue_elem_not_head _ _ _ _ Hq) in E; [done | set_solver]. }
    rewrite (bind_done _ _ _ _ _
               (load_next_run _ _ _ _ (queue_next_of_first m head done e1 _ Hq))).
    cbn [hd map].
    destruct (N.eqb_spec (e_addr e2) head) as [E|_].
    { apply (queue_elem_not_head _ _ _ _ Hq) in E; [done | set_solver]. }
    destruct (queue_swap_step m o head done e1 e2 rest Hq) as (m1 & Hstep & Hq1 & Hfr1).
    rewrite Hstep.
    assert (nxt m1 (e_addr e1) = Some (hd head (map e_addr rest))) as Hn1.
    { apply (queue_next_of_first m1 head (done ++ [e2]) e1 rest).
      by rewrite <- app_assoc. }
    rewrite (bind_done _ _ _ _ _ (load_next_run _ _ _ _ Hn1)).
    cbn [swap_pairs].
    replace (done ++ e2 :: e1 :: swap_pairs rest)
      with ((done ++ [e2; e1]) ++ swap_pairs rest) by (by rewrite <- app_assoc).
    destruct (IH rest (done ++ [e2; e1]) m1) as (m' & Hrun & Hq' & Hfr');
      [by rewrite <- app_assoc | simpl in Hf; lia|].
    exists m'. split_and!; [done..|].
    apply (same_outside_trans _ m m1 m'); [done|].
    eapply same_outside_mono; [|exact Hfr'].
    intros x. rewrite !map_app. cbn [map]. set_solver.
Qed.

Lemma q_swap_run_strong m o head es fuel :
  queue m head es → (length es < 2 * fuel)%nat →
  ∃ m', q_swap fuel head (State m o) = Done tt (State m' o) ∧
        queue m' head (swap_pairs es) ∧
        ((length es ≤ 1)%nat → m' = m) ∧
        same_outside (head :: map e_addr es) m m'.
Proof.
  intros Hq Hf. unfold q_swap.
  rewrite (bind_done _ _ _ _ _ (at_most_one_run _ _ _ _ Hq)).
  destruct (bool_decide_reflect (length es ≤ 1)%nat) as [Hle|Hgt].
  - exists m. split_and!; [done| |done|done].
    by destruct es as [|e1 [|e2 rest]]; simpl in *; try lia.
  - rewrite (bind_done _ _ _ _ _ (load_next_run _ _ _ _ (queue_first _ _ _ Hq))).
    destruct (q_swap_loop_run o head fuel es [] m Hq Hf) as (m' & Hrun & Hq' & Hfr).
    exists m'. split_and!; [done|done|lia|done].
Qed.

Lemma q_swap_run m o head es fuel :
  queue m head es → (length es < 2 * fuel)%nat →
  ∃ m', q_swap fuel head (State m o) = Done tt (State m' o) ∧
        queue m' head (swap_pairs es) ∧
        ((length es ≤ 1)%nat → m' = m).
Proof.
  intros Hq Hf.
  destruct (q_swap_run_strong m o head es fuel Hq Hf) as (m' & Hrun & Hq' & Hsmall & _).
  by exists m'.
Qed.
End swap.

(** ** Reverse *)

Section reverse.
Implicit Types (m : gmap N block) (o : list bool) (es : list elem) (e : elem).
Implicit Types (head pos h x y : N) (l todo : list N).

Lemma q_reverse_loop_run o head todo :
  ∀ pos m fuel,
    NoDup (pos :: todo) → (head ∉ todo) → nlinked m (pos :: todo ++ [head]) →
    is_Some (nxt m head) → (length todo < fuel)%nat →
    ∃ m', q_reverse_loop fuel head pos (hd head todo) (State m o) =
            Done tt (State m' o) ∧
          (∀ y, y ∈ pos :: todo → nxt m' y = prv m y ∧ prv m' y = nxt m y) ∧
          (∀ y, y ∉ pos :: todo → nxt m' y = nxt m y ∧ prv m' y = prv m y) ∧
          same_data m m' ∧
          same_outside (pos :: todo) m m'.
Proof.
  induction todo as [|t todo IH]; intros pos m fuel Hnd Hh Hn Hhead Hf;
    (destruct fuel as [|fuel]; [simpl in Hf; lia|]); cbn [q_reverse_loop hd].
  - destruct Hn as [Hn _].
    assert (is_Some (prv m pos)) as [p Hp] by (apply node_prv; eauto).
    rewrite (bind_done _ _ _ _ _ (load_prev_run _ _ _ _ Hp)).
    erewrite bind_done; [|apply store_next_run; by eauto].
    erewrite bind_done; [|apply store_prev_run; rewrite nxt_set_next_some; by eauto].
    assert (is_Some (nxt (set_prev pos head (set_next pos p m)) head)) as [n' Hn'].
    { by rewrite nxt_set_prev, nxt_set_next_some. }
    rewrite (bind_done _ _ _ _ _ (load_next_run _ _ _ _ Hn')).
    rewrite N.eqb_refl. eexists. split_and!; [done| | | |].
    + intros y ->%list_elem_of_singleton. split.
      * rewrite nxt_set_prev. rewrite Hp. apply nxt_set_next_eq. by eauto.
      * rewrite Hn. apply prv_set_prev_eq. rewrite nxt_set_next_some. by eauto.
    + intros y Hy. assert (y ≠ pos) by set_solver.
      by rewrite nxt_set_prev, nxt_set_next_ne, prv_set_prev_ne, prv_set_next.
    + intros y. by strip_links.
    + apply same_outside_set_prev, same_outside_set_next, same_outside_refl; set_solver.
  - destruct Hn as [Hn Hn2].
    assert (is_Some (prv m pos)) as [p Hp] by (apply node_prv; eauto).
    apply NoDup_cons in Hnd as [Hpos Hnd].
    assert (t ≠ pos) as Htp by set_solver.
    assert (t ≠ head) as Hth by set_solver.
    rewrite (bind_done _ _ _ _ _ (load_prev_run _ _ _ _ Hp)).
    erewrite bind_done; [|apply store_next_run; by eauto].
    erewrite bind_done; [|apply store_prev_run; rewrite nxt_set_next_some; by eauto].
    set (m2 := set_prev pos t (set_next pos p m)).
    assert (∀ y, y ≠ pos → nxt m2 y = nxt m y ∧ prv m2 y = prv m y) as Hframe.
    { intros y Hy. unfold m2.
      by rewrite nxt_set_prev, nxt_set_next_ne, prv_set_prev_ne, prv_set_next. }
    assert (nlinked m2 (t :: todo ++ [head])) as Hn2'.
    { apply (nlinked_agree m); [|done]. intros y Hy.
      change (t :: todo ++ [head]) with ((t :: todo) ++ [head]) in Hy.
      rewrite removelast_snoc in Hy. apply Hframe. intros ->. by apply Hpos. }
    assert (nxt m2 t = Some (hd head todo)) as Hnt.
    { destruct todo; simpl in Hn2'; by destruct Hn2'. }
    rewrite (bind_done _ _ _ _ _ (load_next_run _ _ _ _ Hnt)).
    destruct (N.eqb_spec t head) as [|_]; [done|].
    destruct (IH t m2 fuel Hnd) as (m' & Hrun & Hsw & Hfr & Hsd & Hout).
    { set_solver. }
    { done. }
    { unfold m2. by rewrite nxt_set_prev, nxt_set_next_some. }
    { simpl in Hf. lia. }
    exists m'. split_and!; [done| | | |].
    + intros y [->|Hy]%elem_of_cons.
      * destruct (Hfr pos Hpos) as [-> ->]. split.
        -- unfold m2. rewrite nxt_set_prev, Hp. apply nxt_set_next_eq. by eauto.
        -- unfold m2. rewrite Hn. apply prv_set_prev_eq.
           rewrite nxt_set_next_some. by eauto.
      * destruct (Hsw y Hy) as [-> ->].
        assert (y ≠ pos) as Hne by (by intros ->).
        destruct (Hframe y Hne) as [-> ->]. done.
    + intros y Hy. assert (y ∉ t :: todo) as Hy' by set_solver.
      destruct (Hfr y Hy') as [-> ->]. apply Hframe. set_solver.
    + intros y. destruct (Hsd y) as [-> ->]. unfold m2. by strip_links.
    + apply (same_outside_trans _ m m2 m').
      * unfold m2.
        apply same_outside_set_prev, same_outside_set_next, same_outside_refl; set_solver.
      * eapply same_outside_mono; [|exact Hout]. set_solver.
Qed.

Lemma rev_path (h : N) l : rev ((h :: l) ++ [h]) = (h :: rev l) ++ [h].
Proof. rewrite rev_app_distr. simpl. done. Qed.

Lemma q_reverse_run_strong m o head es fuel :
  queue m head es → (length es < fuel)%nat →
  ∃ m', q_reverse fuel head (State m o) = Done tt (State m' o) ∧
        queue m' head (rev es) ∧
        ((length es ≤ 1)%nat → m' = m) ∧
        same_outside (head :: map e_addr es) m m'.
Proof.
  intros Hq Hf. unfold q_reverse.
  rewrite (bind_done _ _ _ _ _ (at_most_one_run _ _ _ _ Hq)).
  destruct (bool_decide_reflect (length es ≤ 1)%nat) as [Hle|Hgt].
  { exists m. split_and!; [done| |done|done].
    by destruct es as [|e1 [|e2 rest]]; simpl in *; try lia. }
  rewrite (bind_done _ _ _ _ _ (load_next_run _ _ _ _ (queue_first _ _ _ Hq))).
  pose proof Hq as (Hh & Hv & (Hnd & Hn & Hp) & Hndv & Ho). simpl hd in Hn, Hp.
  destruct (q_reverse_loop_run o head (map e_addr es) head m fuel)
    as (m' & Hrun & Hsw & Hfr & Hsd & Hout); try done.
  { by apply NoDup_cons in Hnd as [? _]. }
  { by eapply queue_head_node. }
  { by rewrite length_map. }
  exists m'. split_and!; [done| |lia|done].
  apply (queue_build m); try done.
  - by rewrite <- Permutation_rev.
  - by rewrite map_rev, <- Permutation_rev.
  - rewrite map_rev. split_and!.
    + by rewrite <- Permutation_rev.
    + simpl hd. rewrite <- rev_path. apply (nlinked_rev m); [done|].
      simpl. intros y Hy. apply Hsw. set_solver.
    + simpl hd. rewrite <- rev_path. apply (plinked_rev m); [done|].
      rewrite removelast_snoc. intros y Hy. by apply Hsw.
Qed.

Lemma q_reverse_run m o head es fuel :
  queue m head es → (length es < fuel)%nat →
  ∃ m', q_reverse fuel head (State m o) = Done tt (State m' o) ∧
        queue m' head (rev es) ∧
        ((length es ≤ 1)%nat → m' = m).
Proof.
  intros Hq Hf.
  destruct (q_reverse_run_strong m o head es fuel Hq Hf) as (m' & Hrun & Hq' & Hsmall & _).
  by exists m'.
Qed.
End reverse.

(** ** Merging and stable sorting of lists *)

Section merge.
Implicit Types (a b es : list elem) (x y e : elem) (s : list byte).

Lemma merge_nil_l b : merge [] b = b.
Proof. by destruct b. Qed.

Lemma merge_nil_r a : merge a [] = a.
Proof. by destruct a. Qed.

Lemma merge_cons x a y b :
  merge (x :: a) (y :: b) =
  if (strcmp (e_str x) (e_str y) <=? 0)%Z then x :: merge a (y :: b)
  else y :: merge (x :: a) b.
Proof. done. Qed.

Lemma merge_perm a b : merge a b ≡ₚ a ++ b.
Proof.
  revert b. induction a as [|x a IHa]; intros b; [by rewrite merge_nil_l|].
  induction b as [|y b IHb]; [by rewrite merge_nil_r, app_nil_r|].
  rewrite merge_cons. destruct (strcmp (e_str x) (e_str y) <=? 0)%Z.
  - simpl. by rewrite IHa.
  - rewrite IHb. by rewrite (Permutation_middle (x :: a) b y).
Qed.

Lemma merge_length a b : length (merge a b) = (length a + length b)%nat.
Proof. by rewrite merge_perm, length_app. Qed.

Lemma elem_le_trans x y e :
  nul_free (e_str x) → nul_free (e_str y) → nul_free (e_str e) →
  elem_le x y → elem_le y e → elem_le x e.
Proof. unfold elem_le. apply str_le_trans. Qed.

Lemma merge_sorted a b :
  all_nul_free a → all_nul_free b →
  StronglySorted elem_le a → StronglySorted elem_le b →
  StronglySorted elem_le (merge a b).
Proof.
  intros Ha. revert b. induction Ha as [|x a Hx Ha IHa]; intros b Hb Sa Sb;
    [by rewrite merge_nil_l|].
  induction Hb as [|y b Hy Hb IHb]; [by rewrite merge_nil_r|].
  rewrite merge_cons.
  apply StronglySorted_inv in Sa as [Sa Fa]. apply StronglySorted_inv in Sb as [Sb Fb].
  destruct (Z.leb_spec (strcmp (e_str x) (e_str y)) 0) as [Hle|Hgt].
  - constructor.
    + apply IHa; [by constructor|done|by constructor].
    + rewrite merge_perm. apply Forall_app. split; [done|]. constructor; [done|].
      rewrite Forall_forall in Fb, Hb |- *. intros e He.
      apply (elem_le_trans x y e); [done..|by apply Hb|done|by apply Fb].
  - assert (elem_le y x) as Hyx.
    { unfold elem_le, str_le. rewrite (strcmp_antisym_sign (e_str x) (e_str y)) by done.
      lia. }
    constructor.
    + by apply IHb.
    + rewrite merge_perm. apply Forall_app. split; [|done]. constructor; [done|].
      rewrite Forall_forall in Fa, Ha |- *. intros e He.
      apply (elem_le_trans y x e); [done..|by apply Ha|done|by apply Fa].
Qed.

Lemma with_payload_cons s e es :
  with_payload s (e :: es) =
  if decide (e_str e = s) then e :: with_payload s es else with_payload s es.
Proof. unfold with_payload. by rewrite filter_cons. Qed.

Lemma with_payload_app s a b :
  with_payload s (a ++ b) = with_payload s a ++ with_payload s b.
Proof. unfold with_payload. by rewrite filter_app. Qed.

Lemma with_payload_none s es : Forall (λ e, e_str e ≠ s) es → with_payload s es = [].
Proof.
  induction 1 as [|e es He _ IH]; [done|].
  rewrite with_payload_cons. by rewrite decide_False.
Qed.

(** The merge is stable: the elements of [a] of a given payload stay
    before those of [b]. *)
Lemma merge_stable s a b :
  StronglySorted elem_le a →
  with_payload s (merge a b) = with_payload s a ++ with_payload s b.
Proof.
  revert b. induction a as [|x a IHa]; intros b Sa; [by rewrite merge_nil_l|].
  induction b as [|y b IHb]; [by rewrite merge_nil_r, app_nil_r|].
  rewrite merge_cons.
  destruct (Z.leb_spec (strcmp (e_str x) (e_str y)) 0) as [Hle|Hgt].
  - rewrite !with_payload_cons. apply StronglySorted_inv in Sa as [Sa Fa].
    rewrite (IHa _ Sa). rewrite with_payload_cons.
    by destruct (decide (e_str x = s)).
  - rewrite with_payload_cons, IHb. rewrite (with_payload_cons s y b).
    destruct (decide (e_str y = s)) as [Hy|Hy]; [|done].
    rewrite with_payload_none; [done|].
    apply StronglySorted_inv in Sa as [Sa Fa].
    constructor.
    + intros E. rewrite E, <- Hy, strcmp_refl in Hgt. lia.
    + eapply Forall_impl; [done|]. intros e He E. unfold elem_le, str_le in He.
      rewrite E, <- Hy in He. lia.
Qed.

Lemma all_nul_free_perm es es' : es' ≡ₚ es → all_nul_free es → all_nul_free es'.
Proof. intros Hp. unfold all_nul_free. by rewrite Hp. Qed.

Lemma stable_sorted_small es : (length es ≤ 1)%nat → stable_sorted es es.
Proof.
  intros Hlen. split_and!; [done| |done].
  destruct es as [|e [|e' es]]; simpl in Hlen; [constructor| |lia].
  constructor; constructor.
Qed.

Lemma stable_sorted_merge a b a' b' :
  all_nul_free a → all_nul_free b →
  stable_sorted a a' → stable_sorted b b' → stable_sorted (a ++ b) (merge a' b').
Proof.
  intros Ha Hb (Pa & Sa & Wa) (Pb & Sb & Wb). split_and!.
  - by rewrite merge_perm, Pa, Pb.
  - apply merge_sorted; [by eapply all_nul_free_perm..|done|done].
  - intros s. by rewrite merge_stable, with_payload_app, Wa, Wb.
Qed.
End merge.

(** ** Sort: the chain, the split and the merge *)

Section chain.
Implicit Types (m : gmap N block) (o : list bool) (es : list elem) (e : elem).
Implicit Types (head h x y : N) (l P : list N) (i k fuel : nat).

Lemma nlinked_nth m P i d :
  nlinked m P → (S i < length P)%nat → nxt m (nth i P d) = Some (nth (S i) P d).
Proof.
  revert i. induction P as [|a [|b t] IH]; intros i Hn Hi; [simpl in Hi; lia..|].
  destruct Hn as [H1 H2]. destruct i as [|i]; [done|].
  change (nth (S i) (a :: b :: t) d) with (nth i (b :: t) d).
  change (nth (S (S i)) (a :: b :: t) d) with (nth (S i) (b :: t) d).
  apply IH; [done | simpl in *; lia].
Qed.

Lemma plinked_nth m P i d :
  plinked m P → (S i < length P)%nat → prv m (nth (S i) P d) = Some (nth i P d).
Proof.
  revert i. induction P as [|a [|b t] IH]; intros i Hn Hi; [simpl in Hi; lia..|].
  destruct Hn as [H1 H2]. destruct i as [|i]; [done|].
  change (nth (S i) (a :: b :: t) d) with (nth i (b :: t) d).
  change (nth (S (S i)) (a :: b :: t) d) with (nth (S i) (b :: t) d).
  apply IH; [done | simpl in *; lia].
Qed.

Lemma nth_snoc_default {A} (l : list A) (d : A) i : nth i (l ++ [d]) d = nth i l d.
Proof.
  revert i. induction l as [|a l IH]; intros [|i]; simpl; try done.
  by destruct i.
Qed.

Lemma chain_nxt_nth m l i :
  chain m l → (i < length l)%nat → nxt m (nth i l NULL) = Some (nth (S i) l NULL).
Proof.
  intros (_ & _ & Hn) Hi.
  rewrite <- (nth_snoc_default l NULL i), <- (nth_snoc_default l NULL (S i)).
  apply nlinked_nth; [done|]. rewrite length_app. simpl. lia.
Qed.

Lemma chain_node m l x : chain m l → x ∈ l → is_Some (nxt m x).
Proof.
  intros (_ & _ & Hn) Hx. apply (nlinked_node m (l ++ [NULL])); [done|].
  by rewrite removelast_snoc.
Qed.

Lemma chain_agree m m' l :
  chain m l → (∀ y, y ∈ l → nxt m' y = nxt m y) → chain m' l.
Proof.
  intros (Hnd & H0 & Hn) Hag. split_and!; [done..|].
  apply (nlinked_agree m); [|done]. by rewrite removelast_snoc.
Qed.

Lemma split_walk_run m o l fuel i :
  chain m l → (2 * i ≤ length l)%nat → (length l - 2 * i < 2 * fuel)%nat →
  split_walk fuel (nth (2 * i) l NULL) (nth i l NULL) (State m o) =
  Done (nth (length l / 2) l NULL) (State m o).
Proof.
  intros Hc. pose proof Hc as (_ & H0 & _).
  revert i. induction fuel as [|fuel IH]; intros i Hi Hf; [lia|].
  cbn [split_walk]. destruct (N.eqb_spec (nth (2 * i) l NULL) NULL) as [E|E].
  - apply nth_sentinel in E; [|done].
    assert (length l / 2 = i)%nat as -> by (symmetry; apply Nat.div_unique with 0%nat; lia).
    reflexivity.
  - assert (2 * i < length l)%nat as Hlt.
    { destruct (Nat.le_gt_cases (length l) (2 * i)) as [Hge|?]; [|done].
      exfalso. apply E. by apply nth_sentinel. }
    rewrite (bind_done _ _ _ _ _ (load_next_run _ _ _ _ (chain_nxt_nth _ _ _ Hc Hlt))).
    destruct (N.eqb_spec (nth (S (2 * i)) l NULL) NULL) as [E'|E'].
    + apply nth_sentinel in E'; [|done].
      assert (length l / 2 = i)%nat as ->
          by (symmetry; apply Nat.div_unique with 1%nat; lia).
      reflexivity.
    + assert (S (2 * i) < length l)%nat as Hlt'.
      { destruct (Nat.le_gt_cases (length l) (S (2 * i))) as [Hge|?]; [|done].
        exfalso. apply E'. by apply nth_sentinel. }
      assert (i < length l)%nat as Hlti by lia.
      rewrite (bind_done _ _ _ _ _ (load_next_run _ _ _ _ (chain_nxt_nth _ _ _ Hc Hlt))).
      rewrite (bind_done _ _ _ _ _ (load_next_run _ _ _ _ (chain_nxt_nth _ _ _ Hc Hlt'))).
      rewrite (bind_done _ _ _ _ _ (load_next_run _ _ _ _ (chain_nxt_nth _ _ _ Hc Hlti))).
      replace (S (S (2 * i))) with (2 * S i)%nat by lia.
      apply IH; lia.
Qed.

Lemma last_take_nth {A} (l : list A) k (d : A) :
  (0 < k ≤ length l)%nat → List.last (take k l) d = nth (k - 1) l d.
Proof.
  revert k. induction l as [|a l IH]; intros k Hk; simpl in Hk; [lia|].
  destruct k as [|k]; [lia|]. destruct k as [|k].
  - simpl. by destruct l.
  - change (take (S (S k)) (a :: l)) with (a :: take (S k) l).
    assert (take (S k) l ≠ []) as Hne.
    { destruct l; simpl in *; [lia|done]. }
    destruct (take (S k) l) as [|b t] eqn:Et; [done|].
    rewrite last_cons_cons, <- Et. rewrite IH by lia.
    replace (S (S k) - 1)%nat with (S (S k - 1)) by lia. done.
Qed.

Lemma plinked_app_l m P S : plinked m (P ++ S) → plinked m P.
Proof.
  destruct P as [|a P]; [done|]. destruct S as [|b S]; [by rewrite app_nil_r|].
  intros H. by apply plinked_concat in H as (? & _).
Qed.

Lemma plinked_app_r m P S : plinked m (P ++ S) → plinked m S.
Proof.
  destruct P as [|a P]; [done|]. destruct S as [|b S]; [done|].
  intros H. by apply plinked_concat in H as (_ & _ & ?).
Qed.

Lemma nlinked_app_l m P S : nlinked m (P ++ S) → nlinked m P.
Proof.
  destruct P as [|a P]; [done|]. destruct S as [|b S]; [by rewrite app_nil_r|].
  intros H. by apply nlinked_concat in H as (? & _).
Qed.

Lemma nlinked_app_r m P S : nlinked m (P ++ S) → nlinked m S.
Proof.
  destruct P as [|a P]; [done|]. destruct S as [|b S]; [done|].
  intros H. by apply nlinked_concat in H as (_ & _ & ?).
Qed.

(** [__q_split_into_two] cuts the chain in the middle. *)
Lemma q_split_run m o l fuel :
  chain m l → plinked m l → (2 ≤ length l)%nat → (length l < 2 * fuel)%nat →
  let k := (length l / 2)%nat in
  let m' := set_next (nth (k - 1) l NULL) NULL m in
  __q_split_into_two fuel (hd NULL l) (State m o) = Done (nth k l NULL) (State m' o) ∧
  chain m' (take k l) ∧ chain m' (drop k l) ∧ (0 < k < length l)%nat.
Proof.
  intros Hc Hp Hlen Hf k m'. pose proof Hc as (Hnd & H0 & Hn).
  assert (0 < k < length l)%nat as Hk.
  { subst k. split.
    - apply Nat.div_str_pos. lia.
    - apply Nat.div_lt; lia. }
  assert (prv m (nth k l NULL) = Some (nth (k - 1) l NULL)) as Hprev.
  { replace k with (S (k - 1)) at 1 by lia. apply plinked_nth; [done|lia]. }
  assert (is_Some (nxt m (nth (k - 1) l NULL))) as Hnode.
  { apply (chain_node m l); [done|]. apply list_elem_of_In, nth_In. lia. }
  assert (l = take k l ++ drop k l) as Hsplit by (by rewrite take_drop).
  assert (take k l ≠ []) as Hne.
  { intros E. apply (f_equal length) in E. rewrite length_take in E. simpl in E. lia. }
  assert (List.last (take k l) NULL = nth (k - 1) l NULL) as Hlast
    by (apply last_take_nth; lia).
  assert (NoDup (take k l) ∧ NoDup (drop k l) ∧
          ∀ y, y ∈ take k l → y ∉ drop k l) as (Hnd1 & Hnd2 & Hdisj).
  { rewrite Hsplit in Hnd. apply NoDup_app in Hnd. tauto. }
  split; [|split; [|split; [|done]]].
  - unfold __q_split_into_two.
    pose proof (split_walk_run m o l fuel 0 Hc) as Hw. simpl nth in Hw at 1 2.
    replace (nth 0 l NULL) with (hd NULL l) in Hw by (by destruct l).
    rewrite (bind_done _ _ _ _ _ (Hw ltac:(lia) ltac:(lia))). fold k.
    rewrite (bind_done _ _ _ _ _ (load_prev_run _ _ _ _ Hprev)).
    by rewrite (bind_done _ _ _ _ _ (store_next_run _ _ _ _ Hnode)).
  - split_and!; [done| |].
    + intros Hin. apply H0. rewrite Hsplit. set_solver.
    + apply (nlinked_concat m' (take k l) [NULL]); [done..|]. split_and!; [| |done].
      * apply (nlinked_agree m).
        -- intros y Hy. unfold m'. rewrite nxt_set_next_ne; [done|].
           intros ->. revert Hy. rewrite <- Hlast. by apply last_not_in_removelast.
        -- apply (nlinked_app_l m _ (drop k l ++ [NULL])).
           by rewrite app_assoc, <- Hsplit.
      * rewrite Hlast. simpl. unfold m'. by apply nxt_set_next_eq.
  - split_and!; [done| |].
    + intros Hin. apply H0. rewrite Hsplit. set_solver.
    + apply (nlinked_agree m).
      * rewrite removelast_snoc. intros y Hy. unfold m'.
        rewrite nxt_set_next_ne; [done|]. intros ->. apply (Hdisj (nth (k - 1) l NULL)); [|done].
        rewrite <- Hlast. by apply last_elem_of.
      * apply (nlinked_app_r m (take k l)). by rewrite app_assoc, <- Hsplit.
Qed.
End chain.

Section merge_loop.
Implicit Types (m : gmap N block) (o : list bool) (a b es : list elem) (e : elem).
Implicit Types (head h x y t hv : N) (l P : list N) (i k fuel : nat) (ptr : lvalue).

Lemma chain_nil m : chain m [].
Proof. split_and!; [apply NoDup_nil_2 | set_solver | done]. Qed.

Lemma chain_cons_inv m x l :
  chain m (x :: l) → chain m l ∧ nxt m x = Some (hd NULL l) ∧ x ≠ NULL ∧ (x ∉ l).
Proof.
  intros (Hnd & H0 & Hn). apply NoDup_cons in Hnd as [Hx Hnd].
  split_and!; try done.
  - split_and!; [done|set_solver|]. by apply (nlinked_tl m ((x :: l) ++ [NULL])).
  - rewrite <- (hd_snoc l NULL NULL). destruct l; simpl in *; tauto.
  - set_solver.
Qed.

Lemma chain_cons m x l :
  chain m l → (x ∉ l) → x ≠ NULL → nxt m x = Some (hd NULL l) → chain m (x :: l).
Proof.
  intros (Hnd & H0 & Hn) Hx Hx0 Hnx. split_and!.
  - by apply NoDup_cons.
  - set_solver.
  - rewrite <- (hd_snoc l NULL NULL) in Hnx.
    change ((x :: l) ++ [NULL]) with (x :: (l ++ [NULL])).
    destruct (l ++ [NULL]) eqn:E; [by destruct l|]. simpl in *. done.
Qed.

(** [*ptr = v] followed by the read of [*ptr]. *)
Lemma store_at_run m o ptr v hv l :
  ptr_ok m ptr l →
  ∃ m' hv', store_at ptr v hv (State m o) = Done hv' (State m' o) ∧
            load_at ptr hv' (State m' o) = Done v (State m' o) ∧
            ptr_target m' ptr hv' = Some v ∧
            (ptr ≠ LocalHead → hv' = hv) ∧
            (∀ y, prv m' y = prv m y) ∧ same_data m m' ∧
            (∀ y, off_ptr ptr y → nxt m' y = nxt m y) ∧
            (∀ y, is_Some (nxt m' y) ↔ is_Some (nxt m y)) ∧
            (∀ y, off_ptr ptr y → m' !! y = m !! y).
Proof.
  destruct ptr as [|t]; simpl.
  - intros _. exists m, v. by split_and!.
  - intros [Ht _]. exists (set_next t v m), hv.
    assert (nxt (set_next t v m) t = Some v) as Hv by (by apply nxt_set_next_eq).
    split_and!; try done.
    + unfold store_at. by rewrite (bind_done _ _ _ _ _ (store_next_run _ _ _ _ Ht)).
    + by apply load_next_run.
    + intros y. by rewrite prv_set_next.
    + intros y. by strip_links.
    + intros y Hy. by apply nxt_set_next_ne.
    + intros y. by rewrite nxt_set_next_some.
    + intros y Hy. unfold set_next. apply lookup_alter_ne. by intros ->.
Qed.

Lemma N_lor_null_l x : N.lor NULL x = x.
Proof. done. Qed.

Lemma N_lor_null_r x : N.lor x NULL = x.
Proof. apply N.lor_0_r. Qed.

Lemma hd_addr_null m a : chain m (map e_addr a) → hd NULL (map e_addr a) = NULL ↔ a = [].
Proof.
  intros (_ & H0 & _). destruct a as [|x a]; [done|]. simpl. split; [|done].
  intros E. exfalso. apply H0. simpl. rewrite E. set_solver.
Qed.

Lemma merge_loop_run o fuel :
  ∀ a b m hv ptr,
    chain m (map e_addr a) → chain m (map e_addr b) →
    NoDup (map e_addr a ++ map e_addr b) →
    Forall (owns m) a → Forall (owns m) b →
    ptr_ok m ptr (map e_addr a ++ map e_addr b) →
    (length a + length b < fuel)%nat →
    ∃ m' hv',
      merge_loop fuel hv ptr (hd NULL (map e_addr a)) (hd NULL (map e_addr b))
        (State m o) = Done hv' (State m' o) ∧
      chain m' (map e_addr (merge a b)) ∧
      ptr_target m' ptr hv' = Some (hd NULL (map e_addr (merge a b))) ∧
      (ptr ≠ LocalHead → hv' = hv) ∧
      (∀ y, prv m' y = prv m y) ∧ same_data m m' ∧
      (∀ y, y ∉ map e_addr a ++ map e_addr b → off_ptr ptr y → nxt m' y = nxt m y) ∧
      (∀ y, y ∉ map e_addr a ++ map e_addr b → off_ptr ptr y → m' !! y = m !! y).
Proof.
  induction fuel as [|fuel IH]; intros a b m hv ptr Ha Hb Hnd Hoa Hob Hptr Hf; [lia|].
  cbn [merge_loop].
  destruct a as [|x a'].
  { (* the left chain is empty *)
    cbn [map hd]. rewrite N.eqb_refl. cbn [orb]. rewrite N_lor_null_l, merge_nil_l.
    destruct (store_at_run m o ptr (hd NULL (map e_addr b)) hv _ Hptr)
      as (m' & hv' & Hst & _ & Htg & Hhv & Hprv & Hsd & Hfr & _ & Hblk).
    exists m', hv'. split_and!; try done.
    - apply (chain_agree m); [done|]. intros y Hy. apply Hfr.
      destruct ptr as [|t]; simpl in *; [done|]. intros ->. apply (proj2 Hptr). set_solver.
    - intros y _ Hy. by apply Hfr.
    - intros y _ Hy. by apply Hblk. }
  destruct b as [|y b'].
  { (* the right chain is empty *)
    cbn [map hd]. rewrite N.eqb_refl, orb_true_r. rewrite N_lor_null_r, merge_nil_r.
    destruct (store_at_run m o ptr (e_addr x) hv _ Hptr)
      as (m' & hv' & Hst & _ & Htg & Hhv & Hprv & Hsd & Hfr & _ & Hblk).
    exists m', hv'. split_and!; try done.
    - apply (chain_agree m); [done|]. intros z Hz. apply Hfr.
      destruct ptr as [|t]; simpl in *; [done|]. intros ->. apply (proj2 Hptr). set_solver.
    - intros z _ Hz. by apply Hfr.
    - intros z _ Hz. by apply Hblk. }
  cbn [map hd] in *.
  apply chain_cons_inv in Ha as Ha'. destruct Ha' as (Ha' & Hxn & Hx0 & Hxa).
  apply chain_cons_inv in Hb as Hb'. destruct Hb' as (Hb' & Hyn & Hy0 & Hyb).
  destruct (N.eqb_spec (e_addr x) NULL) as [|_]; [done|].
  destruct (N.eqb_spec (e_addr y) NULL) as [|_]; [done|]. cbn [orb].
  apply Forall_cons_1 in Hoa as Hoa'. destruct Hoa' as [(_ & _ & Hxv & Hxs) Hoa'].
  apply Forall_cons_1 in Hob as Hob'. destruct Hob' as [(_ & _ & Hyv & Hys) Hob'].
  rewrite (bind_done _ _ _ _ _ (load_value_run _ _ _ _ Hxv)).
  rewrite (bind_done _ _ _ _ _ (load_value_run _ _ _ _ Hyv)).
  rewrite (bind_done _ _ _ _ _ (strcmp_at_run _ _ _ _ _ _ Hxs Hys)).
  rewrite merge_cons.
  assert (∀ z, z ∈ e_addr x :: map e_addr a' → z ∉ e_addr y :: map e_addr b') as Hdisj.
  { apply NoDup_app in Hnd. tauto. }
  destruct (strcmp (e_str x) (e_str y) <=? 0)%Z.
  - (* the head of the left chain is taken *)
    destruct (store_at_run m o ptr (e_addr x) hv _ Hptr)
      as (m1 & hv1 & Hst & Hld & Htg & Hhv & Hprv & Hsd & Hfr & Hnode & Hblk).
    rewrite (bind_done _ _ _ _ _ Hst).
    assert (off_ptr ptr (e_addr x)) as Hoffx.
    { destruct ptr as [|t]; simpl in *; [done|]. intros E. apply (proj2 Hptr).
      rewrite <- E. set_solver. }
    assert (nxt m1 (e_addr x) = Some (hd NULL (map e_addr a'))) as Hxn1
      by (by rewrite Hfr).
    rewrite (bind_done _ _ _ _ _ (load_next_run _ _ _ _ Hxn1)).
    rewrite (bind_done _ _ _ _ _ Hld).
    assert (∀ z, z ∈ map e_addr a' ++ e_addr y :: map e_addr b' → off_ptr ptr z)
      as Hoff.
    { intros z Hz. destruct ptr as [|t]; simpl in *; [done|]. intros ->.
      apply (proj2 Hptr). set_solver. }
    destruct (IH a' (y :: b') m1 hv1 (NextOf (e_addr x)))
      as (m' & hv' & Hrun & Hc & Htg' & Hhv' & Hprv' & Hsd' & Hfr' & Hblk').
    { apply (chain_agree m); [done|]. intros z Hz. apply Hfr, Hoff. set_solver. }
    { apply (chain_agree m); [done|]. intros z Hz. apply Hfr, Hoff. set_solver. }
    { cbn [map]. apply NoDup_cons in Hnd as [_ Hnd]. done. }
    { eapply Forall_impl; [done|]. intros e. by apply owns_same_data. }
    { eapply Forall_impl; [done|]. intros e. by apply owns_same_data. }
    { split; [by eauto|]. cbn [map]. by apply NoDup_cons in Hnd as [? _]. }
    { simpl in *. lia. }
    cbn [map hd] in *.
    exists m', hv'. split_and!; try done.
    + apply chain_cons; [done| |done|done].
      rewrite merge_perm, map_app. cbn [map].
      by apply NoDup_cons in Hnd as [? _].
    + destruct ptr as [|t]; simpl in *.
      * rewrite Hhv' by done. congruence.
      * rewrite Hfr'; [done| |].
        -- intros Hin. apply (proj2 Hptr). set_solver.
        -- intros ->. apply (proj2 Hptr). set_solver.
    + intros Hp. rewrite Hhv' by done. by apply Hhv.
    + intros z. by rewrite Hprv'.
    + by apply (same_data_trans m m1 m').
    + intros z Hz Hoffz. rewrite Hfr'; [by apply Hfr| |].
      * intros Hin. apply Hz. set_solver.
      * simpl. intros ->. apply Hz. set_solver.
    + intros z Hz Hoffz. rewrite Hblk'; [by apply Hblk| |].
      * intros Hin. apply Hz. set_solver.
      * simpl. intros ->. apply Hz. set_solver.
  - (* the head of the right chain is taken *)
    destruct (store_at_run m o ptr (e_addr y) hv _ Hptr)
      as (m1 & hv1 & Hst & Hld & Htg & Hhv & Hprv & Hsd & Hfr & Hnode & Hblk).
    rewrite (bind_done _ _ _ _ _ Hst).
    assert (off_ptr ptr (e_addr y)) as Hoffy.
    { destruct ptr as [|t]; simpl in *; [done|]. intros E. apply (proj2 Hptr).
      rewrite <- E. set_solver. }
    assert (nxt m1 (e_addr y) = Some (hd NULL (map e_addr b'))) as Hyn1
      by (by rewrite Hfr).
    rewrite (bind_done _ _ _ _ _ (load_next_run _ _ _ _ Hyn1)).
    rewrite (bind_done _ _ _ _ _ Hld).
    assert (∀ z, z ∈ e_addr x :: map e_addr a' ++ map e_addr b' → off_ptr ptr z)
      as Hoff.
    { intros z Hz. destruct ptr as [|t]; simpl in *; [done|]. intros ->.
      apply (proj2 Hptr). set_solver. }
    destruct (IH (x :: a') b' m1 hv1 (NextOf (e_addr y)))
      as (m' & hv' & Hrun & Hc & Htg' & Hhv' & Hprv' & Hsd' & Hfr' & Hblk').
    { apply (chain_agree m); [done|]. intros z Hz. apply Hfr, Hoff. set_solver. }
    { apply (chain_agree m); [done|]. intros z Hz. apply Hfr, Hoff. set_solver. }
    { cbn [map]. revert Hnd. rewrite !NoDup_app, !NoDup_cons. set_solver. }
    { eapply Forall_impl; [done|]. intros e. by apply owns_same_data. }
    { eapply Forall_impl; [done|]. intros e. by apply owns_same_data. }
    { split; [by eauto|]. cbn [map]. intros Hin.
      apply elem_of_app in Hin as [Hin|Hin]; [by apply (Hdisj _ Hin); left|done]. }
    { simpl in *. lia. }
    cbn [map hd] in *.
    exists m', hv'. split_and!; try done.
    + apply chain_cons; [done| |done|done].
      rewrite merge_perm, map_app. cbn [map]. intros Hin.
      apply elem_of_app in Hin as [Hin|Hin]; [by apply (Hdisj _ Hin); left|done].
    + destruct ptr as [|t]; simpl in *.
      * rewrite Hhv' by done. congruence.
      * rewrite Hfr'; [done| |].
        -- intros Hin. apply (proj2 Hptr). set_solver.
        -- intros ->. apply (proj2 Hptr). set_solver.
    + intros Hp. rewrite Hhv' by done. by apply Hhv.
    + intros z. by rewrite Hprv'.
    + by apply (same_data_trans m m1 m').
    + intros z Hz Hoffz. rewrite Hfr'; [by apply Hfr| |].
      * intros Hin. apply Hz. set_solver.
      * simpl. intros ->. apply Hz. set_solver.
    + intros z Hz Hoffz. rewrite Hblk'; [by apply Hblk| |].
      * intros Hin. apply Hz. set_solver.
      * simpl. intros ->. apply Hz. set_solver.
Qed.
End merge_loop.

Section sort.
Implicit Types (m : gmap N block) (o : list bool) (a b es : list elem) (e : elem).
Implicit Types (head h x y t hv prev : N) (l P : list N) (i k fuel : nat).

Lemma map_take_addr k es : map e_addr (take k es) = take k (map e_addr es).
Proof. revert k. induction es as [|e es IH]; intros [|k]; simpl; by try rewrite IH. Qed.

Lemma map_drop_addr k es : map e_addr (drop k es) = drop k (map e_addr es).
Proof. revert k. induction es as [|e es IH]; intros [|k]; simpl; by try rewrite IH. Qed.

Lemma owns_nul_free m e : owns m e → nul_free (e_str e).
Proof.
  intros (_ & _ & _ & Hs). unfold str_at in Hs.
  destruct (chars m (e_val e)); [|done]. by eapply cstr_nul_free.
Qed.

Lemma owns_all_nul_free m es : Forall (owns m) es → all_nul_free es.
Proof. intros H. eapply Forall_impl; [done|]. intros e. apply owns_nul_free. Qed.

Lemma hd_take {A} (l : list A) k d : (0 < k)%nat → hd d (take k l) = hd d l.
Proof. destruct k; [lia|]. by destruct l. Qed.

Lemma q_sort_rec_run o fuel :
  ∀ es m,
    es ≠ [] → chain m (map e_addr es) → plinked m (map e_addr es) →
    Forall (owns m) es → (length es + 1 < fuel)%nat →
    ∃ m' es',
      __q_sort fuel (hd NULL (map e_addr es)) (State m o) =
        Done (hd NULL (map e_addr es')) (State m' o) ∧
      stable_sorted es es' ∧ chain m' (map e_addr es') ∧
      (∀ y, prv m' y = prv m y) ∧ same_data m m' ∧
      (∀ y, y ∉ map e_addr es → nxt m' y = nxt m y) ∧
      (∀ y, y ∉ map e_addr es → m' !! y = m !! y).
Proof.
  induction fuel as [|fuel IH]; intros es m Hne Hc Hp Ho Hf; [lia|].
  cbn [__q_sort]. remember (map e_addr es) as l eqn:El.
  assert (length l = length es) as Hlen by (rewrite El; by rewrite length_map).
  assert (0 < length l)%nat as Hpos by (rewrite Hlen; destruct es; simpl; [done|lia]).
  pose proof Hc as (Hnd & H0 & Hn).
  replace (hd NULL l) with (nth 0 l NULL) by (by destruct l).
  rewrite (bind_done _ _ _ _ _ (load_next_run _ _ _ _ (chain_nxt_nth _ _ _ Hc Hpos))).
  destruct (N.eqb_spec (nth 1 l NULL) NULL) as [E|E].
  { apply nth_sentinel in E; [|done]. exists m, es. rewrite <- El.
    split_and!; try done.
    - by destruct l.
    - apply stable_sorted_small. lia. }
  assert (2 ≤ length l)%nat as Hlen2.
  { destruct (Nat.le_gt_cases 2 (length l)) as [?|Hlt]; [done|].
    exfalso. apply E. apply nth_sentinel; [done|lia]. }
  replace (nth 0 l NULL) with (hd NULL l) by (by destruct l).
  destruct (q_split_run m o l fuel Hc Hp Hlen2) as (Hsp & Hc1 & Hc2 & Hk); [lia|].
  set (k := (length l / 2)%nat) in *.
  set (m1 := set_next (nth (k - 1) l NULL) NULL m) in *.
  rewrite (bind_done _ _ _ _ _ Hsp).
  assert (l = take k l ++ drop k l) as Hsplit by (by rewrite take_drop).
  assert (NoDup (take k l) ∧ NoDup (drop k l) ∧
          ∀ y, y ∈ take k l → y ∉ drop k l) as (Hnd1 & Hnd2 & Hdisj).
  { rewrite Hsplit in Hnd. apply NoDup_app in Hnd. tauto. }
  assert (same_data m m1) as Hsd1 by apply same_data_set_next.
  assert (∀ y, prv m1 y = prv m y) as Hprv1 by (intros y; apply prv_set_next).
  assert (es = take k es ++ drop k es) as Hes by (by rewrite take_drop).
  assert (Forall (owns m) (take k es) ∧ Forall (owns m) (drop k es)) as [Ho1 Ho2].
  { rewrite Hes in Ho. by apply Forall_app in Ho. }
  (* the left half *)
  destruct (IH (take k es) m1)
    as (m2 & esl & Hrun2 & Hst2 & Hch2 & Hprv2 & Hsd2 & Hfr2 & Hblk2).
  { intros E'. apply (f_equal length) in E'. rewrite length_take in E'. simpl in E'. lia. }
  { by rewrite map_take_addr, <- El. }
  { rewrite map_take_addr, <- El. apply (plinked_agree m); [by intros; apply Hprv1|].
    apply (plinked_app_l m _ (drop k l)). by rewrite <- Hsplit. }
  { eapply Forall_impl; [done|]. intros e. by apply owns_same_data. }
  { rewrite length_take. lia. }
  rewrite map_take_addr, <- El in Hrun2, Hfr2, Hblk2.
  rewrite hd_take in Hrun2 by lia.
  rewrite (bind_done _ _ _ _ _ Hrun2).
  pose proof Hst2 as (Hperm2 & _).
  assert (∀ y, y ∈ map e_addr esl ↔ y ∈ take k l) as Hin2.
  { intros y. by rewrite Hperm2, map_take_addr, <- El. }
  (* the right half *)
  destruct (IH (drop k es) m2)
    as (m3 & esr & Hrun3 & Hst3 & Hch3 & Hprv3 & Hsd3 & Hfr3 & Hblk3).
  { intros E'. apply (f_equal length) in E'. rewrite length_drop in E'. simpl in E'. lia. }
  { rewrite map_drop_addr, <- El. apply (chain_agree m1); [done|].
    intros y Hy. apply Hfr2. intros Hy'. by apply (Hdisj y). }
  { rewrite map_drop_addr, <- El. apply (plinked_agree m).
    - intros y _. by rewrite Hprv2, Hprv1.
    - apply (plinked_app_r m (take k l)). by rewrite <- Hsplit. }
  { eapply Forall_impl; [done|]. intros e Hoe.
    by apply (owns_same_data m1), (owns_same_data m). }
  { rewrite length_drop. lia. }
  rewrite map_drop_addr, <- El in Hrun3, Hfr3, Hblk3.
  rewrite hd_drop in Hrun3.
  rewrite (bind_done _ _ _ _ _ Hrun3).
  pose proof Hst3 as (Hperm3 & _).
  assert (∀ y, y ∈ map e_addr esr ↔ y ∈ drop k l) as Hin3.
  { intros y. by rewrite Hperm3, map_drop_addr, <- El. }
  (* the merge *)
  destruct (merge_loop_run o fuel esl esr m3 NULL LocalHead)
    as (m4 & hv4 & Hrun4 & Hch4 & Htg4 & _ & Hprv4 & Hsd4 & Hfr4 & Hblk4).
  { apply (chain_agree m2); [done|]. intros y Hy. apply Hfr3.
    intros Hy'. apply (Hdisj y); [by apply Hin2 | done]. }
  { done. }
  { rewrite Hperm2, Hperm3, map_take_addr, map_drop_addr, <- El.
    by rewrite <- Hsplit. }
  { rewrite Hperm2. eapply Forall_impl; [done|]. intros e Hoe.
    by apply (owns_same_data m2), (owns_same_data m1), (owns_same_data m). }
  { rewrite Hperm3. eapply Forall_impl; [done|]. intros e Hoe.
    by apply (owns_same_data m2), (owns_same_data m1), (owns_same_data m). }
  { done. }
  { rewrite Hperm2, Hperm3, length_take, length_drop. lia. }
  simpl in Htg4. injection Htg4 as ->.
  exists m4, (merge esl esr). split_and!.
  - done.
  - rewrite Hes. apply stable_sorted_merge; [by eapply owns_all_nul_free..|done|done].
  - done.
  - intros y. by rewrite Hprv4, Hprv3, Hprv2, Hprv1.
  - apply (same_data_trans m m1 m4); [done|].
    apply (same_data_trans m1 m2 m4); [done|].
    by apply (same_data_trans m2 m3 m4).
  - intros y Hy.
    assert ((y ∉ take k l) ∧ (y ∉ drop k l)) as [Hy1 Hy2].
    { rewrite Hsplit in Hy. set_solver. }
    rewrite Hfr4; [|by rewrite elem_of_app, Hin2, Hin3; tauto|done].
    rewrite Hfr3 by done. rewrite Hfr2 by done.
    unfold m1. apply nxt_set_next_ne. intros ->. apply Hy.
    apply list_elem_of_In, nth_In. lia.
  - intros y Hy.
    assert ((y ∉ take k l) ∧ (y ∉ drop k l)) as [Hy1 Hy2].
    { rewrite Hsplit in Hy. set_solver. }
    rewrite Hblk4; [|by rewrite elem_of_app, Hin2, Hin3; tauto|done].
    rewrite Hblk3 by done. rewrite Hblk2 by done.
    unfold m1, set_next. apply lookup_alter_ne. intros Eq. apply Hy. rewrite <- Eq.
    apply list_elem_of_In, nth_In. lia.
Qed.

Lemma reattach_loop_run o l :
  ∀ prev m fuel,
    nlinked m (prev :: l ++ [NULL]) → NoDup (prev :: l) → (NULL ∉ l) →
    (length l < fuel)%nat →
    ∃ m', reattach_loop fuel prev (hd NULL l) (State m o) =
            Done (List.last l prev) (State m' o) ∧
          plinked m' (prev :: l) ∧
          (∀ y, nxt m' y = nxt m y) ∧ (∀ y, y ∉ l → prv m' y = prv m y) ∧
          same_data m m' ∧ (∀ y, y ∉ l → m' !! y = m !! y).
Proof.
  induction l as [|x l IH]; intros prev m fuel Hn Hnd H0 Hf;
    (destruct fuel as [|fuel]; [simpl in Hf; lia|]); cbn [reattach_loop hd].
  - exists m. by split_and!.
  - destruct (N.eqb_spec x NULL) as [E|_]; [exfalso; apply H0; set_solver|].
    destruct Hn as [Hpx Hn].
    assert (nxt m x = Some (hd NULL l)) as Hxn.
    { destruct l; simpl in *; tauto. }
    erewrite bind_done; [|apply store_prev_run; by eauto].
    assert (nxt (set_prev x prev m) x = Some (hd NULL l)) as Hxn1
      by (by rewrite nxt_set_prev).
    rewrite (bind_done _ _ _ _ _ (load_next_run _ _ _ _ Hxn1)).
    apply NoDup_cons in Hnd as [Hprev Hnd].
    destruct (IH x (set_prev x prev m) fuel) as (m' & Hrun & Hp & Hfn & Hfp & Hsd & Hblk).
    { apply (nlinked_agree m); [|done]. intros y _. by rewrite nxt_set_prev. }
    { done. }
    { set_solver. }
    { simpl in Hf. lia. }
    exists m'. split_and!.
    + by rewrite last_cons.
    + split; [|done]. apply NoDup_cons in Hnd as [Hx _]. rewrite (Hfp x Hx).
      apply prv_set_prev_eq. by eauto.
    + intros y. by rewrite Hfn, nxt_set_prev.
    + intros y Hy. rewrite Hfp by set_solver. apply prv_set_prev_ne. set_solver.
    + apply (same_data_trans m (set_prev x prev m) m'); [|done].
      apply same_data_set_prev.
    + intros y Hy. rewrite Hblk by set_solver. unfold set_prev.
      apply lookup_alter_ne. set_solver.
Qed.
End sort.

Section sort_top.
Implicit Types (m : gmap N block) (o : list bool) (a b es : list elem) (e : elem).
Implicit Types (head h x y t hv prev : N) (l P : list N) (i k fuel : nat).

Lemma last_in_list {A} (l : list A) (d : A) : l ≠ [] → List.last l d ∈ l.
Proof. apply last_elem_of. Qed.

Lemma q_sort_run_strong m o head es fuel :
  queue m head es → (length es + 1 < fuel)%nat →
  ∃ m' es', q_sort fuel head (State m o) = Done tt (State m' o) ∧
            queue m' head es' ∧ stable_sorted es es' ∧
            ((length es ≤ 1)%nat → m' = m) ∧
            same_outside (head :: map e_addr es) m m'.
Proof.
  intros Hq Hf. unfold q_sort.
  rewrite (bind_done _ _ _ _ _ (at_most_one_run _ _ _ _ Hq)).
  destruct (bool_decide_reflect (length es ≤ 1)%nat) as [Hle|Hgt].
  { exists m, es. split_and!; [done..| |done|done]. by apply stable_sorted_small. }
  pose proof Hq as (Hh & Hv & (Hnd & Hn & Hp) & Hndv & Ho). simpl hd in Hn, Hp.
  remember (map e_addr es) as l eqn:El.
  assert (length l = length es) as Hlen by (by rewrite El, length_map).
  assert (l ≠ []) as Hne by (intros ->; simpl in Hlen; lia).
  apply NoDup_cons in Hnd as [Hhl Hndl].
  assert (NULL ∉ l) as H0.
  { rewrite El. intros (e & E & He)%list_elem_of_fmap.
    rewrite Forall_forall in Ho. by destruct (Ho e He) as (Ha & _). }
  remember (List.last l head) as lst eqn:Elst.
  assert (lst = List.last l NULL) as Elst' by (rewrite Elst; by apply last_default).
  assert (lst ∈ l) as Hlst by (rewrite Elst; by apply last_in_list).
  assert (lst ≠ head) as Hlh by (by intros ->).
  pose proof (queue_last _ _ _ Hq) as Hprev. rewrite <- El, <- Elst in Hprev.
  pose proof (queue_first _ _ _ Hq) as Hfirst. rewrite <- El in Hfirst.
  assert (hd head l = hd NULL l) as Ehd by (by destruct l).
  rewrite Ehd in Hfirst.
  assert (∀ y, y ∈ l → is_Some (nxt m y)) as Hnodes.
  { intros y Hy. apply (nlinked_node m ((head :: l) ++ [head])); [done|].
    rewrite removelast_snoc. set_solver. }
  (* detaching the ring *)
  rewrite (bind_done _ _ _ _ _ (load_prev_run _ _ _ _ Hprev)).
  erewrite bind_done; [|apply store_next_run; by apply Hnodes].
  remember (set_next lst NULL m) as m1 eqn:Em1.
  assert (same_data m m1) as Hsd1 by (rewrite Em1; apply same_data_set_next).
  assert (∀ y, prv m1 y = prv m y) as Hprv1 by (intros y; rewrite Em1; apply prv_set_next).
  assert (∀ y, y ≠ lst → nxt m1 y = nxt m y) as Hnxt1.
  { intros y Hy. rewrite Em1. by apply nxt_set_next_ne. }
  assert (nlinked m l) as Hnl.
  { apply (nlinked_app_l m l [head]). by apply (nlinked_tl m ((head :: l) ++ [head])). }
  assert (plinked m l) as Hpl.
  { apply (plinked_tl m (head :: l)). by apply (plinked_app_l m (head :: l) [head]). }
  assert (chain m1 l) as Hc1.
  { split_and!; [done..|]. apply nlinked_concat; [done..|]. split_and!; [| |done].
    - apply (nlinked_agree m); [|done]. intros y Hy. apply Hnxt1.
      intros ->. revert Hy. rewrite Elst'. by apply last_not_in_removelast.
    - rewrite <- Elst'. simpl. rewrite Em1. apply nxt_set_next_eq. by apply Hnodes. }
  assert (nxt m1 head = Some (hd NULL l)) as Hfirst1 by (rewrite Hnxt1; done).
  rewrite (bind_done _ _ _ _ _ (load_next_run _ _ _ _ Hfirst1)).
  (* sorting the chain *)
  destruct (q_sort_rec_run o fuel es m1)
    as (m2 & es' & Hrun2 & Hst & Hc2 & Hprv2 & Hsd2 & Hfr2 & Hblk2).
  { intros ->. simpl in Hgt. lia. }
  { by rewrite <- El. }
  { rewrite <- El. apply (plinked_agree m); [by intros; apply Hprv1 | done]. }
  { eapply Forall_impl; [done|]. intros e. by apply owns_same_data. }
  { done. }
  rewrite <- El in Hrun2, Hfr2, Hblk2. rewrite (bind_done _ _ _ _ _ Hrun2).
  pose proof Hst as (Hperm & _).
  remember (map e_addr es') as l' eqn:El'.
  assert (l' ≡ₚ l) as Hpl' by (by rewrite El', El, Hperm).
  assert (l' ≠ []) as Hne'.
  { intros E. rewrite E in Hpl'. by apply Permutation_nil in Hpl'. }
  assert (head ∉ l') as Hhl' by (by rewrite Hpl').
  assert (NoDup l') as Hndl' by (by rewrite Hpl').
  assert (NULL ∉ l') as H0' by (by rewrite Hpl').
  (* reattaching the chain *)
  assert (is_Some (nxt m2 head)) as Hhn2 by (rewrite Hfr2 by done; eauto).
  rewrite (bind_done _ _ _ _ _ (store_next_run _ _ _ _ Hhn2)).
  remember (set_next head (hd NULL l') m2) as m3 eqn:Em3.
  assert (nxt m3 head = Some (hd NULL l')) as Hfirst3.
  { rewrite Em3. by apply nxt_set_next_eq. }
  rewrite (bind_done _ _ _ _ _ (load_next_run _ _ _ _ Hfirst3)).
  destruct (reattach_loop_run o l' head m3 fuel)
    as (m4 & Hrun4 & Hp4 & Hnxt4 & Hprv4 & Hsd4 & Hblk4).
  { change (head :: l' ++ [NULL]) with ([head] ++ (l' ++ [NULL])).
    apply nlinked_concat; [done|by destruct l'|]. split_and!; [done| |].
    - simpl. by rewrite hd_snoc.
    - destruct Hc2 as (_ & _ & Hn2). apply (nlinked_agree m2); [|done].
      rewrite removelast_snoc. intros y Hy. rewrite Em3. apply nxt_set_next_ne.
      by intros ->. }
  { by apply NoDup_cons. }
  { done. }
  { rewrite Hpl', Hlen. lia. }
  rewrite (bind_done _ _ _ _ _ Hrun4).
  remember (List.last l' head) as lst' eqn:Elst2.
  assert (lst' ∈ l') as Hlst' by (rewrite Elst2; by apply last_in_list).
  assert (lst' ≠ head) as Hlh' by (by intros ->).
  assert (lst' = List.last (head :: l') NULL) as Elst3 by (by rewrite last_cons).
  assert (nlinked m4 (head :: l')) as Hn4.
  { apply (nlinked_agree m3); [by intros; apply Hnxt4|].
    change (head :: l') with ([head] ++ l').
    apply nlinked_concat; [done..|]. split_and!; [done|done|].
    destruct Hc2 as (_ & _ & Hn2). apply (nlinked_app_l _ l' [NULL]).
    apply (nlinked_agree m2); [|done].
    rewrite removelast_snoc. intros y Hy. rewrite Em3. apply nxt_set_next_ne.
    by intros ->. }
  assert (is_Some (nxt m4 lst')) as Hnode4.
  { destruct Hc2 as (_ & _ & Hn2). rewrite Hnxt4, Em3, nxt_set_next_some.
    apply (nlinked_node m2 (l' ++ [NULL])); [done|]. by rewrite removelast_snoc. }
  assert (is_Some (nxt m4 head)) as Hhn4 by (rewrite Hnxt4; eauto).
  rewrite (bind_done _ _ _ _ _ (store_next_run _ _ _ _ Hnode4)).
  erewrite store_prev_run by (by rewrite nxt_set_next_some).
  eexists _, es'. split_and!; [done| |done|lia|].
  apply (queue_build m); try done.
  - intros y. strip_links. destruct (Hsd4 y) as [-> ->]. rewrite Em3. strip_links.
    destruct (Hsd2 y) as [-> ->]. apply Hsd1.
  - by rewrite Hperm.
  - by rewrite Hperm.
  - rewrite <- El'. split_and!.
    + by apply NoDup_cons.
    + simpl hd. apply nlinked_concat; [done..|]. split_and!; [| |done].
      * apply (nlinked_agree m4); [|done]. intros y Hy.
        rewrite nxt_set_prev. apply nxt_set_next_ne. intros ->.
        revert Hy. rewrite Elst3. apply last_not_in_removelast; [|done].
        by apply NoDup_cons.
      * rewrite <- Elst3. simpl. rewrite nxt_set_prev. by apply nxt_set_next_eq.
    + simpl hd. apply plinked_concat; [done..|]. split_and!; [| |done].
      * apply (plinked_agree m4); [|done]. simpl. intros y Hy.
        rewrite prv_set_prev_ne, prv_set_next; [done|]. by intros ->.
      * rewrite <- Elst3. simpl. apply prv_set_prev_eq. by rewrite nxt_set_next_some.
  - apply same_outside_set_prev; [set_solver|].
    apply same_outside_set_next; [rewrite <- Hpl'; set_solver|].
    intros x Hx. rewrite Hblk4 by (rewrite Hpl'; set_solver).
    rewrite Em3. unfold set_next at 1. rewrite lookup_alter_ne by set_solver.
    rewrite Hblk2 by set_solver.
    rewrite Em1. unfold set_next. apply lookup_alter_ne. set_solver.
Qed.

Lemma q_sort_run m o head es fuel :
  queue m head es → (length es + 1 < fuel)%nat →
  ∃ m' es', q_sort fuel head (State m o) = Done tt (State m' o) ∧
            queue m' head es' ∧ stable_sorted es es' ∧
            ((length es ≤ 1)%nat → m' = m).
Proof.
  intros Hq Hf.
  destruct (q_sort_run_strong m o head es fuel Hq Hf)
    as (m' & es' & Hrun & Hq' & Hst & Hsmall & _).
  by exists m', es'.
Qed.
End sort_top.

(** ** The invariant of the spec, sequences of calls *)

Section invariant.
Implicit Types (m : gmap N block) (o : list bool) (es : list elem) (e : elem).
Implicit Types (head h x y p node : N) (l P cyc : list N) (i k fuel : nat).

Lemma follow_nth m P k d :
  nlinked m P → (k < length P)%nat → follow m k (nth 0 P d) = Some (nth k P d).
Proof.
  revert P. induction k as [|k IH]; intros P Hn Hk; [done|].
  destruct P as [|a [|b t]]; [simpl in Hk; lia..|].
  destruct Hn as [Hab Hn]. cbn [follow nth]. rewrite Hab. simpl.
  apply (IH (b :: t)); [done | simpl in *; lia].
Qed.

Lemma ring_nxt_in m h l x y :
  ring m (h :: l) → x ∈ h :: l → nxt m x = Some y → y ∈ h :: l.
Proof.
  intros Hr [->|Hx]%elem_of_cons Hy.
  - apply ring_at_head in Hr as [Hn _]. rewrite Hn in Hy. injection Hy as <-.
    destruct l; simpl; set_solver.
  - apply list_elem_of_split in Hx as (l1 & l2 & ->).
    apply ring_at in Hr as (Hn & _). rewrite Hn in Hy. injection Hy as <-.
    destruct l2; simpl; set_solver.
Qed.

Lemma follow_in_ring m h l k :
  ∀ x node, ring m (h :: l) → x ∈ h :: l → follow m k x = Some node → node ∈ h :: l.
Proof.
  induction k as [|k IH]; intros x node Hr Hx; simpl.
  - by intros [= <-].
  - destruct (nxt m x) as [y|] eqn:Hy; [|done]. simpl.
    apply (IH y node Hr). by apply (ring_nxt_in m h l x).
Qed.

Lemma ring_well_linked m h l x :
  ring m (h :: l) → (NULL ∉ h :: l) → x ∈ h :: l → well_linked m x.
Proof.
  intros Hr H0 Hx.
  assert (∀ y, y ∈ h :: l → y ≠ NULL) as Hnn by (intros y Hy ->; done).
  apply elem_of_cons in Hx as [->|Hx].
  - pose proof (ring_at_head _ _ _ Hr) as [Hn Hp].
    exists (hd h l), (List.last l h). split_and!; try done.
    + apply Hnn. destruct l; simpl; set_solver.
    + apply Hnn. rewrite <- (last_cons l h NULL). by apply last_elem_of.
    + destruct l as [|a l]; [done|]. simpl.
      by apply (ring_at m h [] a l) in Hr as (_ & ? & _).
    + destruct (decide (l = [])) as [->|Hne]; [done|].
      destruct (exists_last Hne) as (l1 & a & ->).
      rewrite last_snoc.
      by apply (ring_at m h l1 a []) in Hr as (? & _).
  - apply list_elem_of_split in Hx as (l1 & l2 & ->).
    pose proof (ring_at _ _ _ _ _ Hr) as (Hn & Hp & Hpn & Hnp).
    exists (hd h l2), (List.last l1 h). split_and!; try done.
    + apply Hnn. destruct l2; simpl; set_solver.
    + apply Hnn. rewrite <- (last_cons l1 h NULL).
      assert (List.last (h :: l1) NULL ∈ h :: l1) by (by apply last_elem_of).
      set_solver.
Qed.

Lemma queue_nonnull m head es : queue m head es → NULL ∉ head :: map e_addr es.
Proof.
  intros (Hh & _ & _ & _ & Ho) [E|Hin]%elem_of_cons; [done|].
  apply list_elem_of_fmap in Hin as (e & E & He).
  rewrite Forall_forall in Ho. by destruct (Ho e He) as (? & _).
Qed.

(** A well-formed queue of [n] elements is a closed ring of [n + 1]
    nodes. *)
Lemma queue_closed_ring m head es : queue m head es → closed_ring m head (length es).
Proof.
  intros Hq. pose proof (queue_ring _ _ _ Hq) as Hr.
  pose proof Hr as (Hnd & Hn & _). simpl hd in Hn.
  set (l := map e_addr es) in *.
  assert (length l = length es) as Hlen by (subst l; by rewrite length_map).
  split_and!.
  - rewrite <- Hlen.
    pose proof (follow_nth m ((head :: l) ++ [head]) (S (length l)) head Hn) as Hf.
    simpl nth at 1 in Hf. rewrite Hf by (rewrite length_app; simpl; lia).
    f_equal. change (S (length l)) with (length (head :: l)).
    by rewrite nth_middle.
  - intros k Hk.
    pose proof (follow_nth m ((head :: l) ++ [head]) k head Hn) as Hf.
    simpl nth at 1 in Hf. rewrite Hf by (rewrite length_app; simpl; lia).
    intros [= E]. destruct k as [|k]; [lia|].
    change ((head :: l) ++ [head]) with (head :: (l ++ [head])) in E.
    simpl in E. rewrite app_nth1 in E by lia.
    apply NoDup_cons in Hnd as [Hh _]. apply Hh. rewrite <- E.
    apply list_elem_of_In, nth_In. lia.
  - intros k node Hf.
    apply (ring_well_linked m head l); [done|by eapply queue_nonnull|].
    apply (follow_in_ring m head l k head node); [done|set_solver|done].
Qed.

(** [q_size] always comes back, whatever the counter does. *)
Lemma q_size_loop_total m o h l fuel i size :
  ring m (h :: l) → (i ≤ length l)%nat → (length l - i < fuel)%nat →
  ∃ z, q_size_loop fuel h (nth i l h) size (State m o) = Done z (State m o).
Proof.
  intros Hr. revert i size.
  induction fuel as [|fuel IH]; intros i size Hi Hf; [lia|].
  simpl. destruct (N.eqb_spec (nth i l h) h) as [E|E].
  - by eexists.
  - assert (i < length l)%nat as Hlt.
    { destruct (Nat.le_gt_cases (length l) i) as [Hge|?]; [|done].
      exfalso. apply E. apply nth_sentinel; [by eapply ring_sentinel_fresh | done]. }
    rewrite (bind_done _ _ _ _ _ (load_next_run _ _ _ _ (ring_nxt_nth _ _ _ _ Hr Hlt))).
    apply IH; lia.
Qed.

Lemma q_size_total m o head es fuel :
  queue m head es → (length es < fuel)%nat →
  ∃ z, q_size fuel head (State m o) = Done z (State m o).
Proof.
  intros Hq Hf. pose proof Hq as (Hh & _). pose proof (queue_ring _ _ _ Hq) as Hr.
  unfold q_size. destruct (N.eqb_spec head NULL) as [|_]; [done|].
  rewrite (bind_done _ _ _ _ _ (load_next_run _ _ _ _ (ring_nxt_head _ _ _ Hr))).
  apply (q_size_loop_total m o head (map e_addr es) fuel 0 0 Hr); rewrite ?length_map; lia.
Qed.

(** An insertion comes back whatever the allocator does, and leaves a
    well-formed queue and the strings of the caller. *)
Lemma string_ok_frame m m' :
  (∀ x, is_Some (m !! x) → str_at m' x = str_at m x) →
  ∀ s, string_ok m s → string_ok m' s.
Proof.
  intros Hfr s [->|(str & Hstr & Hlen)]; [by left|]. right. exists str. split; [|done].
  rewrite Hfr; [done|]. by eapply str_at_allocated.
Qed.

Lemma q_insert_head_total m o head es s :
  queue m head es → string_ok m s →
  ∃ b m' o' es', q_insert_head head s (State m o) = Done b (State m' o') ∧
                 queue m' head es' ∧
                 (∀ s', string_ok m s' → string_ok m' s').
Proof.
  intros Hq Hs. pose proof Hq as (Hh & _).
  unfold q_insert_head. destruct (N.eqb_spec head NULL) as [|_]; [done|].
  destruct (decide (s = NULL)) as [->|Hs0].
  { exists false, m, o, es. by split_and!. }
  destruct Hs as [|(str & Hstr & Hlen)]; [done|].
  destruct (pop_outcome o).1 eqn:Ho1.
  - destruct (pop_outcome (pop_outcome o).2).1 eqn:Ho2.
    + destruct (q_insert_head_ok m o head es s str Hq Hs0 Hstr Hlen Ho1 Ho2)
        as (m' & p & v & Hrun & Hq' & Hp & Hv & Hfr & _).
      unfold q_insert_head in Hrun. destruct (N.eqb_spec head NULL) as [|_]; [done|].
      eexists _, _, _, _. split_and!; [exact Hrun|exact Hq'|].
      apply string_ok_frame. intros x [b Hx]. apply Hfr; intros ->; congruence.
    + exists false, m, (pop_outcome (pop_outcome o).2).2, es. split_and!; [|done..].
      erewrite bind_done; [|apply (q_insert_run_fail2 m o NULL s str); [done..|lia|done|done]].
      done.
  - exists false, m, (pop_outcome o).2, es. split_and!; [|done..].
    by rewrite (bind_done _ _ _ _ _ (q_insert_run_fail1 m o NULL s Hs0 Ho1)).
Qed.

Lemma q_insert_tail_total m o head es s :
  queue m head es → string_ok m s →
  ∃ b m' o' es', q_insert_tail head s (State m o) = Done b (State m' o') ∧
                 queue m' head es' ∧
                 (∀ s', string_ok m s' → string_ok m' s').
Proof.
  intros Hq Hs. pose proof Hq as (Hh & _).
  unfold q_insert_tail. destruct (N.eqb_spec head NULL) as [|_]; [done|].
  destruct (decide (s = NULL)) as [->|Hs0].
  { exists false, m, o, es. by split_and!. }
  destruct Hs as [|(str & Hstr & Hlen)]; [done|].
  destruct (pop_outcome o).1 eqn:Ho1.
  - destruct (pop_outcome (pop_outcome o).2).1 eqn:Ho2.
    + destruct (q_insert_tail_ok m o head es s str Hq Hs0 Hstr Hlen Ho1 Ho2)
        as (m' & p & v & Hrun & Hq' & Hp & Hv & Hfr & _).
      unfold q_insert_tail in Hrun. destruct (N.eqb_spec head NULL) as [|_]; [done|].
      eexists _, _, _, _. split_and!; [exact Hrun|exact Hq'|].
      apply string_ok_frame. intros x [b Hx]. apply Hfr; intros ->; congruence.
    + exists false, m, (pop_outcome (pop_outcome o).2).2, es. split_and!; [|done..].
      erewrite bind_done; [|apply (q_insert_run_fail2 m o NULL s str); [done..|lia|done|done]].
      done.
  - exists false, m, (pop_outcome o).2, es. split_and!; [|done..].
    by rewrite (bind_done _ _ _ _ _ (q_insert_run_fail1 m o NULL s Hs0 Ho1)).
Qed.

(** A removal without buffer: the queue stays well formed and the
    strings of the caller stay. *)
Lemma buffer_ok_none m es : buffer_ok m NULL 0 es.
Proof. split; [done | by left]. Qed.

Lemma unlinked_str_at m p n x : str_at (unlinked m p n) x = str_at m x.
Proof. unfold unlinked. by strip_links. Qed.

Lemma q_remove_head_total m o head es :
  queue m head es →
  ∃ r m' es', q_remove_head head NULL 0 (State m o) = Done r (State m' o) ∧
              queue m' head es' ∧ (∀ s', string_ok m s' → string_ok m' s').
Proof.
  intros Hq. pose proof Hq as (Hh & _). destruct es as [|e es].
  - exists NULL, m, []. split_and!; [|done..]. unfold q_remove_head.
    destruct (N.eqb_spec head NULL) as [|_]; [done|].
    by rewrite (bind_done _ _ _ _ _ (list_empty_queue _ _ _ _ Hq)).
  - destruct (queue_unlink m o head [] e es Hq) as (Hdel & Hq1 & Ho1 & _ & _ & _).
    simpl in Hdel, Hq1, Ho1.
    exists (e_addr e), (unlinked m head (hd head (map e_addr es))), es.
    split_and!; [|done|].
    + unfold q_remove_head. destruct (N.eqb_spec head NULL) as [|_]; [done|].
      rewrite (bind_done _ _ _ _ _ (list_empty_queue _ _ _ _ Hq)).
      rewrite bool_decide_eq_false_2 by done.
      rewrite (bind_done _ _ _ _ _ (load_next_run _ _ _ _ (queue_first _ _ _ Hq))).
      simpl hd. rewrite (bind_done _ _ _ _ _ Hdel).
      destruct Ho1 as (_ & _ & Hval & _).
      by rewrite (bind_done _ _ _ _ _ (load_value_run _ _ _ _ Hval)).
    + apply string_ok_frame. intros x _. apply unlinked_str_at.
Qed.

Lemma q_remove_tail_total m o head es :
  queue m head es →
  ∃ r m' es', q_remove_tail head NULL 0 (State m o) = Done r (State m' o) ∧
              queue m' head es' ∧ (∀ s', string_ok m s' → string_ok m' s').
Proof.
  intros Hq. pose proof Hq as (Hh & _).
  destruct (decide (es = [])) as [->|Hne].
  - exists NULL, m, []. split_and!; [|done..]. unfold q_remove_tail.
    destruct (N.eqb_spec head NULL) as [|_]; [done|].
    by rewrite (bind_done _ _ _ _ _ (list_empty_queue _ _ _ _ Hq)).
  - destruct (exists_last Hne) as (es1 & e & ->).
    destruct (queue_unlink m o head es1 e [] Hq) as (Hdel & Hq1 & Ho1 & _ & _ & _).
    simpl in Hdel, Hq1, Ho1. rewrite app_nil_r in Hq1.
    exists (e_addr e), (unlinked m (List.last (map e_addr es1) head) head), es1.
    split_and!; [|done|].
    + unfold q_remove_tail. destruct (N.eqb_spec head NULL) as [|_]; [done|].
      rewrite (bind_done _ _ _ _ _ (list_empty_queue _ _ _ _ Hq)).
      rewrite bool_decide_eq_false_2 by (by destruct es1).
      rewrite (bind_done _ _ _ _ _ (load_prev_run _ _ _ _ (queue_last _ _ _ Hq))).
      rewrite map_app. change (map e_addr [e]) with [e_addr e]. rewrite last_snoc.
      rewrite (bind_done _ _ _ _ _ Hdel).
      destruct Ho1 as (_ & _ & Hval & _).
      by rewrite (bind_done _ _ _ _ _ (load_value_run _ _ _ _ Hval)).
    + apply string_ok_frame. intros x _. apply unlinked_str_at.
Qed.

(** Every sequence of insertions and removals runs to the end and
    leaves a well-formed queue. *)
Lemma run_updates_total head us :
  ∀ m o es,
    queue m head es → Forall (update_ok m) us →
    ∃ m' o' es', run_updates head us (State m o) = Done tt (State m' o') ∧
                 queue m' head es'.
Proof.
  induction us as [|u us IH]; intros m o es Hq Hok.
  { exists m, o, es. by split. }
  apply Forall_cons_1 in Hok as [Hu Hus].
  assert (∃ m1 o1 es1, run_update head u (State m o) = Done tt (State m1 o1) ∧
                       queue m1 head es1 ∧
                       (∀ s', string_ok m s' → string_ok m1 s'))
    as (m1 & o1 & es1 & Hrun & Hq1 & Hfr).
  { destruct u as [s|s| |]; simpl in Hu |- *.
    - destruct (q_insert_head_total m o head es s Hq Hu) as (b & m1 & o1 & es1 & Hr & ? & ?).
      exists m1, o1, es1. by rewrite (bind_done _ _ _ _ _ Hr).
    - destruct (q_insert_tail_total m o head es s Hq Hu) as (b & m1 & o1 & es1 & Hr & ? & ?).
      exists m1, o1, es1. by rewrite (bind_done _ _ _ _ _ Hr).
    - destruct (q_remove_head_total m o head es Hq) as (r & m1 & es1 & Hr & ? & ?).
      exists m1, o, es1. by rewrite (bind_done _ _ _ _ _ Hr).
    - destruct (q_remove_tail_total m o head es Hq) as (r & m1 & es1 & Hr & ? & ?).
      exists m1, o, es1. by rewrite (bind_done _ _ _ _ _ Hr). }
  destruct (IH m1 o1 es1 Hq1) as (m' & o' & es' & Hrun' & Hq').
  { eapply Forall_impl; [done|]. intros [s|s| |]; simpl; by eauto. }
  exists m', o', es'. split; [|done].
  cbn [run_updates]. by rewrite (bind_done _ _ _ _ _ Hrun).
Qed.
(** On an empty queue the removals and [q_delete_mid] give up at the
    [list_empty] test. *)
Lemma q_remove_head_empty m o head sp bufsize :
  queue m head [] → q_remove_head head sp bufsize (State m o) = Done NULL (State m o).
Proof.
  intros Hq. pose proof Hq as (Hh & _). unfold q_remove_head.
  destruct (N.eqb_spec head NULL) as [|_]; [done|].
  by rewrite (bind_done _ _ _ _ _ (list_empty_queue _ _ _ _ Hq)).
Qed.

Lemma q_remove_tail_empty m o head sp bufsize :
  queue m head [] → q_remove_tail head sp bufsize (State m o) = Done NULL (State m o).
Proof.
  intros Hq. pose proof Hq as (Hh & _). unfold q_remove_tail.
  destruct (N.eqb_spec head NULL) as [|_]; [done|].
  by rewrite (bind_done _ _ _ _ _ (list_empty_queue _ _ _ _ Hq)).
Qed.

Lemma q_delete_mid_empty m o head fuel :
  queue m head [] → q_delete_mid fuel head (State m o) = Done false (State m o).
Proof.
  intros Hq. pose proof Hq as (Hh & _). unfold q_delete_mid.
  destruct (N.eqb_spec head NULL) as [|_]; [done|].
  by rewrite (bind_done _ _ _ _ _ (list_empty_queue _ _ _ _ Hq)).
Qed.
End invariant.

(** ** Pairs *)

Section pairs.
Implicit Types (es : list elem) (e : elem).

Lemma pairs_ind (P : list elem → Prop) :
  P [] → (∀ e, P [e]) → (∀ e1 e2 es, P es → P (e1 :: e2 :: es)) → ∀ es, P es.
Proof.
  intros H0 H1 H2 es.
  assert (P es ∧ ∀ e, P (e :: es)) as [? _]; [|done].
  induction es as [|e es [IH1 IH2]]; [by split|].
  split; [by apply IH2|]. intros e'. by apply H2.
Qed.

Lemma swap_pairs_length es : length (swap_pairs es) = length es.
Proof.
  induction es as [| |e1 e2 es IH] using pairs_ind; [done..|]. simpl. by rewrite IH.
Qed.

Lemma swap_pairs_even_involutive es :
  Nat.Even (length es) → swap_pairs (swap_pairs es) = es.
Proof.
  induction es as [|e|e1 e2 es IH] using pairs_ind; intros Hev; [done| |].
  - destruct Hev as [k Hk]. simpl in Hk. lia.
  - simpl. rewrite IH; [done|]. destruct Hev as [k Hk]. simpl in Hk.
    exists (k - 1)%nat. lia.
Qed.

(** The elements at [2i] and [2i + 1] are exchanged. *)
Lemma swap_pairs_lookup es i :
  (2 * i + 1 < length es)%nat →
  swap_pairs es !! (2 * i)%nat = es !! (2 * i + 1)%nat ∧
  swap_pairs es !! (2 * i + 1)%nat = es !! (2 * i)%nat.
Proof.
  revert i. induction es as [|e|e1 e2 es IH] using pairs_ind; intros i Hi;
    [simpl in Hi; lia..|].
  destruct i as [|i]; [done|].
  replace (2 * S i)%nat with (S (S (2 * i))) by lia.
  replace (S (S (2 * i)) + 1)%nat with (S (S (2 * i + 1))) by lia.
  cbn [swap_pairs lookup list_lookup]. apply IH. simpl in Hi. lia.
Qed.

(** The last element of a list of odd length stays. *)
Lemma swap_pairs_odd_last es :
  Nat.Odd (length es) →
  swap_pairs es !! (length es - 1)%nat = es !! (length es - 1)%nat.
Proof.
  induction es as [|e|e1 e2 es IH] using pairs_ind; intros Hodd; [|done|].
  - destruct Hodd as [k Hk]. simpl in Hk. lia.
  - assert (Nat.Odd (length es)) as Hodd'.
    { destruct Hodd as [k Hk]. simpl in Hk. exists (k - 1)%nat. lia. }
    assert (0 < length es)%nat as Hpos by (destruct Hodd' as [k Hk]; lia).
    replace (length (e1 :: e2 :: es) - 1)%nat with (S (S (length es - 1)))
      by (simpl; lia).
    cbn [swap_pairs lookup list_lookup]. by apply IH.
Qed.
End pairs.

(** ** Freeing the queue *)

Section free.
Implicit Types (m : gmap N block) (o : list bool) (es rest : list elem) (e : elem).
Implicit Types (head x v : N).

Lemma lookup_release_all es m x :
  release_all es m !! x =
  if bool_decide (x ∈ map e_addr es ++ map e_val es) then None else m !! x.
Proof.
  revert m. induction es as [|e rest IH]; intros m; cbn [release_all map app].
  - rewrite bool_decide_eq_false_2; [done|]. by intros ?%elem_of_nil.
  - rewrite IH.
    destruct (decide (x = e_addr e)) as [->|Ha].
    { rewrite lookup_delete_eq. rewrite (bool_decide_eq_true_2 (_ ∈ _ :: _)) by set_solver.
      by case_bool_decide. }
    destruct (decide (x = e_val e)) as [->|Hv].
    { rewrite lookup_delete_ne, lookup_delete_eq by done.
      rewrite (bool_decide_eq_true_2 (_ ∈ _ :: _)) by set_solver.
      by case_bool_decide. }
    rewrite !lookup_delete_ne by done.
    apply (f_equal (λ b : bool, if b then None else m !! x)).
    apply bool_decide_ext. set_solver.
Qed.

(** The loop of [q_free] on what is left of the queue: the elements
    before [es] are freed already, and their links dangle. *)
Lemma q_free_loop_run o head :
  ∀ es m fuel safe,
    NoDup (head :: map e_addr es) → NoDup (map e_val es) →
    nlinked m (map e_addr es ++ [head]) → is_Some (nxt m head) →
    Forall (owns m) es →
    (es ≠ [] → safe = hd head (map e_addr (tl es))) →
    (length es < fuel)%nat →
    q_free_loop fuel head (hd head (map e_addr es)) safe (State m o) =
    Done tt (State (release_all es m) o).
Proof.
  induction es as [|e rest IH]; intros m fuel safe Hnd Hndv Hn Hh Ho Hsafe Hf;
    (destruct fuel as [|fuel]; [simpl in Hf; lia|]); cbn [q_free_loop hd map].
  { by rewrite N.eqb_refl. }
  simpl in Hf. specialize (Hsafe ltac:(done)). simpl in Hsafe. subst safe.
  cbn [map] in Hnd, Hndv, Hn.
  apply NoDup_cons in Hnd as [Hhd Hnd]. apply NoDup_cons in Hnd as [Hea Hnd].
  apply NoDup_cons in Hndv as [Hev Hndv].
  apply Forall_cons_1 in Ho as [(Ha0 & Hv0 & Hval & Hstr) Ho].
  destruct (N.eqb_spec (e_addr e) head) as [E|_]; [exfalso; apply Hhd; set_solver|].
  assert (is_Some (nxt m (e_addr e))) as Hnode by (by eapply val_node).
  assert (is_Some (chars m (e_val e))) as Hchars.
  { unfold str_at in Hstr. destruct (chars m (e_val e)); [by eauto|done]. }
  assert (e_addr e ≠ e_val e) as Hav by (by apply (node_ne_chars m)).
  assert (head ≠ e_val e) as Hhv by (by apply (node_ne_chars m)).
  assert (head ≠ e_addr e) as Hha by (intros E; apply Hhd; set_solver).
  rewrite (bind_done _ _ _ _ _ (load_value_run _ _ _ _ Hval)).
  erewrite bind_done; [|apply free_run; [done | by apply chars_allocated]].
  erewrite bind_done;
    [|apply free_run; [done | rewrite lookup_delete_ne by done; by apply node_allocated]].
  set (m2 := delete (e_addr e) (delete (e_val e) m)).
  assert (∀ y, y ≠ e_addr e → y ≠ e_val e →
               nxt m2 y = nxt m y ∧ val m2 y = val m y ∧ str_at m2 y = str_at m y) as Hm2.
  { intros y H1 H2. unfold m2.
    by rewrite !nxt_delete_ne, !val_delete_ne, !str_at_delete_ne. }
  assert (nlinked m (map e_addr rest ++ [head])) as Hn'.
  { by apply (nlinked_tl m (e_addr e :: map e_addr rest ++ [head])). }
  assert (∀ e', e' ∈ rest → e_addr e' ≠ e_addr e ∧ e_addr e' ≠ e_val e ∧
                            e_val e' ≠ e_addr e ∧ e_val e' ≠ e_val e) as Hdis.
  { intros e' He'. pose proof (proj1 (Forall_forall _ _) Ho e' He') as (_ & _ & Hval' & Hstr').
    assert (is_Some (chars m (e_val e'))) as Hc'.
    { unfold str_at in Hstr'. destruct (chars m (e_val e')); [by eauto|done]. }
    split_and!.
    - intros E. apply Hea. rewrite <- E. by apply list_elem_of_fmap_2.
    - apply (node_ne_chars m); [by eapply val_node | done].
    - intros E. symmetry in E. revert E. by apply (node_ne_chars m).
    - intros E. apply Hev. rewrite <- E. by apply list_elem_of_fmap_2. }
  assert (∃ safe', nxt m2 (hd head (map e_addr rest)) = Some safe' ∧
                   (rest ≠ [] → safe' = hd head (map e_addr (tl rest))))
    as (safe' & Hsafe' & Hnext).
  { destruct rest as [|e' rest'].
    - destruct Hh as [n Hn0]. exists n. split; [|done]. simpl.
      by rewrite (proj1 (Hm2 head Hha Hhv)).
    - exists (hd head (map e_addr rest')). split; [|done]. simpl.
      destruct (Hdis e' ltac:(set_solver)) as (H1 & H2 & _).
      rewrite (proj1 (Hm2 _ H1 H2)).
      destruct (nlinked_at m [e_addr e] (e_addr e') (map e_addr rest' ++ [head]))
        as (_ & Hn1); [done | by destruct (map e_addr rest') | done |].
      by rewrite hd_snoc in Hn1. }
  rewrite (bind_done _ _ _ _ _ (load_next_run _ _ _ _ Hsafe')).
  apply IH; try done.
  - apply NoDup_cons. split; [|done]. intros Hin. apply Hhd. apply elem_of_cons. by right.
  - apply (nlinked_agree m); [|done]. rewrite removelast_snoc.
    intros y (e' & -> & He')%list_elem_of_fmap.
    destruct (Hdis e' He') as (H1 & H2 & _). by apply Hm2.
  - by rewrite (proj1 (Hm2 head Hha Hhv)).
  - apply Forall_forall. intros e' He'.
    pose proof (proj1 (Forall_forall _ _) Ho e' He') as (H1 & H2 & H3 & H4).
    destruct (Hdis e' He') as (D1 & D2 & D3 & D4).
    split_and!; [done..| |].
    + by rewrite (proj1 (proj2 (Hm2 _ D1 D2))).
    + by rewrite (proj2 (proj2 (Hm2 _ D3 D4))).
  - lia.
Qed.

(** [q_free] frees the sentinel, every element and every string, and
    nothing else. *)
Lemma q_free_run m o head es fuel :
  queue m head es → (length es < fuel)%nat →
  q_free fuel head (State m o) = Done tt (State (delete head (release_all es m)) o).
Proof.
  intros Hq Hf. pose proof Hq as (Hh & Hvh & (Hnd & Hn & _) & Hndv & Ho).
  unfold q_free. destruct (N.eqb_spec head NULL) as [|_]; [done|].
  rewrite (bind_done _ _ _ _ _ (load_next_run _ _ _ _ (queue_first _ _ _ Hq))).
  destruct (queue_next_next m head [] es Hq) as (n' & Hn' & Hn'').
  rewrite (bind_done _ _ _ _ _ (load_next_run _ _ _ _ Hn')).
  rewrite (bind_done _ _ _ _ _
             (q_free_loop_run o head es m fuel n' Hnd Hndv
                (nlinked_tl m _ Hn) (queue_head_node _ _ _ Hq) Ho Hn'' Hf)).
  apply free_run; [done|]. rewrite lookup_release_all.
  rewrite bool_decide_eq_false_2; [by apply node_allocated, (queue_head_node _ _ _ Hq)|].
  intros [Hin|Hin]%elem_of_app.
  - apply NoDup_cons in Hnd as [Hhd _]. done.
  - apply (queue_val_allocated _ _ _ _ Hq) in Hin.
    revert Hin. rewrite (node_not_chars _ _ (queue_head_node _ _ _ Hq)). by intros [? ?].
Qed.

Lemma lookup_q_free m head es x :
  delete head (release_all es m) !! x =
  if bool_decide (x ∈ blocks_of head es) then None else m !! x.
Proof.
  unfold blocks_of. destruct (decide (x = head)) as [->|Hx].
  - rewrite lookup_delete_eq. by rewrite bool_decide_eq_true_2 by set_solver.
  - rewrite lookup_delete_ne, lookup_release_all by done.
    apply (f_equal (λ b : bool, if b then None else m !! x)).
    apply bool_decide_ext. set_solver.
Qed.
End free.

(** ** Creation *)

Section creation.
Implicit Types (m : gmap N block) (o : list bool) (es : list elem) (head h x : N).

Lemma q_new_run_ok m o :
  (pop_outcome o).1 = true →
  q_new (State m o) =
  Done (fresh_addr m)
       (State (<[fresh_addr m := BList (fresh_addr m) (fresh_addr m)]> m) (pop_outcome o).2).
Proof.
  intros Ho. set (h := fresh_addr m).
  assert (h ≠ NULL) as Hh by apply fresh_addr_nonnull.
  unfold q_new. rewrite (bind_done _ _ _ _ _ (malloc_run_ok _ _ _ Ho)). fold h.
  destruct (N.eqb_spec h NULL) as [|_]; [done|].
  unfold INIT_LIST_HEAD.
  erewrite bind_done; [reflexivity|].
  erewrite bind_done;
    [|apply store_next_run; unfold nxt; by rewrite lookup_insert_eq].
  erewrite store_prev_run.
  - unfold set_prev, set_next. by rewrite !alter_insert_eq.
  - rewrite nxt_set_next_some. unfold nxt. by rewrite lookup_insert_eq.
Qed.

Lemma queue_new m h : h ≠ NULL → queue (<[h := BList h h]> m) h [].
Proof.
  intros Hh. split_and!; [done| | |apply NoDup_nil_2|constructor].
  - unfold val. by rewrite lookup_insert_eq.
  - split_and!; simpl.
    + apply NoDup_singleton.
    + split; [|done]. unfold nxt. by rewrite lookup_insert_eq.
    + split; [|done]. unfold prv. by rewrite lookup_insert_eq.
Qed.

(** A block allocated next to a queue leaves the queue as it is. *)
Lemma queue_fresh_other m head es h b :
  queue m head es → m !! h = None → queue (<[h := b]> m) head es.
Proof.
  intros Hq Hfree. apply queue_insert_other; [done|..].
  - intros Hin. apply (queue_addr_allocated _ _ _ _ Hq), node_allocated in Hin.
    rewrite Hfree in Hin. by destruct Hin.
  - intros Hin. apply (queue_val_allocated _ _ _ _ Hq), chars_allocated in Hin.
    rewrite Hfree in Hin. by destruct Hin.
Qed.
End creation.

(** ** The parts of the sort *)

Section sort_parts.
Implicit Types (m : gmap N block) (o : list bool) (es a b : list elem) (l : list N).

Lemma owns_perm_same_data m m' es es' :
  same_data m m' → es' ≡ₚ es → Forall (owns m) es → Forall (owns m') es'.
Proof.
  intros Hsd Hp Ho. rewrite Hp. eapply Forall_impl; [done|].
  intros e. by apply owns_same_data.
Qed.

Lemma q_merge_run m o a b fuel :
  chain m (map e_addr a) → chain m (map e_addr b) →
  NoDup (map e_addr a ++ map e_addr b) →
  Forall (owns m) a → Forall (owns m) b →
  (length a + length b < fuel)%nat →
  ∃ m', __q_merge_two_lists fuel (hd NULL (map e_addr a)) (hd NULL (map e_addr b))
          (State m o) = Done (hd NULL (map e_addr (merge a b))) (State m' o) ∧
        chain m' (map e_addr (merge a b)) ∧ Forall (owns m') (merge a b).
Proof.
  intros Ha Hb Hnd Hoa Hob Hf.
  destruct (merge_loop_run o fuel a b m NULL LocalHead Ha Hb Hnd Hoa Hob I Hf)
    as (m' & hv & Hrun & Hch & Htg & _ & _ & Hsd & _).
  simpl in Htg. injection Htg as ->.
  exists m'. split_and!; [done..|].
  apply (owns_perm_same_data m m' (a ++ b)); [done|apply merge_perm|].
  apply Forall_app. by split.
Qed.
End sort_parts.

(** ** A whole use of the queue *)

Section session.
Implicit Types (m : gmap N block) (o : list bool) (es : list elem) (e : elem).
Implicit Types (head x s : N) (a : action) (l : list action).

Lemma q_release_element_run m o e :
  owns m e →
  q_release_element (e_addr e) (State m o) =
  Done tt (State (delete (e_addr e) (delete (e_val e) m)) o).
Proof.
  intros Ho. pose proof Ho as (Ha & Hv & Hval & Hstr). unfold q_release_element.
  rewrite (bind_done _ _ _ _ _ (load_value_run _ _ _ _ Hval)).
  erewrite bind_done; [|apply free_run; [done | by apply chars_allocated, owns_chars]].
  apply free_run; [done|]. rewrite lookup_delete_ne.
  - apply node_allocated. by eapply val_node.
  - intros E. symmetry in E. revert E.
    apply (node_ne_chars m); [by eapply val_node | by apply owns_chars].
Qed.

Lemma q_remove_head_unlinks m o head e es :
  queue m head (e :: es) →
  q_remove_head head NULL 0 (State m o) =
  Done (e_addr e) (State (unlinked m head (hd head (map e_addr es))) o).
Proof.
  intros Hq. pose proof Hq as (Hh & _).
  destruct (queue_unlink m o head [] e es Hq) as (Hdel & Hq1 & Ho1 & _ & _ & _).
  simpl in Hdel, Hq1, Ho1.
  unfold q_remove_head. destruct (N.eqb_spec head NULL) as [|_]; [done|].
  rewrite (bind_done _ _ _ _ _ (list_empty_queue _ _ _ _ Hq)).
  rewrite bool_decide_eq_false_2 by done.
  rewrite (bind_done _ _ _ _ _ (load_next_run _ _ _ _ (queue_first _ _ _ Hq))).
  simpl hd. rewrite (bind_done _ _ _ _ _ Hdel).
  destruct Ho1 as (_ & _ & Hval & _).
  by rewrite (bind_done _ _ _ _ _ (load_value_run _ _ _ _ Hval)).
Qed.

Lemma q_remove_tail_unlinks m o head e es :
  queue m head (es ++ [e]) →
  q_remove_tail head NULL 0 (State m o) =
  Done (e_addr e) (State (unlinked m (List.last (map e_addr es) head) head) o).
Proof.
  intros Hq. pose proof Hq as (Hh & _).
  destruct (queue_unlink m o head es e [] Hq) as (Hdel & Hq1 & Ho1 & _ & _ & _).
  simpl in Hdel, Hq1, Ho1.
  unfold q_remove_tail. destruct (N.eqb_spec head NULL) as [|_]; [done|].
  rewrite (bind_done _ _ _ _ _ (list_empty_queue _ _ _ _ Hq)).
  rewrite bool_decide_eq_false_2 by (by destruct es).
  rewrite (bind_done _ _ _ _ _ (load_prev_run _ _ _ _ (queue_last _ _ _ Hq))).
  rewrite map_app. change (map e_addr [e]) with [e_addr e]. rewrite last_snoc.
  rewrite (bind_done _ _ _ _ _ Hdel).
  destruct Ho1 as (_ & _ & Hval & _).
  by rewrite (bind_done _ _ _ _ _ (load_value_run _ _ _ _ Hval)).
Qed.

(** Taking an element out and releasing it is deleting it. *)
Lemma remove_head_release_run m o head e es :
  queue m head (e :: es) →
  let m' := delete (e_addr e) (delete (e_val e)
              (unlinked m head (hd head (map e_addr es)))) in
  remove_and_release (q_remove_head head NULL 0) (State m o) = Done tt (State m' o) ∧
  queue m' head es ∧ tidy_step head (e :: es) m es m'.
Proof.
  intros Hq m'.
  destruct (queue_unlink m o head [] e es Hq) as (_ & _ & Ho1 & _ & _ & _).
  destruct (delete_element_run m o head [] e es Hq) as [_ Hq'].
  pose proof (tidy_delete m head [] e es Hq) as Ht.
  cbn [app map List.last hd] in Ho1, Hq', Ht.
  split_and!; [|exact Hq'|exact Ht].
  unfold remove_and_release.
  rewrite (bind_done _ _ _ _ _ (q_remove_head_unlinks _ _ _ _ _ Hq)).
  destruct Ho1 as (Ha & Ho1).
  destruct (N.eqb_spec (e_addr e) NULL) as [|_]; [done|].
  by apply q_release_element_run.
Qed.

Lemma remove_tail_release_run m o head e es :
  queue m head (es ++ [e]) →
  let m' := delete (e_addr e) (delete (e_val e)
              (unlinked m (List.last (map e_addr es) head) head)) in
  remove_and_release (q_remove_tail head NULL 0) (State m o) = Done tt (State m' o) ∧
  queue m' head es ∧ tidy_step head (es ++ [e]) m es m'.
Proof.
  intros Hq m'.
  destruct (queue_unlink m o head es e [] Hq) as (_ & _ & Ho1 & _ & _ & _).
  destruct (delete_element_run m o head es e [] Hq) as [_ Hq'].
  pose proof (tidy_delete m head es e [] Hq) as Ht.
  cbn [map hd] in Ho1, Hq', Ht. rewrite app_nil_r in Hq', Ht.
  split_and!; [|exact Hq'|exact Ht].
  unfold remove_and_release.
  rewrite (bind_done _ _ _ _ _ (q_remove_tail_unlinks _ _ _ _ _ Hq)).
  destruct Ho1 as (Ha & Ho1).
  destruct (N.eqb_spec (e_addr e) NULL) as [|_]; [done|].
  by apply q_release_element_run.
Qed.

Lemma q_delete_mid_tidy m o head es fuel :
  queue m head es → es ≠ [] → (length es < 2 * fuel)%nat →
  ∃ m', q_delete_mid fuel head (State m o) = Done true (State m' o) ∧
        queue m' head (take (length es / 2) es ++ drop (S (length es / 2)) es) ∧
        tidy_step head es m (take (length es / 2) es ++ drop (S (length es / 2)) es) m'.
Proof.
  intros Hq Hne Hf. pose proof Hq as (Hh & _). pose proof (queue_ring _ _ _ Hq) as Hr.
  destruct es as [|e0 es0] eqn:Ees; [done|]. rewrite <- Ees in *.
  set (k := (length es / 2)%nat).
  assert (k < length es)%nat as Hk.
  { subst k. apply Nat.div_lt; [|lia]. rewrite Ees. simpl. lia. }
  pose proof (split_at es k e0 Hk) as Hsplit.
  set (e := nth k es e0) in *.
  pose proof Hq as Hq0. rewrite Hsplit in Hq.
  destruct (delete_element_run m o head _ _ _ Hq) as [Hrun Hq'].
  pose proof (tidy_delete m head _ _ _ Hq) as Ht. rewrite <- Hsplit in Ht.
  eexists. split_and!; [|exact Hq'|exact Ht].
  unfold q_delete_mid. destruct (N.eqb_spec head NULL) as [|_]; [done|].
  rewrite (bind_done _ _ _ _ _ (list_empty_queue _ _ _ _ Hq0)).
  rewrite bool_decide_eq_false_2 by (by rewrite Ees).
  rewrite (bind_done _ _ _ _ _ (load_next_run _ _ _ _ (ring_nxt_head _ _ _ Hr))).
  pose proof (q_delete_mid_walk_run m o head (map e_addr es) fuel 0 Hr) as Hw.
  rewrite length_map in Hw. simpl nth in Hw at 2.
  rewrite (bind_done _ _ _ _ _ (Hw ltac:(lia) ltac:(lia))).
  fold k. rewrite (nth_map_addr es k head e0 Hk). fold e.
  by rewrite (bind_done _ _ _ _ _ Hrun).
Qed.

Lemma dedup_from_length dup es : (length (dedup_from dup es) ≤ length es)%nat.
Proof.
  revert dup. induction es as [|e rest IH]; intros dup; [done|].
  cbn [dedup_from]. destruct (same_as_next e rest); [|destruct dup]; simpl.
  - specialize (IH true). lia.
  - specialize (IH false). lia.
  - specialize (IH false). lia.
Qed.

Lemma swap_pairs_perm es : swap_pairs es ≡ₚ es.
Proof.
  induction es as [| |e1 e2 es IH] using pairs_ind; [done..|].
  simpl. rewrite IH. apply perm_swap.
Qed.

Lemma outside_ok_step head es m es' m' a :
  tidy_step head es m es' m' → outside_ok head es m a → outside_ok head es' m' a.
Proof.
  intros [H1 H2] Hok.
  assert (∀ s, ((s ∉ blocks_of head es) ∧
                ∃ str, str_at m s = Some str ∧ N.of_nat (length str) + 1 < SIZE_MOD) →
               (s ∉ blocks_of head es') ∧
               ∃ str, str_at m' s = Some str ∧ N.of_nat (length str) + 1 < SIZE_MOD) as Hs.
  { intros s (Hout & str & Hstr & Hlen).
    assert (s ∉ blocks_of head es') as Hout'.
    { intros Hin. pose proof (H2 s Hin Hout) as Hnone.
      apply str_at_allocated in Hstr. rewrite Hnone in Hstr. by destruct Hstr. }
    split; [done|]. exists str. split; [|done].
    unfold str_at, chars. rewrite (H1 s Hout'). by rewrite bool_decide_eq_false_2. }
  destruct a as [s|s| | | | | | | |]; simpl in *; try done;
    (destruct Hok as [->|Hok]; [by left | right; by apply Hs]).
Qed.

Lemma q_insert_head_tidy m o head es s str :
  queue m head es → s ≠ NULL → str_at m s = Some str →
  N.of_nat (length str) + 1 < SIZE_MOD →
  ∃ b m' o' es', q_insert_head head s (State m o) = Done b (State m' o') ∧
                 queue m' head es' ∧ tidy_step head es m es' m' ∧
                 (length es' ≤ S (length es))%nat.
Proof.
  intros Hq Hs0 Hstr Hlen. pose proof Hq as (Hh & _).
  destruct (pop_outcome o).1 eqn:Ho1; [destruct (pop_outcome (pop_outcome o).2).1 eqn:Ho2|].
  - destruct (q_insert_head_ok m o head es s str Hq Hs0 Hstr Hlen Ho1 Ho2)
      as (m' & p & v & Hrun & Hq' & _ & _ & _ & Ht).
    exists true, m', (pop_outcome (pop_outcome o).2).2, (Elem p v str :: es).
    split_and!; [done..|simpl; lia].
  - exists false, m, (pop_outcome (pop_outcome o).2).2, es.
    split_and!; [|done|apply tidy_refl|lia].
    unfold q_insert_head. destruct (N.eqb_spec head NULL) as [|_]; [done|].
    by rewrite (bind_done _ _ _ _ _
                  (q_insert_run_fail2 m o NULL s str Hs0 Hstr ltac:(lia) Ho1 Ho2)).
  - exists false, m, (pop_outcome o).2, es. split_and!; [|done|apply tidy_refl|lia].
    unfold q_insert_head. destruct (N.eqb_spec head NULL) as [|_]; [done|].
    by rewrite (bind_done _ _ _ _ _ (q_insert_run_fail1 m o NULL s Hs0 Ho1)).
Qed.

Lemma q_insert_tail_tidy m o head es s str :
  queue m head es → s ≠ NULL → str_at m s = Some str →
  N.of_nat (length str) + 1 < SIZE_MOD →
  ∃ b m' o' es', q_insert_tail head s (State m o) = Done b (State m' o') ∧
                 queue m' head es' ∧ tidy_step head es m es' m' ∧
                 (length es' ≤ S (length es))%nat.
Proof.
  intros Hq Hs0 Hstr Hlen. pose proof Hq as (Hh & _).
  destruct (pop_outcome o).1 eqn:Ho1; [destruct (pop_outcome (pop_outcome o).2).1 eqn:Ho2|].
  - destruct (q_insert_tail_ok m o head es s str Hq Hs0 Hstr Hlen Ho1 Ho2)
      as (m' & p & v & Hrun & Hq' & _ & _ & _ & Ht).
    exists true, m', (pop_outcome (pop_outcome o).2).2, (es ++ [Elem p v str]).
    split_and!; [done..|rewrite length_app; simpl; lia].
  - exists false, m, (pop_outcome (pop_outcome o).2).2, es.
    split_and!; [|done|apply tidy_refl|lia].
    unfold q_insert_tail. destruct (N.eqb_spec head NULL) as [|_]; [done|].
    by rewrite (bind_done _ _ _ _ _
                  (q_insert_run_fail2 m o NULL s str Hs0 Hstr ltac:(lia) Ho1 Ho2)).
  - exists false, m, (pop_outcome o).2, es. split_and!; [|done|apply tidy_refl|lia].
    unfold q_insert_tail. destruct (N.eqb_spec head NULL) as [|_]; [done|].
    by rewrite (bind_done _ _ _ _ _ (q_insert_run_fail1 m o NULL s Hs0 Ho1)).
Qed.

(** Each action returns, and leaves the queue and the memory tidy. *)
Lemma run_action_tidy fuel head a m o es :
  queue m head es → outside_ok head es m a → (length es + 1 < fuel)%nat →
  ∃ m' o' es', run_action fuel head a (State m o) = Done tt (State m' o') ∧
               queue m' head es' ∧ tidy_step head es m es' m' ∧
               (length es' ≤ S (length es))%nat.
Proof.
  intros Hq Hok Hf. pose proof Hq as (Hh & _).
  assert (∀ (c : M unit) o', c (State m o) = Done tt (State m o') →
            ∃ m' o'' es', c (State m o) = Done tt (State m' o'') ∧
                          queue m' head es' ∧ tidy_step head es m es' m' ∧
                          (length es' ≤ S (length es))%nat) as Hsame.
  { intros c o' Hc. exists m, o', es. split_and!; [done..|apply tidy_refl|lia]. }
  destruct a as [s|s| | | | | | | |]; cbn [run_action]; simpl in Hok.
  - (* insert at the head *)
    destruct (decide (s = NULL)) as [->|Hs0].
    { apply (Hsame _ o). unfold q_insert_head. by destruct (head =? NULL). }
    destruct Hok as [|(Hout & str & Hstr & Hlen)]; [done|].
    destruct (q_insert_head_tidy m o head es s str Hq Hs0 Hstr Hlen)
      as (b & m' & o' & es' & Hrun & Hq' & Ht & Hl).
    exists m', o', es'. by rewrite (bind_done _ _ _ _ _ Hrun).
  - (* insert at the tail *)
    destruct (decide (s = NULL)) as [->|Hs0].
    { apply (Hsame _ o). unfold q_insert_tail. by destruct (head =? NULL). }
    destruct Hok as [|(Hout & str & Hstr & Hlen)]; [done|].
    destruct (q_insert_tail_tidy m o head es s str Hq Hs0 Hstr Hlen)
      as (b & m' & o' & es' & Hrun & Hq' & Ht & Hl).
    exists m', o', es'. by rewrite (bind_done _ _ _ _ _ Hrun).
  - (* remove at the head and release *)
    destruct es as [|e rest].
    + apply (Hsame _ o). unfold remove_and_release.
      by rewrite (bind_done _ _ _ _ _ (q_remove_head_empty _ _ _ _ _ Hq)).
    + destruct (remove_head_release_run m o head e rest Hq) as (Hrun & Hq' & Ht).
      eexists _, o, rest. split_and!; [done..|simpl; lia].
  - (* remove at the tail and release *)
    destruct (decide (es = [])) as [->|Hne].
    + apply (Hsame _ o). unfold remove_and_release.
      by rewrite (bind_done _ _ _ _ _ (q_remove_tail_empty _ _ _ _ _ Hq)).
    + destruct (exists_last Hne) as (rest & e & ->).
      destruct (remove_tail_release_run m o head e rest Hq) as (Hrun & Hq' & Ht).
      eexists _, o, rest. split_and!; [done..|rewrite length_app; simpl; lia].
  - (* size *)
    destruct (q_size_total m o head es fuel Hq ltac:(lia)) as (z & Hrun).
    apply (Hsame _ o). by rewrite (bind_done _ _ _ _ _ Hrun).
  - (* delete the middle *)
    destruct (decide (es = [])) as [->|Hne].
    + apply (Hsame _ o). by rewrite (bind_done _ _ _ _ _ (q_delete_mid_empty _ _ _ _ Hq)).
    + destruct (q_delete_mid_tidy m o head es fuel Hq Hne ltac:(lia)) as (m' & Hrun & Hq' & Ht).
      eexists m', o, _. split_and!; [by rewrite (bind_done _ _ _ _ _ Hrun)|done..|].
      rewrite length_app, length_take, length_drop. lia.
  - (* delete the duplicates *)
    destruct (q_delete_dup_run_strong m o head es fuel Hq ltac:(lia)) as (m' & Hrun & Hq' & Ht).
    eexists m', o, _. split_and!; [by rewrite (bind_done _ _ _ _ _ Hrun)|done..|].
    pose proof (dedup_from_length false es). lia.
  - (* swap *)
    destruct (q_swap_run_strong m o head es fuel Hq ltac:(lia)) as (m' & Hrun & Hq' & _ & Hfr).
    eexists m', o, _. split_and!; [done..| |].
    + apply tidy_relink; [apply swap_pairs_perm | done].
    + rewrite swap_pairs_length. lia.
  - (* reverse *)
    destruct (q_reverse_run_strong m o head es fuel Hq ltac:(lia))
      as (m' & Hrun & Hq' & _ & Hfr).
    eexists m', o, _. split_and!; [done..| |].
    + apply tidy_relink; [symmetry; apply Permutation_rev | done].
    + rewrite length_rev. lia.
  - (* sort *)
    destruct (q_sort_run_strong m o head es fuel Hq Hf)
      as (m' & es' & Hrun & Hq' & (Hp & _) & _ & Hfr).
    exists m', o, es'. split_and!; [done..| |].
    + by apply tidy_relink.
    + rewrite Hp. lia.
Qed.

Lemma run_actions_tidy fuel head l :
  ∀ m o es,
    queue m head es → Forall (outside_ok head es m) l →
    (length es + length l + 1 < fuel)%nat →
    ∃ m' o' es', run_actions fuel head l (State m o) = Done tt (State m' o') ∧
                 queue m' head es' ∧ tidy_step head es m es' m' ∧
                 (length es' ≤ length es + length l)%nat.
Proof.
  induction l as [|a l IH]; intros m o es Hq Hok Hf.
  { exists m, o, es. split_and!; [done..|apply tidy_refl|lia]. }
  apply Forall_cons_1 in Hok as [Ha Hl]. simpl in Hf.
  destruct (run_action_tidy fuel head a m o es Hq Ha ltac:(lia))
    as (m1 & o1 & es1 & Hrun1 & Hq1 & Ht1 & Hl1).
  destruct (IH m1 o1 es1 Hq1) as (m' & o' & es' & Hrun & Hq' & Ht & Hl').
  { eapply Forall_impl; [exact Hl|]. intros a'. by apply outside_ok_step. }
  { lia. }
  exists m', o', es'. split_and!.
  - cbn [run_actions]. by rewrite (bind_done _ _ _ _ _ Hrun1).
  - done.
  - by eapply tidy_trans.
  - simpl. lia.
Qed.

(** On a null list every action returns and changes nothing. *)
Lemma run_actions_null fuel l m o :
  (0 < fuel)%nat → run_actions fuel NULL l (State m o) = Done tt (State m o).
Proof.
  intros Hf. induction l as [|a l IH]; [done|].
  cbn [run_actions].
  assert (run_action fuel NULL a (State m o) = Done tt (State m o)) as Ha.
  { destruct fuel as [|fuel]; [lia|]. by destruct a. }
  by rewrite (bind_done _ _ _ _ _ Ha).
Qed.

(** [q_new], any actions, [q_free]: the memory is the one before. *)
Lemma session_run fuel l m o :
  Forall (action_ok m) l → (length l + 1 < fuel)%nat →
  ∃ o', session fuel l (State m o) = Done tt (State m o').
Proof.
  intros Hok Hf. unfold session.
  destruct (pop_outcome o).1 eqn:Ho.
  - rewrite (bind_done _ _ _ _ _ (q_new_run_ok m o Ho)).
    set (h := fresh_addr m). set (m1 := <[h := BList h h]> m).
    assert (h ≠ NULL) as Hh by apply fresh_addr_nonnull.
    assert (m !! h = None) as Hfree by apply fresh_addr_free.
    assert (Forall (outside_ok h [] m1) l) as Hok1.
    { eapply Forall_impl; [exact Hok|]. intros a Ha.
      destruct a as [s|s| | | | | | | |]; simpl in *; try done;
        (destruct Ha as [->|(str & Hstr & Hlen)]; [by left|right]);
        (assert (s ≠ h) as Hsh
           by (intros ->; apply str_at_allocated in Hstr; rewrite Hfree in Hstr;
               by destruct Hstr));
        (split; [unfold blocks_of; simpl; set_solver|]);
        exists str; (split; [|done]); unfold m1; by rewrite str_at_insert_ne. }
    destruct (run_actions_tidy fuel h l m1 (pop_outcome o).2 [] (queue_new m h Hh) Hok1)
      as (m' & o' & es' & Hrun & Hq' & [H1 H2] & Hl); [simpl; lia|].
    rewrite (bind_done _ _ _ _ _ Hrun).
    rewrite (q_free_run m' o' h es' fuel Hq') by (simpl in Hl; lia).
    exists o'. do 2 f_equal. apply map_eq. intros x. rewrite lookup_q_free.
    assert (h ∈ blocks_of h es') as Hhin by (unfold blocks_of; set_solver).
    case_bool_decide as Hx.
    + destruct (decide (x = h)) as [->|Hxh]; [done|].
      assert (x ∉ blocks_of h []) as Hx0 by (unfold blocks_of; simpl; set_solver).
      pose proof (H2 x Hx Hx0) as Hnone. unfold m1 in Hnone.
      by rewrite lookup_insert_ne in Hnone.
    + assert (x ≠ h) as Hxh by (by intros ->).
      rewrite (H1 x Hx). rewrite bool_decide_eq_false_2.
      * unfold m1. by rewrite lookup_insert_ne.
      * unfold blocks_of. simpl. set_solver.
  - rewrite (bind_done _ _ _ _ _ (q_new_fail m o Ho)).
    rewrite (bind_done _ _ _ _ _ (run_actions_null fuel l m _ ltac:(lia))).
    exists (pop_outcome o).2. done.
Qed.
(** Relinking keeps every block allocated. *)
Lemma relink_allocated m m' head es es' :
  queue m head es → queue m' head es' → es' ≡ₚ es →
  same_outside (head :: map e_addr es) m m' →
  ∀ x, is_Some (m' !! x) ↔ is_Some (m !! x).
Proof.
  intros Hq Hq' Hp Hfr x.
  destruct (decide (x ∈ head :: map e_addr es)) as [Hx|Hx]; [|by rewrite Hfr].
  split; intros _.
  - by apply node_allocated, (queue_addr_allocated _ _ _ _ Hq).
  - apply node_allocated, (queue_addr_allocated _ _ _ _ Hq'). by rewrite Hp.
Qed.

(** The buffer of the caller after an insertion. *)
Lemma buffer_ok_step head es m es' m' sp bufsize :
  queue m head es → queue m' head es' → tidy_step head es m es' m' →
  buffer_ok m sp bufsize es → buffer_ok m' sp bufsize es'.
Proof.
  intros Hq Hq' [H1 H2] (Hmax & Hbuf). split; [done|].
  destruct Hbuf as [?|[?|(d & Hd & Hcap & Hout)]]; [by left|by right; left|].
  right. right.
  assert (sp ∉ blocks_of head es) as Hsp.
  { rewrite elem_of_blocks_of. intros [->|[Hin|Hin]]; [| |done].
    - apply queue_head_node, node_not_chars in Hq. by rewrite Hq in Hd.
    - assert (is_Some (nxt m sp)) as Hnode.
      { apply (queue_addr_allocated m head es sp Hq). apply elem_of_cons. by right. }
      apply node_not_chars in Hnode. by rewrite Hnode in Hd. }
  assert (sp ∉ blocks_of head es') as Hsp'.
  { intros Hin. pose proof (H2 sp Hin Hsp) as Hnone.
    unfold chars in Hd. by rewrite Hnone in Hd. }
  exists d. split_and!; [|done|].
  - unfold chars. rewrite (H1 sp Hsp'). by rewrite bool_decide_eq_false_2.
  - intros Hin. apply Hsp'. rewrite elem_of_blocks_of. tauto.
Qed.
Lemma buffer_holds m m' sp bufsize es str :
  buffer_ok m sp bufsize es → nul_free str → sp ≠ NULL → bufsize ≠ 0 →
  (∃ d, chars m sp = Some d ∧ chars m' sp = Some (copied d str bufsize)) →
  str_at m' sp = Some (take (N.to_nat (bufsize - 1)) str).
Proof.
  intros (_ & Hbuf) Hnf Hsp Hbs (d & Hd & Hd').
  destruct Hbuf as [?|[?|(d0 & Hd0 & Hcap & _)]]; [done..|].
  assert (d0 = d) as -> by congruence.
  unfold str_at. rewrite Hd'. simpl. apply cstr_copied; [done|lia|done].
Qed.

(** An insertion followed by a removal at the same end. *)
Lemma q_insert_remove_head m o head es s str sp bufsize :
  queue m head es → s ≠ NULL → str_at m s = Some str →
  N.of_nat (length str) + 1 < SIZE_MOD → buffer_ok m sp bufsize es →
  (pop_outcome o).1 = true → (pop_outcome (pop_outcome o).2).1 = true →
  ∃ m1 m2 p v,
    q_insert_head head s (State m o) =
      Done true (State m1 (pop_outcome (pop_outcome o).2).2) ∧
    q_remove_head head sp bufsize (State m1 (pop_outcome (pop_outcome o).2).2) =
      Done p (State m2 (pop_outcome (pop_outcome o).2).2) ∧
    p ≠ NULL ∧ m !! p = None ∧ queue m2 head es ∧ owns m2 (Elem p v str) ∧
    (sp ≠ NULL → bufsize ≠ 0 →
     str_at m2 sp = Some (take (N.to_nat (bufsize - 1)) str)).
Proof.
  intros Hq Hs0 Hstr Hlen Hbuf Ho1 Ho2.
  destruct (q_insert_head_ok m o head es s str Hq Hs0 Hstr Hlen Ho1 Ho2)
    as (m1 & p & v & Hrun1 & Hq1 & Hp & Hv & _ & Ht).
  pose proof (buffer_ok_step _ _ _ _ _ _ _ Hq Hq1 Ht Hbuf) as Hbuf1.
  destruct (q_remove_head_run m1 (pop_outcome (pop_outcome o).2).2 head (Elem p v str) es
              sp bufsize Hq1 Hbuf1)
    as (m2 & Hrun2 & Hq2 & Hown & Hc).
  exists m1, m2, p, v. split_and!; [done|done| |done|done|done|].
  - by destruct Hown.
  - intros Hsp Hbs. apply (buffer_holds m1 m2 sp bufsize (Elem p v str :: es)); try done.
    + by apply (owns_nul_free m2 (Elem p v str)).
    + by apply Hc.
Qed.

Lemma q_insert_remove_tail m o head es s str sp bufsize :
  queue m head es → s ≠ NULL → str_at m s = Some str →
  N.of_nat (length str) + 1 < SIZE_MOD → buffer_ok m sp bufsize es →
  (pop_outcome o).1 = true → (pop_outcome (pop_outcome o).2).1 = true →
  ∃ m1 m2 p v,
    q_insert_tail head s (State m o) =
      Done true (State m1 (pop_outcome (pop_outcome o).2).2) ∧
    q_remove_tail head sp bufsize (State m1 (pop_outcome (pop_outcome o).2).2) =
      Done p (State m2 (pop_outcome (pop_outcome o).2).2) ∧
    p ≠ NULL ∧ m !! p = None ∧ queue m2 head es ∧ owns m2 (Elem p v str) ∧
    (sp ≠ NULL → bufsize ≠ 0 →
     str_at m2 sp = Some (take (N.to_nat (bufsize - 1)) str)).
Proof.
  intros Hq Hs0 Hstr Hlen Hbuf Ho1 Ho2.
  destruct (q_insert_tail_ok m o head es s str Hq Hs0 Hstr Hlen Ho1 Ho2)
    as (m1 & p & v & Hrun1 & Hq1 & Hp & Hv & _ & Ht).
  pose proof (buffer_ok_step _ _ _ _ _ _ _ Hq Hq1 Ht Hbuf) as Hbuf1.
  destruct (q_remove_tail_run m1 (pop_outcome (pop_outcome o).2).2 head (Elem p v str) es
              sp bufsize Hq1 Hbuf1)
    as (m2 & Hrun2 & Hq2 & Hown & Hc).
  exists m1, m2, p, v. split_and!; [done|done| |done|done|done|].
  - by destruct Hown.
  - intros Hsp Hbs. apply (buffer_holds m1 m2 sp bufsize (es ++ [Elem p v str])); try done.
    + by apply (owns_nul_free m2 (Elem p v str)).
    + by apply Hc.
Qed.
Lemma never_fails_pop o :
  never_fails o → (pop_outcome o).1 = true ∧ never_fails (pop_outcome o).2.
Proof.
  intros Ho. destruct o as [|b o']; [done|]. simpl.
  apply Forall_cons_1 in Ho as [-> Ho]. done.
Qed.

Lemma strings_at_step m m' p v ss strs :
  m !! p = None → m !! v = None →
  (∀ x, x ≠ p → x ≠ v → str_at m' x = str_at m x) →
  strings_at m ss strs → strings_at m' ss strs.
Proof.
  intros Hp Hv Hfr Hss. eapply Forall2_impl; [exact Hss|].
  intros s' str (Hs0 & Hstr & Hlen). split_and!; [done| |done].
  pose proof (str_at_allocated _ _ _ Hstr) as [b Hb].
  rewrite Hfr; [done|intros ->; congruence|intros ->; congruence].
Qed.

(** Insertions at the tail keep the order of the strings, insertions
    at the head reverse it. *)
Lemma push_tail_all head ss :
  ∀ strs m o es,
    queue m head es → strings_at m ss strs → never_fails o →
    ∃ m' o' new, run_updates head (map PushTail ss) (State m o) = Done tt (State m' o') ∧
                 queue m' head (es ++ new) ∧ payloads new = strs ∧ never_fails o'.
Proof.
  induction ss as [|s ss IH]; intros strs m o es Hq Hss Ho.
  { apply Forall2_nil_inv_l in Hss as ->. exists m, o, [].
    rewrite app_nil_r. by split_and!. }
  apply Forall2_cons_inv_l in Hss as (str & strs' & (Hs0 & Hstr & Hlen) & Hss & ->).
  destruct (never_fails_pop o Ho) as [Ho1 Ho'].
  destruct (never_fails_pop _ Ho') as [Ho2 Ho''].
  destruct (q_insert_tail_ok m o head es s str Hq Hs0 Hstr Hlen Ho1 Ho2)
    as (m1 & p & v & Hrun1 & Hq1 & Hp & Hv & Hfr & _).
  destruct (IH strs' m1 _ _ Hq1 (strings_at_step _ _ _ _ _ _ Hp Hv Hfr Hss) Ho'')
    as (m' & o' & new & Hrun & Hq' & Hpay & Ho3).
  exists m', o', (Elem p v str :: new). split_and!; [|by rewrite <- app_assoc in Hq'| |done].
  - cbn [map run_updates run_update]. rewrite bind_assoc.
    by rewrite (bind_done _ _ _ _ _ Hrun1).
  - simpl. by rewrite Hpay.
Qed.

Lemma push_head_all head ss :
  ∀ strs m o es,
    queue m head es → strings_at m ss strs → never_fails o →
    ∃ m' o' new, run_updates head (map PushHead ss) (State m o) = Done tt (State m' o') ∧
                 queue m' head (rev new ++ es) ∧ payloads new = strs ∧ never_fails o'.
Proof.
  induction ss as [|s ss IH]; intros strs m o es Hq Hss Ho.
  { apply Forall2_nil_inv_l in Hss as ->. exists m, o, []. by split_and!. }
  apply Forall2_cons_inv_l in Hss as (str & strs' & (Hs0 & Hstr & Hlen) & Hss & ->).
  destruct (never_fails_pop o Ho) as [Ho1 Ho'].
  destruct (never_fails_pop _ Ho') as [Ho2 Ho''].
  destruct (q_insert_head_ok m o head es s str Hq Hs0 Hstr Hlen Ho1 Ho2)
    as (m1 & p & v & Hrun1 & Hq1 & Hp & Hv & Hfr & _).
  destruct (IH strs' m1 _ _ Hq1 (strings_at_step _ _ _ _ _ _ Hp Hv Hfr Hss) Ho'')
    as (m' & o' & new & Hrun & Hq' & Hpay & Ho3).
  exists m', o', (Elem p v str :: new). split_and!; [| | |done].
  - cbn [map run_updates run_update]. rewrite bind_assoc.
    by rewrite (bind_done _ _ _ _ _ Hrun1).
  - cbn [rev]. by rewrite <- app_assoc.
  - simpl. by rewrite Hpay.
Qed.
End session.

(** ** Sorted lists of elements *)

Section sorted.
Implicit Types (es pre rest : list elem) (e x y z : elem) (s : list byte).

Lemma elem_le_refl x : elem_le x x.
Proof. unfold elem_le, str_le. by rewrite strcmp_refl. Qed.

Lemma elem_le_antisym x y :
  nul_free (e_str x) → nul_free (e_str y) → elem_le x y → elem_le y x → e_str x = e_str y.
Proof.
  unfold elem_le, str_le. intros Hx Hy H1 H2. apply strcmp_eq; [done..|].
  rewrite (strcmp_antisym_sign (e_str x) (e_str y)) in H2 by done. lia.
Qed.

(** In a sorted list an element whose successor has another payload is
    the last one of its payload, and one whose predecessor has another
    payload is the first. *)
Lemma sorted_next_differs e rest :
  all_nul_free (e :: rest) → StronglySorted elem_le (e :: rest) →
  e_str <$> head rest ≠ Some (e_str e) → with_payload (e_str e) rest = [].
Proof.
  intros Hnf Hs Hne. destruct rest as [|y r]; [done|]. simpl in Hne.
  apply with_payload_none. apply Forall_forall. intros z Hz Ez.
  apply Hne. f_equal.
  apply StronglySorted_cons in Hs as [He Hs].
  apply StronglySorted_cons in Hs as [Hy _].
  unfold all_nul_free in Hnf. rewrite !Forall_cons in Hnf. destruct Hnf as (Hne' & Hny & Hnr).
  assert (elem_le e y) as H1 by (by apply Forall_inv in He).
  assert (elem_le y z) as H2.
  { apply elem_of_cons in Hz as [->|Hz]; [apply elem_le_refl|].
    by apply (proj1 (Forall_forall _ _) Hy). }
  apply elem_le_antisym; [done..| |done].
  unfold elem_le in *. by rewrite <- Ez.
Qed.

Lemma sorted_prev_differs pre e :
  all_nul_free (pre ++ [e]) → StronglySorted elem_le (pre ++ [e]) →
  e_str <$> last pre ≠ Some (e_str e) → with_payload (e_str e) pre = [].
Proof.
  intros Hnf Hs Hne.
  destruct (decide (pre = [])) as [->|Hpre]; [done|].
  destruct (exists_last Hpre) as (pre' & lp & ->).
  rewrite stdpp.list_basics.list.last_snoc in Hne. simpl in Hne.
  apply with_payload_none. apply Forall_forall. intros z Hz Ez.
  apply Hne. f_equal.
  unfold all_nul_free in Hnf. rewrite !Forall_app in Hnf.
  destruct Hnf as ((Hnp & Hnl) & Hne').
  apply Forall_inv in Hnl. apply Forall_inv in Hne'.
  assert (elem_le lp e) as H1.
  { apply (StronglySorted_app_1_elem_of _ _ _ _ _ Hs); set_solver. }
  assert (elem_le z lp) as H2.
  { apply elem_of_app in Hz as [Hz|Hz];
      [|apply list_elem_of_singleton in Hz as ->; apply elem_le_refl].
    apply StronglySorted_app_1_l in Hs.
    apply (StronglySorted_app_1_elem_of _ _ _ _ _ Hs); set_solver. }
  apply elem_le_antisym; [done..|].
  unfold elem_le in *. by rewrite <- Ez.
Qed.

Lemma with_payload_self_length pre e rest :
  length (with_payload (e_str e) (pre ++ e :: rest)) =
  S (length (with_payload (e_str e) pre) + length (with_payload (e_str e) rest)).
Proof.
  rewrite with_payload_app, with_payload_cons, decide_True by done.
  rewrite length_app. simpl. lia.
Qed.

(** On a sorted list the elements that differ from both neighbours are
    the elements whose payload occurs once. *)
Lemma unique_among_sorted es :
  ∀ pre,
    all_nul_free (pre ++ es) → StronglySorted elem_le (pre ++ es) →
    unique_among_neighbours (e_str <$> last pre) es =
    filter (λ e, length (with_payload (e_str e) (pre ++ es)) = 1%nat) es.
Proof.
  induction es as [|e rest IH]; intros pre Hnf Hs; [done|].
  cbn [unique_among_neighbours]. rewrite filter_cons.
  specialize (IH (pre ++ [e])). rewrite <- app_assoc in IH. cbn [app] in IH.
  rewrite stdpp.list_basics.list.last_snoc in IH. cbn [fmap option_fmap option_map] in IH.
  rewrite (IH Hnf Hs). clear IH.
  rewrite with_payload_self_length.
  assert (all_nul_free (pre ++ [e]) ∧ StronglySorted elem_le (pre ++ [e]) ∧
          all_nul_free (e :: rest) ∧ StronglySorted elem_le (e :: rest))
    as (Hnf1 & Hs1 & Hnf2 & Hs2).
  { unfold all_nul_free in *.
    replace (pre ++ e :: rest) with ((pre ++ [e]) ++ rest) in Hnf, Hs
      by (by rewrite <- app_assoc).
    split_and!.
    - by apply Forall_app in Hnf as [? _].
    - by apply StronglySorted_app_1_l in Hs.
    - rewrite <- app_assoc in Hnf. by apply Forall_app in Hnf as [_ ?].
    - rewrite <- app_assoc in Hs. by apply StronglySorted_app_1_r in Hs. }
  destruct (bool_decide_reflect (e_str <$> last pre = Some (e_str e))) as [Hp|Hp].
  - simpl. rewrite decide_False; [done|].
    destruct (last pre) as [lp|] eqn:Hl; [|done]. simpl in Hp. injection Hp as Hp.
    apply last_Some_elem_of in Hl.
    assert (lp ∈ with_payload (e_str e) pre) as Hin.
    { unfold with_payload. by apply list_elem_of_filter. }
    destruct (with_payload (e_str e) pre); [by apply elem_of_nil in Hin|]. simpl. lia.
  - destruct (bool_decide_reflect (e_str <$> head rest = Some (e_str e))) as [Hn|Hn].
    + simpl. rewrite decide_False; [done|].
      destruct (head rest) as [y|] eqn:Hh; [|done]. simpl in Hn. injection Hn as Hn.
      apply head_Some_elem_of in Hh.
      assert (y ∈ with_payload (e_str e) rest) as Hin.
      { unfold with_payload. by apply list_elem_of_filter. }
      destruct (with_payload (e_str e) rest); [by apply elem_of_nil in Hin|].
      simpl. lia.
    + simpl. rewrite decide_True; [done|].
      rewrite (sorted_prev_differs pre e Hnf1 Hs1 Hp).
      by rewrite (sorted_next_differs e rest Hnf2 Hs2 Hn).
Qed.

Lemma unique_among_sorted_once es :
  all_nul_free es → StronglySorted elem_le es →
  unique_among_neighbours None es = only_once es.
Proof. intros Hnf Hs. by apply (unique_among_sorted es []). Qed.

Lemma only_once_perm es es' : es' ≡ₚ es → only_once es' ≡ₚ only_once es.
Proof.
  intros Hp. unfold only_once.
  rewrite (list_filter_iff _ (λ e, length (with_payload (e_str e) es) = 1%nat)).
  - by rewrite Hp.
  - intros e. unfold with_payload. by rewrite Hp.
Qed.

Lemma only_once_sublist es : sublist (only_once es) es.
Proof. apply sublist_filter. Qed.

Lemma only_once_payloads_nodup es : NoDup es → NoDup (payloads (only_once es)).
Proof.
  intros Hnd. unfold payloads. apply (NoDup_fmap_2_strong e_str).
  - intros x y [Hx Hxin]%list_elem_of_filter [Hy Hyin]%list_elem_of_filter E.
    assert (x ∈ with_payload (e_str x) es) as Hx'
      by (unfold with_payload; by apply list_elem_of_filter).
    assert (y ∈ with_payload (e_str x) es) as Hy'
      by (unfold with_payload; by apply list_elem_of_filter).
    destruct (with_payload (e_str x) es) as [|z [|z' l]]; simpl in Hx; try lia.
    apply list_elem_of_singleton in Hx', Hy'. congruence.
  - by apply NoDup_filter.
Qed.

Lemma sorted_sublist es es' :
  sublist es' es → StronglySorted elem_le es → StronglySorted elem_le es'.
Proof.
  induction 1 as [|x l1 l2 Hsub IH|x l1 l2 Hsub IH]; intros Hs; [done| |].
  - apply StronglySorted_cons in Hs as [Hx Hs]. apply StronglySorted_cons. split; [|by apply IH].
    apply Forall_forall. intros y Hy. apply (proj1 (Forall_forall _ _) Hx).
    by eapply elem_of_sublist.
  - apply StronglySorted_cons in Hs as [_ Hs]. by apply IH.
Qed.

(** The order of the payloads of a sorted list is fixed by the payloads
    it holds. *)
Lemma payloads_sorted_unique es ps :
  all_nul_free es → StronglySorted elem_le es →
  ps ≡ₚ payloads es → StronglySorted str_le ps → payloads es = ps.
Proof.
  intros Hnf Hs Hp Hps.
  assert (∀ s, s ∈ payloads es → nul_free s) as Hnul.
  { intros s (e & -> & He)%list_elem_of_fmap. by apply (proj1 (Forall_forall _ _) Hnf). }
  apply (StronglySorted_unique_strong str_le);
    [|by apply (StronglySorted_fmap _ elem_le str_le)|done|done].
  intros s t Hs' Ht H1 H2. rewrite Hp in Ht.
  unfold str_le in *. apply strcmp_eq; [by apply Hnul..|].
  rewrite (strcmp_antisym_sign s t) in H2 by (by apply Hnul). lia.
Qed.

Lemma same_payloads_filters_eq es1 :
  ∀ es2, payloads es1 = payloads es2 →
         (∀ s, with_payload s es1 = with_payload s es2) → es1 = es2.
Proof.
  induction es1 as [|x es1 IH]; intros [|y es2] Hp Hw; try done.
  simpl in Hp. injection Hp as Hxy Hp.
  pose proof (Hw (e_str x)) as Hx. rewrite !with_payload_cons in Hx.
  rewrite decide_True in Hx by done. rewrite decide_True in Hx by done.
  injection Hx as -> Hx. f_equal. apply IH; [done|].
  intros s. specialize (Hw s). rewrite !with_payload_cons in Hw.
  destruct (decide (e_str y = s)); [by injection Hw|done].
Qed.

(** A list has one stable sort. *)
Lemma stable_sorted_unique es es1 es2 :
  all_nul_free es → stable_sorted es es1 → stable_sorted es es2 → es1 = es2.
Proof.
  intros Hnf (Hp1 & Hs1 & Hw1) (Hp2 & Hs2 & Hw2).
  apply same_payloads_filters_eq.
  - apply payloads_sorted_unique.
    + by apply (all_nul_free_perm es).
    + done.
    + unfold payloads. by rewrite Hp1, Hp2.
    + by apply (StronglySorted_fmap _ elem_le str_le).
  - intros s. by rewrite Hw1, Hw2.
Qed.
End sorted.

(** ** The earlier [q_delete_dup] *)

Section part000.
Implicit Types (m : gmap N block) (o : list bool) (es rest todo done : list elem).
Implicit Types (e p : elem) (head empty x v : N) (dup : bool).

Lemma bind_fault {A B} (c : M A) (k : A → M B) s : c s = Fault → bind c k s = Fault.
Proof. unfold bind. by intros ->. Qed.

Lemma strcmp_nil_r s : nul_free s → strcmp s [] = 0%Z → s = [].
Proof. intros Hs H. apply strcmp_eq; [done | constructor | done]. Qed.

Lemma dedup_from_cons dup e rest :
  dedup_from dup (e :: rest) =
  if same_as_next e rest then dedup_from true rest
  else if dup then dedup_from false rest
  else e :: dedup_from false rest.
Proof. done. Qed.

Lemma part000_dedup_from_spec todo :
  ∀ p dup, all_nul_free (p :: todo) →
           part000_dedup_from p dup todo = dedup_from dup (p :: todo).
Proof.
  induction todo as [|e rest IH]; intros p dup Hnf.
  { rewrite dedup_from_cons. simpl. by destruct dup. }
  unfold all_nul_free in Hnf. rewrite !Forall_cons in Hnf. destruct Hnf as (Hp & He & Hrest).
  cbn [part000_dedup_from]. rewrite (dedup_from_cons dup p). cbn [same_as_next].
  rewrite (strcmp_antisym_sign (e_str p) (e_str e)) by done.
  destruct (Z.eqb_spec (strcmp (e_str p) (e_str e)) 0) as [Hc|Hc].
  - rewrite Hc. cbn [Z.opp Z.eqb].
    rewrite IH by (by constructor).
    rewrite !(dedup_from_cons true). unfold same_as_next.
    by rewrite (strcmp_eq _ _ Hp He Hc).
  - destruct (Z.eqb_spec (- strcmp (e_str p) (e_str e)) 0) as [Hc'|_]; [lia|].
    rewrite IH by (by constructor). by destruct dup.
Qed.

Lemma queue_prev_of m head es1 p e es2 :
  queue m head (es1 ++ p :: e :: es2) → prv m (e_addr e) = Some (e_addr p).
Proof.
  intros Hq. rewrite (cons_middle p), app_assoc in Hq.
  apply queue_ring in Hq. rewrite queue_split_addrs in Hq.
  apply ring_at in Hq as (_ & Hp & _). rewrite map_app in Hp. cbn [map] in Hp.
  by rewrite last_snoc in Hp.
Qed.

(** The loop, from an element [p] on: at the exit [start] is the last
    element still linked, or null. *)
Lemma part000_loop_run o head todo :
  ∀ done p dup m fuel safe,
    queue m head (done ++ p :: todo) → (length todo < fuel)%nat →
    (todo ≠ [] → safe = hd head (map e_addr (tl todo))) →
    ∃ m' done' p' dup',
      Part000.q_delete_dup_loop fuel head (hd head (map e_addr todo)) safe
        (if dup then e_addr p else NULL) (e_val p) (State m o) =
        Done (if dup' then e_addr p' else NULL) (State m' o) ∧
      queue m' head (done' ++ [p']) ∧
      done' ++ (if dup' then [] else [p']) = done ++ part000_dedup_from p dup todo.
Proof.
  induction todo as [|e rest IH]; intros done p dup m fuel safe Hq Hf Hsafe;
    (destruct fuel as [|fuel]; [simpl in Hf; lia|]).
  { exists m, done, p, dup. cbn [Part000.q_delete_dup_loop hd map].
    rewrite N.eqb_refl. by split_and!. }
  simpl in Hf. specialize (Hsafe ltac:(done)). simpl in Hsafe. subst safe.
  cbn [Part000.q_delete_dup_loop hd map].
  assert (p ∈ done ++ p :: e :: rest) as Hpin by set_solver.
  assert (e ∈ done ++ p :: e :: rest) as Hein by set_solver.
  destruct (N.eqb_spec (e_addr e) head) as [E|_];
    [by apply (queue_elem_not_head _ _ _ _ Hq) in E|].
  destruct (queue_owns _ _ _ _ Hq Hpin) as (Hp0 & Hpv0 & Hpval & Hpstr).
  destruct (queue_owns _ _ _ _ Hq Hein) as (He0 & Hev0 & Heval & Hestr).
  rewrite (bind_done _ _ _ _ _ (load_value_run _ _ _ _ Heval)).
  rewrite (bind_done _ _ _ _ _ (strcmp_at_run _ _ _ _ _ _ Hestr Hpstr)).
  cbn [part000_dedup_from].
  destruct (Z.eqb_spec (strcmp (e_str e) (e_str p)) 0) as [Hc|Hc].
  - (* a duplicate of [p]: it goes, and [p] is marked *)
    assert ((if (if dup then e_addr p else NULL) =? NULL
             then load_prev (e_addr e) else ret (if dup then e_addr p else NULL))
              (State m o) = Done (e_addr p) (State m o)) as Hstart.
    { destruct dup.
      - by destruct (N.eqb_spec (e_addr p) NULL).
      - rewrite N.eqb_refl. apply load_prev_run. by eapply queue_prev_of. }
    pose proof Hq as Hq0. rewrite (cons_middle p), app_assoc in Hq0.
    destruct (delete_element_run m o head (done ++ [p]) e rest Hq0) as [Hdel Hq1].
    erewrite bind_done;
      [|erewrite bind_done; [|exact Hstart];
        erewrite bind_done; [|exact Hdel]; reflexivity].
    cbn beta iota.
    destruct (queue_next_next _ _ _ _ Hq1) as (n' & Hn' & Hn'').
    rewrite (bind_done _ _ _ _ _ (load_next_run _ _ _ _ Hn')).
    rewrite <- app_assoc in Hq1. cbn [app] in Hq1.
    destruct (IH done p true _ fuel n' Hq1) as (m' & done' & p' & dup' & Hrun & Hq' & Hres);
      [lia|done|].
    by exists m', done', p', dup'.
  - (* another payload: a marked [p] goes *)
    destruct dup.
    + destruct (delete_element_run m o head done p (e :: rest) Hq) as [Hdel Hq1].
      assert (negb (e_addr p =? NULL) = true) as Hnn.
      { by destruct (N.eqb_spec (e_addr p) NULL). }
      erewrite bind_done;
        [|erewrite bind_done; [|exact (load_value_run _ _ _ _ Heval)];
          rewrite Hnn;
          erewrite bind_done; [|erewrite bind_done; [|exact Hdel]; reflexivity];
          reflexivity].
      cbn beta iota.
      pose proof Hq1 as Hq2. rewrite (cons_middle e), app_assoc in Hq2.
      destruct (queue_next_next _ _ _ _ Hq2) as (n' & Hn' & Hn'').
      rewrite (bind_done _ _ _ _ _ (load_next_run _ _ _ _ Hn')).
      destruct (IH done e false _ fuel n' Hq1) as (m' & done' & p' & dup' & Hrun & Hq' & Hres);
        [lia|done|].
      by exists m', done', p', dup'.
    + erewrite bind_done;
        [|erewrite bind_done; [|exact (load_value_run _ _ _ _ Heval)];
          rewrite N.eqb_refl; reflexivity].
      cbn beta iota.
      pose proof Hq as Hq1. rewrite (cons_middle p), app_assoc in Hq1.
      pose proof Hq1 as Hq2. rewrite (cons_middle e), app_assoc in Hq2.
      destruct (queue_next_next _ _ _ _ Hq2) as (n' & Hn' & Hn'').
      rewrite (bind_done _ _ _ _ _ (load_next_run _ _ _ _ Hn')).
      destruct (IH (done ++ [p]) e false _ fuel n' Hq1)
        as (m' & done' & p' & dup' & Hrun & Hq' & Hres); [lia|done|].
      exists m', done', p', dup'. split_and!; [done..|].
      by rewrite Hres, <- app_assoc.
Qed.

(** On a queue that does not begin with an empty payload the earlier
    [q_delete_dup] does what the later one does. *)
Lemma part000_q_delete_dup_run m o head empty es fuel :
  queue m head es → str_at m empty = Some [] →
  (∀ e rest, es = e :: rest → e_str e ≠ []) → (length es < fuel)%nat →
  ∃ m', Part000.q_delete_dup fuel empty head (State m o) = Done true (State m' o) ∧
        queue m' head (dedup_from false es).
Proof.
  intros Hq Hempty Hfirst Hf. pose proof Hq as (Hh & _).
  unfold Part000.q_delete_dup. destruct (N.eqb_spec head NULL) as [|_]; [done|].
  rewrite (bind_done _ _ _ _ _ (load_next_run _ _ _ _ (queue_first _ _ _ Hq))).
  destruct (queue_next_next m head [] es Hq) as (n' & Hn' & Hn'').
  rewrite (bind_done _ _ _ _ _ (load_next_run _ _ _ _ Hn')).
  destruct fuel as [|fuel]; [lia|].
  destruct es as [|e rest].
  { exists m. cbn [Part000.q_delete_dup_loop hd map]. rewrite N.eqb_refl. by split. }
  specialize (Hn'' ltac:(done)). simpl in Hn''. subst n'. simpl in Hf.
  cbn [hd map].
  destruct (queue_owns _ _ _ e Hq ltac:(set_solver)) as (He0 & Hev0 & Heval & Hestr).
  pose proof (queue_nul_free _ _ _ Hq) as Hnf.
  assert (nul_free (e_str e)) as Hnfe by (by apply Forall_inv in Hnf).
  assert (∃ m' done' p' dup',
            Part000.q_delete_dup_loop (S fuel) head (e_addr e) (hd head (map e_addr rest))
              NULL empty (State m o) =
              Done (if dup' then e_addr p' else NULL) (State m' o) ∧
            queue m' head (done' ++ [p']) ∧
            done' ++ (if dup' then [] else [p']) = part000_dedup_from e false rest)
    as (m' & done' & p' & dup' & Hrun & Hq' & Hres).
  { cbn [Part000.q_delete_dup_loop].
    destruct (N.eqb_spec (e_addr e) head) as [E|_].
    { apply (queue_elem_not_head _ _ _ _ Hq) in E; [done | set_solver]. }
    rewrite (bind_done _ _ _ _ _ (load_value_run _ _ _ _ Heval)).
    rewrite (bind_done _ _ _ _ _ (strcmp_at_run _ _ _ _ _ _ Hestr Hempty)).
    destruct (Z.eqb_spec (strcmp (e_str e) []) 0) as [Hc|_].
    { apply strcmp_nil_r in Hc; [|done]. by apply (Hfirst e rest) in Hc. }
    erewrite bind_done;
      [|erewrite bind_done; [|exact (load_value_run _ _ _ _ Heval)]; reflexivity].
    cbn beta iota.
    destruct (queue_next_next m head [e] rest Hq) as (n2 & Hn2 & Hn2').
    rewrite (bind_done _ _ _ _ _ (load_next_run _ _ _ _ Hn2)).
    apply (part000_loop_run o head rest [] e false m fuel n2 Hq); [lia|done]. }
  rewrite (bind_done _ _ _ _ _ Hrun).
  rewrite (part000_dedup_from_spec rest e false Hnf) in Hres.
  rewrite <- Hres. destruct dup'.
  - destruct (queue_owns _ _ _ p' Hq' ltac:(set_solver)) as (Hp0 & _).
    destruct (N.eqb_spec (e_addr p') NULL) as [|_]; [done|]. cbn [negb].
    destruct (delete_element_run m' o head done' p' [] Hq') as [Hdel Hq1].
    rewrite (bind_done _ _ _ _ _ Hdel). eexists. split; [done|].
    by rewrite app_nil_r in Hq1 |- *.
  - exists m'. by split.
Qed.

(** [start] set to the sentinel is deleted as an element: the read of
    [start->value] is outside the sentinel. *)
Lemma delete_element_sentinel m o head es :
  queue m head es → delete_element head (State m o) = Fault.
Proof.
  intros Hq. pose proof Hq as (Hh & Hv & Hr & _).
  destruct (ring_at_head _ _ _ Hr) as [Hn Hp].
  unfold delete_element.
  erewrite bind_done; [|apply (list_del_run _ _ _ _ _ Hn Hp)].
  - unfold bind, load_value, load. cbn [mem]. by strip_links; rewrite Hv.
  - apply (ring_node m _ _ Hr). destruct (map e_addr es); simpl; set_solver.
  - apply (ring_node m _ _ Hr). rewrite <- (last_cons _ head NULL).
    by apply last_elem_of.
Qed.

Lemma part000_loop_fault o head empty :
  ∀ es m fuel safe,
    queue m head es → str_at m empty = Some [] → (empty ∉ map e_val es) →
    (length es < fuel)%nat →
    (es ≠ [] → safe = hd head (map e_addr (tl es))) →
    Part000.q_delete_dup_loop fuel head (hd head (map e_addr es)) safe head empty
      (State m o) = Fault ∨
    ∃ m' es', Part000.q_delete_dup_loop fuel head (hd head (map e_addr es)) safe head empty
                (State m o) = Done head (State m' o) ∧ queue m' head es'.
Proof.
  induction es as [|e rest IH]; intros m fuel safe Hq Hempty Hnotin Hf Hsafe;
    (destruct fuel as [|fuel]; [simpl in Hf; lia|]).
  { right. exists m, []. cbn [Part000.q_delete_dup_loop hd map].
    rewrite N.eqb_refl. by split. }
  simpl in Hf. specialize (Hsafe ltac:(done)). simpl in Hsafe. subst safe.
  pose proof Hq as (Hh & _).
  cbn [Part000.q_delete_dup_loop hd map].
  destruct (N.eqb_spec (e_addr e) head) as [E|_].
  { apply (queue_elem_not_head _ _ _ _ Hq) in E; [done | set_solver]. }
  destruct (queue_owns _ _ _ e Hq ltac:(set_solver)) as (He0 & Hev0 & Heval & Hestr).
  rewrite (bind_done _ _ _ _ _ (load_value_run _ _ _ _ Heval)).
  rewrite (bind_done _ _ _ _ _ (strcmp_at_run _ _ _ _ _ _ Hestr Hempty)).
  assert (negb (head =? NULL) = true) as Hnn by (by destruct (N.eqb_spec head NULL)).
  destruct (Z.eqb_spec (strcmp (e_str e) []) 0) as [Hc|Hc].
  - destruct (N.eqb_spec head NULL) as [|_]; [done|].
    destruct (delete_element_run m o head [] e rest Hq) as [Hdel Hq1].
    cbn [app map List.last hd] in Hdel, Hq1.
    erewrite bind_done;
      [|erewrite bind_done; [|reflexivity];
        erewrite bind_done; [|exact Hdel]; reflexivity].
    cbn beta iota.
    destruct (queue_next_next _ head [] rest Hq1) as (n' & Hn' & Hn'').
    rewrite (bind_done _ _ _ _ _ (load_next_run _ _ _ _ Hn')).
    apply IH; [done| | |lia|done].
    + rewrite !str_at_delete_ne, unlinked_str_at; [done|..].
      * intros E. apply Hnotin. rewrite E. set_solver.
      * intros E. rewrite E in Hempty.
        assert (is_Some (chars m (e_addr e))) as Hc'.
        { unfold str_at in Hempty. destruct (chars m (e_addr e)); [by eauto|done]. }
        rewrite (node_not_chars m (e_addr e)) in Hc'; [by destruct Hc'|].
        by eapply val_node.
    + intros Hin. apply Hnotin. set_solver.
  - left. apply bind_fault.
    rewrite (bind_done _ _ _ _ _ (load_value_run _ _ _ _ Heval)).
    apply bind_fault. rewrite Hnn. apply bind_fault.
    by eapply delete_element_sentinel.
Qed.

Lemma part000_q_delete_dup_fault m o head empty e es fuel :
  queue m head (e :: es) → e_str e = [] →
  str_at m empty = Some [] → (empty ∉ map e_val (e :: es)) →
  (length es + 1 < fuel)%nat →
  Part000.q_delete_dup fuel empty head (State m o) = Fault.
Proof.
  intros Hq He Hempty Hnotin Hf. pose proof Hq as (Hh & _).
  unfold Part000.q_delete_dup. destruct (N.eqb_spec head NULL) as [|_]; [done|].
  rewrite (bind_done _ _ _ _ _ (load_next_run _ _ _ _ (queue_first _ _ _ Hq))).
  destruct (queue_next_next m head [] (e :: es) Hq) as (n' & Hn' & Hn'').
  rewrite (bind_done _ _ _ _ _ (load_next_run _ _ _ _ Hn')).
  specialize (Hn'' ltac:(done)). simpl in Hn''. subst n'.
  destruct fuel as [|fuel]; [lia|].
  cbn [hd map].
  assert (e_addr e ≠ head) as Heh.
  { apply (queue_elem_not_head _ _ _ _ Hq). set_solver. }
  destruct (queue_owns _ _ _ e Hq ltac:(set_solver)) as (He0 & Hev0 & Heval & Hestr).
  assert (Part000.q_delete_dup_loop (S fuel) head (e_addr e) (hd head (map e_addr es))
            NULL empty (State m o) = Fault ∨
          ∃ m' es', Part000.q_delete_dup_loop (S fuel) head (e_addr e)
                      (hd head (map e_addr es)) NULL empty (State m o) =
                      Done head (State m' o) ∧ queue m' head es') as Hloop.
  { cbn [Part000.q_delete_dup_loop].
    destruct (N.eqb_spec (e_addr e) head) as [|_]; [done|].
    rewrite (bind_done _ _ _ _ _ (load_value_run _ _ _ _ Heval)).
    rewrite (bind_done _ _ _ _ _ (strcmp_at_run _ _ _ _ _ _ Hestr Hempty)).
    rewrite He. cbn [strcmp Z.eqb]. rewrite N.eqb_refl.
    destruct (delete_element_run m o head [] e es Hq) as [Hdel Hq1].
    cbn [app map List.last hd] in Hdel, Hq1.
    pose proof (proj2 (ring_at_head _ _ _ (queue_ring _ _ _ Hq))) as Hprev.
    cbn [map] in Hprev.
    assert (prv m (e_addr e) = Some head) as Hpe.
    { apply (queue_ring) in Hq. apply (ring_at m head [] (e_addr e) (map e_addr es)) in Hq.
      by destruct Hq as (_ & ? & _). }
    erewrite bind_done;
      [|erewrite bind_done; [|exact (load_prev_run _ _ _ _ Hpe)];
        erewrite bind_done; [|exact Hdel]; reflexivity].
    cbn beta iota.
    destruct (queue_next_next _ head [] es Hq1) as (n2 & Hn2 & Hn2').
    rewrite (bind_done _ _ _ _ _ (load_next_run _ _ _ _ Hn2)).
    apply part000_loop_fault; [done| | |lia|done].
    - rewrite !str_at_delete_ne, unlinked_str_at; [done|..].
      + intros E. apply Hnotin. rewrite E. set_solver.
      + intros E. rewrite E in Hempty.
        assert (is_Some (chars m (e_addr e))) as Hc'.
        { unfold str_at in Hempty. destruct (chars m (e_addr e)); [by eauto|done]. }
        rewrite (node_not_chars m (e_addr e)) in Hc'; [by destruct Hc'|].
        by eapply val_node.
    - intros Hin. apply Hnotin. set_solver. }
  destruct Hloop as [Hfault|(m' & es' & Hdone & Hq')].
  - by apply bind_fault.
  - rewrite (bind_done _ _ _ _ _ Hdone).
    destruct (N.eqb_spec head NULL) as [|_]; [done|]. cbn [negb].
    apply bind_fault. by eapply delete_element_sentinel.
Qed.
End part000.

(** * The queue operations, as specified *)

(** C1: on a well-formed queue, sorted or not, [q_delete_dup] returns
    true and leaves exactly the elements whose payload differs from the
    payloads of both immediate neighbours, in their original order, so
    every member of a run of two or more equal adjacent payloads is
    removed; it returns false on a null list, and on a non-null empty
    list it returns true and changes nothing. *)
Theorem q_delete_dup_removes_runs (m : gmap N block) (o : list bool) (head : N)
    (es : list elem) (fuel : nat) :
  queue m head es → (length es < fuel)%nat →
  q_delete_dup fuel NULL (State m o) = Done false (State m o) ∧
  ∃ m', q_delete_dup fuel head (State m o) = Done true (State m' o) ∧
        queue m' head (unique_among_neighbours None es) ∧
        sublist (unique_among_neighbours None es) es ∧
        (es = [] → m' = m).
Proof.
  intros Hq Hf. split; [done|].
  destruct (q_delete_dup_run m o head es fuel Hq Hf) as (m' & Hrun & Hq').
  rewrite (dedup_from_spec None false es) in Hq'.
  - exists m'. split_and!; [done..| |].
    + clear. generalize (@None (list byte)).
      induction es as [|e rest IH]; intros prev; [done|].
      cbn [unique_among_neighbours].
      destruct (_ || _); simpl; [apply sublist_cons | apply sublist_skip]; apply IH.
    + intros ->. pose proof Hq as (Hh & _).
      pose proof (queue_first _ _ _ Hq) as Hn. simpl in Hn.
      unfold q_delete_dup in Hrun. destruct (N.eqb_spec head NULL) as [|_]; [done|].
      rewrite (bind_done _ _ _ _ _ (load_next_run _ _ _ _ Hn)) in Hrun.
      rewrite (bind_done _ _ _ _ _ (load_next_run _ _ _ _ Hn)) in Hrun.
      destruct fuel as [|fuel]; [simpl in Hf; lia|].
      cbn [q_delete_dup_loop] in Hrun. rewrite N.eqb_refl in Hrun.
      by injection Hrun as <-.
  - by eapply queue_nul_free.
  - by intros e _.
Qed.

Lemma q_delete_dup_removes_runs_witness :
  let strs := [[x61]; [x61]; [x62]; [x63]; [x63]; [x63]; [x64]] in
  let m := example_mem strs in
  queue m 1 (example_elems strs) ∧ (length (example_elems strs) < 10)%nat ∧
  ∃ m', q_delete_dup 10 1 (State m []) = Done true (State m' []) ∧
        queue m' 1 (unique_among_neighbours None (example_elems strs)) ∧
        payloads (unique_among_neighbours None (example_elems strs)) = [[x62]; [x64]].
Proof.
  intros strs m.
  assert (queue m 1 (example_elems strs)) as Hq
    by (apply (bool_decide_unpack _); vm_compute; exact I).
  assert (length (example_elems strs) < 10)%nat as Hf by (simpl; lia).
  split; [exact Hq|]. split; [exact Hf|].
  destruct (q_delete_dup_removes_runs m [] 1 (example_elems strs) 10 Hq Hf)
    as (_ & m' & Hrun & Hq' & _).
  exists m'. split; [exact Hrun|]. split; [exact Hq'|]. reflexivity.
Defined.

(** C2: on a well-formed queue [q_sort] rearranges the same elements
    into ascending order of their payloads by [strcmp], elements of equal
    payload keeping their relative order; on a null list, and on a queue
    of at most one element, it changes nothing. *)
Theorem q_sort_sorts_stably (m : gmap N block) (o : list bool) (head : N)
    (es : list elem) (fuel : nat) :
  queue m head es → (length es + 1 < fuel)%nat →
  q_sort fuel NULL (State m o) = Done tt (State m o) ∧
  ∃ m' es', q_sort fuel head (State m o) = Done tt (State m' o) ∧
            queue m' head es' ∧
            es' ≡ₚ es ∧ payloads es' ≡ₚ payloads es ∧
            StronglySorted elem_le es' ∧
            (∀ s, with_payload s es' = with_payload s es) ∧
            ((length es ≤ 1)%nat → m' = m ∧ es' = es).
Proof.
  intros Hq Hf. split; [done|].
  destruct (q_sort_run m o head es fuel Hq Hf) as (m' & es' & Hrun & Hq' & (Hp & Hs & Hst) & Hsmall).
  exists m', es'. split_and!; [done..| by apply Permutation_map |done|done|].
  intros Hle. split; [by apply Hsmall|].
  destruct es as [|e [|e2 rest]]; [| |simpl in Hle; lia].
  - by apply Permutation_nil_r.
  - by apply Permutation_singleton_r.
Qed.

Lemma q_sort_sorts_stably_witness :
  let strs := [[x62]; [x61]; [x63]; [x61]] in
  let m := example_mem strs in
  queue m 1 (example_elems strs) ∧ (length (example_elems strs) + 1 < 10)%nat ∧
  ∃ m' es', q_sort 10 1 (State m []) = Done tt (State m' []) ∧
            queue m' 1 es' ∧ es' ≡ₚ example_elems strs ∧ StronglySorted elem_le es' ∧
            with_payload [x61] es' = [Elem 4 5 [x61]; Elem 8 9 [x61]].
Proof.
  intros strs m.
  assert (queue m 1 (example_elems strs)) as Hq
    by (apply (bool_decide_unpack _); vm_compute; exact I).
  assert (length (example_elems strs) + 1 < 10)%nat as Hf by (simpl; lia).
  split; [exact Hq|]. split; [exact Hf|].
  destruct (q_sort_sorts_stably m [] 1 (example_elems strs) 10 Hq Hf)
    as (_ & m' & es' & Hrun & Hq' & Hp & _ & Hs & Hst & _).
  exists m', es'. split; [exact Hrun|]. split; [exact Hq'|]. split; [exact Hp|].
  split; [exact Hs|]. rewrite Hst. reflexivity.
Defined.

(** C3: on a well-formed queue of [n > 0] elements [q_delete_mid]
    returns true, unlinks the element of index [n / 2] counted from 0 and
    frees it and its string, leaving the [n - 1] others in their order;
    on a null list and on an empty queue it returns false and changes
    nothing. *)
Theorem q_delete_mid_deletes_middle (m : gmap N block) (o : list bool) (head : N)
    (es : list elem) (fuel : nat) :
  queue m head es → (length es < 2 * fuel)%nat →
  q_delete_mid fuel NULL (State m o) = Done false (State m o) ∧
  (es = [] → q_delete_mid fuel head (State m o) = Done false (State m o)) ∧
  (es ≠ [] →
   ∃ m', q_delete_mid fuel head (State m o) = Done true (State m' o) ∧
         queue m' head (delete (length es / 2)%nat es) ∧
         length (delete (length es / 2)%nat es) = (length es - 1)%nat ∧
         ∃ e, es !! (length es / 2)%nat = Some e ∧
              m' !! e_addr e = None ∧ m' !! e_val e = None).
Proof.
  intros Hq Hf. split; [done|]. split.
  - intros ->. by apply q_delete_mid_empty.
  - intros Hne.
    destruct (q_delete_mid_run m o head es fuel Hq Hne Hf) as (m' & Hrun & Hq' & Hfreed).
    assert ((length es / 2 < length es)%nat) as Hk.
    { apply Nat.div_lt; [|lia]. destruct es; [done|simpl; lia]. }
    destruct (lookup_lt_is_Some_2 es _ Hk) as [e He].
    exists m'. rewrite delete_take_drop. split_and!; [done..| |].
    + rewrite <- delete_take_drop. rewrite length_delete by eauto. done.
    + exists e. split; [done|]. by apply Hfreed.
Qed.

Lemma q_delete_mid_deletes_middle_witness :
  let strs := [[x41]; [x42]; [x43]; [x44]; [x45]; [x46]] in
  let m := example_mem strs in
  queue m 1 (example_elems strs) ∧ (length (example_elems strs) < 2 * 10)%nat ∧
  ∃ m', q_delete_mid 10 1 (State m []) = Done true (State m' []) ∧
        queue m' 1 (delete 3%nat (example_elems strs)) ∧
        payloads (delete 3%nat (example_elems strs)) = [[x41]; [x42]; [x43]; [x45]; [x46]].
Proof.
  intros strs m.
  assert (queue m 1 (example_elems strs)) as Hq
    by (apply (bool_decide_unpack _); vm_compute; exact I).
  assert (length (example_elems strs) < 2 * 10)%nat as Hf by (simpl; lia).
  split; [exact Hq|]. split; [exact Hf|].
  destruct (q_delete_mid_deletes_middle m [] 1 (example_elems strs) 10 Hq Hf)
    as (_ & _ & Hrun).
  destruct (Hrun ltac:(discriminate)) as (m' & Hrun' & Hq' & _).
  exists m'. split; [exact Hrun'|]. split; [exact Hq'|]. reflexivity.
Defined.

(** C4, as the spec words it, does not hold: a queue of one element is a
    ring of two nodes, so one step from the sentinel reaches the element,
    not the sentinel.  Inserting into an empty queue, for which the
    worded invariant holds with size 0, gives a queue of size 1 for which
    it fails. *)
Lemma closed_ring_as_claimed_broken_by_insert :
  let m := example_mem_with [] 100 [x61; x00] in
  queue m 1 [] ∧ closed_ring_as_claimed m 1 0 ∧
  ∃ m', q_insert_head 1 100 (State m []) = Done true (State m' []) ∧
        q_size 10 1 (State m' []) = Done 1%Z (State m' []) ∧
        ¬ closed_ring_as_claimed m' 1 1.
Proof.
  intros m.
  assert (queue m 1 []) as Hq by (apply (bool_decide_unpack _); vm_compute; exact I).
  split; [exact Hq|]. split.
  { split; [reflexivity|]. by destruct (queue_closed_ring m 1 [] Hq) as (_ & _ & Hw). }
  eexists. split; [vm_compute; reflexivity|]. split; [vm_compute; reflexivity|].
  intros [Hf _]. vm_compute in Hf. discriminate Hf.
Qed.

(** C4, amended: every operation called on a well-formed queue returns
    and leaves a well-formed queue, and a well-formed queue of [size]
    elements is a closed ring: [size + 1] steps along [next] from the
    sentinel lead back to the sentinel and no fewer do, and every node
    reached has non-null [next] and [prev] with
    [node->next->prev == node] and [node->prev->next == node]. *)
Theorem calls_keep_closed_ring (m : gmap N block) (o : list bool) (head : N)
    (es : list elem) (c : call) (fuel : nat) :
  queue m head es → call_ok m es c → (length es + 1 < fuel)%nat →
  closed_ring m head (length es) ∧
  ∃ m' o' es', run_call fuel head c (State m o) = Done tt (State m' o') ∧
               queue m' head es' ∧ closed_ring m' head (length es').
Proof.
  intros Hq Hok Hf. split; [by apply queue_closed_ring|].
  assert (∃ m' o' es', run_call fuel head c (State m o) = Done tt (State m' o') ∧
                       queue m' head es') as (m' & o' & es' & Hrun & Hq');
    [|exists m', o', es'; split_and!; [done..|by apply queue_closed_ring]].
  pose proof Hq as (Hh & _).
  destruct c as [s|s|sp bufsize|sp bufsize| | | | | |]; simpl in Hok; cbn [run_call].
  - destruct (q_insert_head_total m o head es s Hq Hok) as (b & m' & o' & es' & Hrun & Hq' & _).
    exists m', o', es'. by rewrite (bind_done _ _ _ _ _ Hrun).
  - destruct (q_insert_tail_total m o head es s Hq Hok) as (b & m' & o' & es' & Hrun & Hq' & _).
    exists m', o', es'. by rewrite (bind_done _ _ _ _ _ Hrun).
  - destruct es as [|e rest].
    + exists m, o, []. by rewrite (bind_done _ _ _ _ _ (q_remove_head_empty _ _ _ _ _ Hq)).
    + destruct (q_remove_head_run m o head e rest sp bufsize Hq Hok) as (m' & Hrun & Hq' & _).
      exists m', o, rest. by rewrite (bind_done _ _ _ _ _ Hrun).
  - destruct (decide (es = [])) as [->|Hne].
    + exists m, o, []. by rewrite (bind_done _ _ _ _ _ (q_remove_tail_empty _ _ _ _ _ Hq)).
    + destruct (exists_last Hne) as (rest & e & ->).
      destruct (q_remove_tail_run m o head e rest sp bufsize Hq Hok) as (m' & Hrun & Hq' & _).
      exists m', o, rest. by rewrite (bind_done _ _ _ _ _ Hrun).
  - destruct (q_size_total m o head es fuel Hq ltac:(lia)) as (z & Hrun).
    exists m, o, es. by rewrite (bind_done _ _ _ _ _ Hrun).
  - destruct (decide (es = [])) as [->|Hne].
    + exists m, o, []. by rewrite (bind_done _ _ _ _ _ (q_delete_mid_empty _ _ _ _ Hq)).
    + destruct (q_delete_mid_run m o head es fuel Hq Hne ltac:(lia)) as (m' & Hrun & Hq' & _).
      eexists m', o, _. by rewrite (bind_done _ _ _ _ _ Hrun).
  - destruct (q_delete_dup_run m o head es fuel Hq ltac:(lia)) as (m' & Hrun & Hq').
    eexists m', o, _. by rewrite (bind_done _ _ _ _ _ Hrun).
  - destruct (q_swap_run m o head es fuel Hq ltac:(lia)) as (m' & Hrun & Hq' & _).
    by eexists m', o, _.
  - destruct (q_reverse_run m o head es fuel Hq ltac:(lia)) as (m' & Hrun & Hq' & _).
    by eexists m', o, _.
  - destruct (q_sort_run m o head es fuel Hq Hf) as (m' & es' & Hrun & Hq' & _).
    by exists m', o, es'.
Qed.

Lemma calls_keep_closed_ring_witness :
  let strs := [[x62]; [x61]] in
  let m := example_mem_with strs 100 [x63; x00] in
  queue m 1 (example_elems strs) ∧ call_ok m (example_elems strs) (InsertHead 100) ∧
  (length (example_elems strs) + 1 < 10)%nat ∧
  closed_ring m 1 (length (example_elems strs)) ∧
  ∃ m' o' es', run_call 10 1 (InsertHead 100) (State m []) = Done tt (State m' o') ∧
               queue m' 1 es' ∧ closed_ring m' 1 (length es').
Proof.
  intros strs m.
  assert (queue m 1 (example_elems strs)) as Hq
    by (apply (bool_decide_unpack _); vm_compute; exact I).
  assert (call_ok m (example_elems strs) (InsertHead 100)) as Hok.
  { right. exists [x63]. split; [vm_compute; reflexivity | vm_compute; reflexivity]. }
  assert (length (example_elems strs) + 1 < 10)%nat as Hf by (simpl; lia).
  split; [exact Hq|]. split; [exact Hok|]. split; [exact Hf|].
  exact (calls_keep_closed_ring m [] 1 (example_elems strs) (InsertHead 100) 10 Hq Hok Hf).
Defined.

(** C5: on a well-formed queue [q_reverse] puts the elements in the
    reverse order, and applied twice it puts them back in the original
    order; on a null list, and on a queue of at most one element, it
    changes nothing. *)
Theorem q_reverse_twice (m : gmap N block) (o : list bool) (head : N)
    (es : list elem) (fuel : nat) :
  queue m head es → (length es < fuel)%nat →
  q_reverse fuel NULL (State m o) = Done tt (State m o) ∧
  ∃ m' m'', q_reverse fuel head (State m o) = Done tt (State m' o) ∧
            queue m' head (rev es) ∧
            q_reverse fuel head (State m' o) = Done tt (State m'' o) ∧
            queue m'' head es ∧
            ((length es ≤ 1)%nat → m' = m).
Proof.
  intros Hq Hf. split; [done|].
  destruct (q_reverse_run m o head es fuel Hq Hf) as (m' & Hrun & Hq' & Hsmall).
  destruct (q_reverse_run m' o head (rev es) fuel Hq') as (m'' & Hrun' & Hq'' & _).
  { by rewrite length_rev. }
  rewrite rev_involutive in Hq''. by exists m', m''.
Qed.

Lemma q_reverse_twice_witness :
  let strs := [[x41]; [x42]; [x43]] in
  let m := example_mem strs in
  queue m 1 (example_elems strs) ∧ (length (example_elems strs) < 10)%nat ∧
  ∃ m' m'', q_reverse 10 1 (State m []) = Done tt (State m' []) ∧
            queue m' 1 (rev (example_elems strs)) ∧
            payloads (rev (example_elems strs)) = [[x43]; [x42]; [x41]] ∧
            q_reverse 10 1 (State m' []) = Done tt (State m'' []) ∧
            queue m'' 1 (example_elems strs).
Proof.
  intros strs m.
  assert (queue m 1 (example_elems strs)) as Hq
    by (apply (bool_decide_unpack _); vm_compute; exact I).
  assert (length (example_elems strs) < 10)%nat as Hf by (simpl; lia).
  split; [exact Hq|]. split; [exact Hf|].
  destruct (q_reverse_twice m [] 1 (example_elems strs) 10 Hq Hf)
    as (_ & m' & m'' & Hrun & Hq' & Hrun' & Hq'' & _).
  exists m', m''. split; [exact Hrun|]. split; [exact Hq'|]. split; [reflexivity|].
  split; [exact Hrun'|exact Hq''].
Defined.

(** C6: on a well-formed queue [q_swap] exchanges the elements of
    indices [2i] and [2i + 1] for every pair inside the list and leaves
    the last element of a list of odd length where it is, so [A,B,C,D]
    becomes [B,A,D,C] and [A,B,C] becomes [B,A,C]; on a list of even
    length a second call restores the original order; on a null list,
    and on a queue of at most one element, it changes nothing. *)
Theorem q_swap_exchanges_pairs (m : gmap N block) (o : list bool) (head : N)
    (es : list elem) (fuel : nat) :
  queue m head es → (length es < 2 * fuel)%nat →
  q_swap fuel NULL (State m o) = Done tt (State m o) ∧
  ∃ m' es', q_swap fuel head (State m o) = Done tt (State m' o) ∧
            queue m' head es' ∧ length es' = length es ∧
            (∀ i, (2 * i + 1 < length es)%nat →
                  es' !! (2 * i)%nat = es !! (2 * i + 1)%nat ∧
                  es' !! (2 * i + 1)%nat = es !! (2 * i)%nat) ∧
            (Nat.Odd (length es) →
             es' !! (length es - 1)%nat = es !! (length es - 1)%nat) ∧
            (∀ a b c d, es = [a; b; c; d] → es' = [b; a; d; c]) ∧
            (∀ a b c, es = [a; b; c] → es' = [b; a; c]) ∧
            (Nat.Even (length es) →
             ∃ m'', q_swap fuel head (State m' o) = Done tt (State m'' o) ∧
                    queue m'' head es) ∧
            ((length es ≤ 1)%nat → m' = m ∧ es' = es).
Proof.
  intros Hq Hf. split; [done|].
  destruct (q_swap_run m o head es fuel Hq Hf) as (m' & Hrun & Hq' & Hsmall).
  exists m', (swap_pairs es). split_and!; [done..| | | | | | |].
  - apply swap_pairs_length.
  - apply swap_pairs_lookup.
  - apply swap_pairs_odd_last.
  - by intros a b c d ->.
  - by intros a b c ->.
  - intros Hev.
    destruct (q_swap_run m' o head (swap_pairs es) fuel Hq') as (m'' & Hrun' & Hq'' & _).
    { by rewrite swap_pairs_length. }
    rewrite swap_pairs_even_involutive in Hq'' by done. by exists m''.
  - intros Hle. split; [by apply Hsmall|].
    by destruct es as [|e [|e2 rest]]; [| |simpl in Hle; lia].
Qed.

Lemma q_swap_exchanges_pairs_witness :
  let strs := [[x41]; [x42]; [x43]; [x44]] in
  let m := example_mem strs in
  queue m 1 (example_elems strs) ∧ (length (example_elems strs) < 2 * 10)%nat ∧
  ∃ m' es', q_swap 10 1 (State m []) = Done tt (State m' []) ∧
            queue m' 1 es' ∧ payloads es' = [[x42]; [x41]; [x44]; [x43]].
Proof.
  intros strs m.
  assert (queue m 1 (example_elems strs)) as Hq
    by (apply (bool_decide_unpack _); vm_compute; exact I).
  assert (length (example_elems strs) < 2 * 10)%nat as Hf by (simpl; lia).
  split; [exact Hq|]. split; [exact Hf|].
  destruct (q_swap_exchanges_pairs m [] 1 (example_elems strs) 10 Hq Hf)
    as (_ & m' & es' & Hrun & Hq' & _ & _ & _ & H4 & _).
  exists m', es'. split; [exact Hrun|]. split; [exact Hq'|].
  rewrite (H4 _ _ _ _ eq_refl). reflexivity.
Defined.

(** C7: [q_insert_head] and [q_insert_tail], given a C string, return
    false on a null list, and on a well-formed queue when the allocation
    of the element or of its string fails; the memory is then exactly the
    one before the call, the element allocated before a failed string
    allocation being freed.  When both allocations succeed they return
    true and the queue has one new element, first (respectively last),
    at fresh addresses and holding a copy of the string. *)
Theorem q_insert_outcomes (m : gmap N block) (o : list bool) (head : N)
    (es : list elem) (s : N) (str : list byte) :
  queue m head es → s ≠ NULL → str_at m s = Some str →
  N.of_nat (length str) + 1 < SIZE_MOD →
  let o1 := (pop_outcome o).2 in
  let o2 := (pop_outcome o1).2 in
  (q_insert_head NULL s (State m o) = Done false (State m o) ∧
   q_insert_tail NULL s (State m o) = Done false (State m o)) ∧
  ((pop_outcome o).1 = false →
   q_insert_head head s (State m o) = Done false (State m o1) ∧
   q_insert_tail head s (State m o) = Done false (State m o1)) ∧
  ((pop_outcome o).1 = true → (pop_outcome o1).1 = false →
   q_insert_head head s (State m o) = Done false (State m o2) ∧
   q_insert_tail head s (State m o) = Done false (State m o2)) ∧
  ((pop_outcome o).1 = true → (pop_outcome o1).1 = true →
   (∃ m' p v, q_insert_head head s (State m o) = Done true (State m' o2) ∧
              queue m' head (Elem p v str :: es) ∧
              m !! p = None ∧ m !! v = None) ∧
   (∃ m' p v, q_insert_tail head s (State m o) = Done true (State m' o2) ∧
              queue m' head (es ++ [Elem p v str]) ∧
              m !! p = None ∧ m !! v = None)).
Proof.
  intros Hq Hs Hstr Hlen o1 o2. pose proof Hq as (Hh & _). split_and!; [done..| | |].
  - intros Ho. unfold q_insert_head, q_insert_tail.
    destruct (N.eqb_spec head NULL) as [|_]; [done|].
    split; by rewrite (bind_done _ _ _ _ _ (q_insert_run_fail1 m o NULL s Hs Ho)).
  - intros Ho Ho1. unfold q_insert_head, q_insert_tail.
    destruct (N.eqb_spec head NULL) as [|_]; [done|].
    split; by rewrite (bind_done _ _ _ _ _
                         (q_insert_run_fail2 m o NULL s str Hs Hstr ltac:(lia) Ho Ho1)).
  - intros Ho Ho1. split.
    + destruct (q_insert_head_ok m o head es s str Hq Hs Hstr Hlen Ho Ho1)
        as (m' & p & v & Hrun & Hq' & Hp & Hv & _).
      by exists m', p, v.
    + destruct (q_insert_tail_ok m o head es s str Hq Hs Hstr Hlen Ho Ho1)
        as (m' & p & v & Hrun & Hq' & Hp & Hv & _).
      by exists m', p, v.
Qed.

Lemma q_insert_outcomes_witness :
  let strs := [[x61]; [x62]] in
  let m := example_mem_with strs 100 [x68; x69; x00] in
  (queue m 1 (example_elems strs) ∧ 100 ≠ NULL ∧ str_at m 100 = Some [x68; x69] ∧
   N.of_nat (length [x68; x69]) + 1 < SIZE_MOD) ∧
  q_insert_head 1 100 (State m [false]) = Done false (State m []) ∧
  q_insert_tail 1 100 (State m [true; false]) = Done false (State m []) ∧
  ∃ m' p v, q_insert_tail 1 100 (State m []) = Done true (State m' []) ∧
            queue m' 1 (example_elems strs ++ [Elem p v [x68; x69]]).
Proof.
  intros strs m.
  assert (queue m 1 (example_elems strs)) as Hq
    by (apply (bool_decide_unpack _); vm_compute; exact I).
  assert (100 ≠ NULL) as Hs by (vm_compute; discriminate).
  assert (str_at m 100 = Some [x68; x69]) as Hstr by (vm_compute; reflexivity).
  assert (N.of_nat (length [x68; x69]) + 1 < SIZE_MOD) as Hlen by (vm_compute; reflexivity).
  split; [by split_and!|].
  split_and!.
  - destruct (q_insert_outcomes m [false] 1 (example_elems strs) 100 [x68; x69]
                Hq Hs Hstr Hlen) as (_ & Hfail & _).
    exact (proj1 (Hfail eq_refl)).
  - destruct (q_insert_outcomes m [true; false] 1 (example_elems strs) 100 [x68; x69]
                Hq Hs Hstr Hlen) as (_ & _ & Hfail & _).
    exact (proj2 (Hfail eq_refl eq_refl)).
  - destruct (q_insert_outcomes m [] 1 (example_elems strs) 100 [x68; x69] Hq Hs Hstr Hlen)
      as (_ & _ & _ & Hok).
    destruct (Hok eq_refl eq_refl) as (_ & m' & p & v & Hrun & Hq' & _).
    exists m', p, v. split; [exact Hrun | exact Hq'].
Defined.

(** C8: [q_remove_head] and [q_remove_tail] return null, changing
    nothing, on a null list and on an empty queue; on a queue that has
    elements they unlink the first (respectively last) one and return its
    non-null address, the element keeping its string, and when the buffer
    is non-null with a capacity above zero the buffer, whose size is
    unchanged, then holds the first [capacity - 1] bytes of the string
    (all of it when it is shorter) followed by the terminator. *)
Theorem q_remove_outcomes (m : gmap N block) (o : list bool) (head : N)
    (es : list elem) (sp bufsize : N) :
  queue m head es → buffer_ok m sp bufsize es →
  (q_remove_head NULL sp bufsize (State m o) = Done NULL (State m o) ∧
   q_remove_tail NULL sp bufsize (State m o) = Done NULL (State m o)) ∧
  (es = [] →
   q_remove_head head sp bufsize (State m o) = Done NULL (State m o) ∧
   q_remove_tail head sp bufsize (State m o) = Done NULL (State m o)) ∧
  (∀ e rest, es = e :: rest →
     ∃ m', q_remove_head head sp bufsize (State m o) = Done (e_addr e) (State m' o) ∧
           e_addr e ≠ NULL ∧ queue m' head rest ∧ owns m' e ∧
           (sp ≠ NULL → bufsize ≠ 0 →
            ∃ d d', chars m sp = Some d ∧ chars m' sp = Some d' ∧ length d' = length d ∧
                    cstr d' = Some (take (N.to_nat (bufsize - 1)) (e_str e)))) ∧
  (∀ e rest, es = rest ++ [e] →
     ∃ m', q_remove_tail head sp bufsize (State m o) = Done (e_addr e) (State m' o) ∧
           e_addr e ≠ NULL ∧ queue m' head rest ∧ owns m' e ∧
           (sp ≠ NULL → bufsize ≠ 0 →
            ∃ d d', chars m sp = Some d ∧ chars m' sp = Some d' ∧ length d' = length d ∧
                    cstr d' = Some (take (N.to_nat (bufsize - 1)) (e_str e)))).
Proof.
  intros Hq Hbuf. pose proof Hq as (Hh & _).
  assert (∀ e m' , e ∈ es →
            (sp ≠ NULL → bufsize ≠ 0 →
             ∃ d, chars m sp = Some d ∧ chars m' sp = Some (copied d (e_str e) bufsize)) →
            sp ≠ NULL → bufsize ≠ 0 →
            ∃ d d', chars m sp = Some d ∧ chars m' sp = Some d' ∧ length d' = length d ∧
                    cstr d' = Some (take (N.to_nat (bufsize - 1)) (e_str e))) as Hcopy.
  { intros e m' He Hc Hsp Hbs. destruct (Hc Hsp Hbs) as (d & Hd & Hd').
    destruct Hbuf as (_ & [?|[?|(d0 & Hd0 & Hcap & _)]]); [done..|].
    assert (d0 = d) as -> by congruence.
    exists d, (copied d (e_str e) bufsize). split_and!; [done..| |].
    - apply length_copied. lia.
    - apply cstr_copied; [|lia|done].
      pose proof (queue_nul_free _ _ _ Hq) as Hnf.
      by apply (proj1 (Forall_forall _ _) Hnf). }
  split_and!; [done..| | |].
  - intros ->. split; [by apply q_remove_head_empty | by apply q_remove_tail_empty].
  - intros e rest ->.
    destruct (q_remove_head_run m o head e rest sp bufsize Hq Hbuf) as (m' & Hrun & Hq' & Ho & Hc).
    exists m'. split_and!; [done|by destruct Ho|done..|].
    apply Hcopy; [set_solver|done].
  - intros e rest ->.
    destruct (q_remove_tail_run m o head e rest sp bufsize Hq Hbuf) as (m' & Hrun & Hq' & Ho & Hc).
    exists m'. split_and!; [done|by destruct Ho|done..|].
    apply Hcopy; [set_solver|done].
Qed.

Lemma q_remove_outcomes_witness :
  let strs := [[x68; x65; x6c; x6c; x6f]; [x61]] in
  let m := example_mem_with strs 100 [x2e; x2e; x2e; x2e] in
  (queue m 1 (example_elems strs) ∧ buffer_ok m 100 3 (example_elems strs)) ∧
  ∃ m', q_remove_head 1 100 3 (State m []) = Done 2 (State m' []) ∧
        queue m' 1 [Elem 4 5 [x61]] ∧
        owns m' (Elem 2 3 [x68; x65; x6c; x6c; x6f]) ∧
        ∃ d', chars m' 100 = Some d' ∧ length d' = 4%nat ∧ cstr d' = Some [x68; x65].
Proof.
  intros strs m.
  assert (queue m 1 (example_elems strs)) as Hq
    by (apply (bool_decide_unpack _); vm_compute; exact I).
  assert (buffer_ok m 100 3 (example_elems strs)) as Hbuf.
  { split; [vm_compute; reflexivity|]. right. right. exists [x2e; x2e; x2e; x2e].
    split; [vm_compute; reflexivity|]. split; [vm_compute; lia|].
    apply (bool_decide_unpack _). vm_compute. exact I. }
  split; [by split|].
  destruct (q_remove_outcomes m [] 1 (example_elems strs) 100 3 Hq Hbuf) as (_ & _ & Hhead & _).
  destruct (Hhead _ _ eq_refl) as (m' & Hrun & _ & Hq' & Ho & Hc).
  destruct (Hc ltac:(vm_compute; discriminate) ltac:(vm_compute; discriminate))
    as (d & d' & Hd & Hd' & Hlen & Hstr).
  exists m'. split; [exact Hrun|]. split; [exact Hq'|]. split; [exact Ho|].
  exists d'. split; [exact Hd'|]. split; [|exact Hstr].
  rewrite Hlen. vm_compute in Hd. by injection Hd as <-.
Defined.

(** C9: [q_size] returns 0 on a null list; after any sequence of
    insertions and removals on a well-formed queue, whatever the
    allocator does, the queue is well formed, the operations have
    returned, and [q_size] returns the number of its elements without
    changing anything, as long as that number fits an [int]; this number
    is also the number of steps along [next] from the first element to
    the sentinel. *)
Theorem q_size_counts_elements (m : gmap N block) (o : list bool) (head : N)
    (es : list elem) (us : list update) (fuel : nat) :
  queue m head es → Forall (update_ok m) us →
  q_size fuel NULL (State m o) = Done 0%Z (State m o) ∧
  ∃ m' o' es', run_updates head us (State m o) = Done tt (State m' o') ∧
               queue m' head es' ∧ closed_ring m' head (length es') ∧
               ((length es' < fuel)%nat → (Z.of_nat (length es') ≤ INT_MAX)%Z →
                q_size fuel head (State m' o') =
                  Done (Z.of_nat (length es')) (State m' o')).
Proof.
  intros Hq Hok. split; [done|].
  destruct (run_updates_total head us m o es Hq Hok) as (m' & o' & es' & Hrun & Hq').
  exists m', o', es'. split_and!; [done..|by apply queue_closed_ring|].
  intros Hf Hmax. by apply q_size_run.
Qed.

Lemma q_size_counts_elements_witness :
  let strs := [[x61]] in
  let m := example_mem_with strs 100 [x62; x00] in
  let us := [PushHead 100; PushTail 100; PopHead; PushTail 100] in
  (queue m 1 (example_elems strs) ∧ Forall (update_ok m) us) ∧
  ∃ m' o' es', run_updates 1 us (State m []) = Done tt (State m' o') ∧
               queue m' 1 es' ∧
               ((length es' < 10)%nat → (Z.of_nat (length es') ≤ INT_MAX)%Z →
                q_size 10 1 (State m' o') = Done (Z.of_nat (length es')) (State m' o')).
Proof.
  intros strs m us.
  assert (queue m 1 (example_elems strs)) as Hq
    by (apply (bool_decide_unpack _); vm_compute; exact I).
  assert (string_ok m 100) as Hs.
  { right. exists [x62]. split; vm_compute; reflexivity. }
  assert (Forall (update_ok m) us) as Hok.
  { repeat apply Forall_cons_2; try exact Hs; try exact I. apply Forall_nil_2. }
  split; [by split|].
  destruct (q_size_counts_elements m [] 1 (example_elems strs) us 10 Hq Hok)
    as (_ & m' & o' & es' & Hrun & Hq' & _ & Hsize).
  exists m', o', es'. split; [exact Hrun|]. split; [exact Hq' | exact Hsize].
Defined.

(** C10: with a null string, [q_insert_head] and [q_insert_tail] return
    false on every list, null or not, leaving the memory as it is and
    without a call of the allocator. *)
Theorem q_insert_null_string (m : gmap N block) (o : list bool) (head : N) :
  q_insert_head head NULL (State m o) = Done false (State m o) ∧
  q_insert_tail head NULL (State m o) = Done false (State m o).
Proof.
  unfold q_insert_head, q_insert_tail. by destruct (head =? NULL).
Qed.

(** * More about the code *)

(** X1: [q_new] returns NULL and leaves the memory as it is when the
    allocation fails; when it succeeds it returns a non-null address that
    was free, holding a sentinel linked to itself, which is an empty
    queue, and every queue already in the memory is still one. *)
Theorem q_new_outcomes (m : gmap N block) (o : list bool) :
  ((pop_outcome o).1 = false → q_new (State m o) = Done NULL (State m (pop_outcome o).2)) ∧
  ((pop_outcome o).1 = true →
   ∃ h, q_new (State m o) = Done h (State (<[h := BList h h]> m) (pop_outcome o).2) ∧
        h ≠ NULL ∧ m !! h = None ∧
        queue (<[h := BList h h]> m) h [] ∧
        ∀ head es, queue m head es → queue (<[h := BList h h]> m) head es).
Proof.
  split; [apply q_new_fail|]. intros Ho. exists (fresh_addr m).
  pose proof (fresh_addr_nonnull m) as Hh. pose proof (fresh_addr_free m) as Hfree.
  split_and!; [by apply q_new_run_ok|done|done|by apply queue_new|].
  intros head es Hq. by apply queue_fresh_other.
Qed.

Lemma q_new_outcomes_witness :
  q_new (State (example_mem [[x61]]) [false]) = Done NULL (State (example_mem [[x61]]) []) ∧
  ∃ h, q_new (State (example_mem [[x61]]) [true]) =
         Done h (State (<[h := BList h h]> (example_mem [[x61]])) []) ∧
       h ≠ NULL ∧ example_mem [[x61]] !! h = None ∧
       queue (<[h := BList h h]> (example_mem [[x61]])) h [] ∧
       ∀ head es, queue (example_mem [[x61]]) head es →
                  queue (<[h := BList h h]> (example_mem [[x61]])) head es.
Proof.
  split.
  - exact (proj1 (q_new_outcomes (example_mem [[x61]]) [false]) eq_refl).
  - exact (proj2 (q_new_outcomes (example_mem [[x61]]) [true]) eq_refl).
Defined.

(** X2: [q_free] on a well-formed queue frees the sentinel, every
    element and every string of the queue and leaves every other block
    as it is; on a null list it does nothing. *)
Theorem q_free_releases_queue (m : gmap N block) (o : list bool) (head : N)
    (es : list elem) (fuel : nat) :
  queue m head es → (length es < fuel)%nat →
  q_free fuel NULL (State m o) = Done tt (State m o) ∧
  ∃ m', q_free fuel head (State m o) = Done tt (State m' o) ∧
        ∀ x, m' !! x = if bool_decide (x ∈ blocks_of head es) then None else m !! x.
Proof.
  intros Hq Hf. split; [done|]. eexists. split; [by apply q_free_run|].
  apply lookup_q_free.
Qed.

Lemma q_free_releases_queue_witness :
  let strs := [[x61]; [x62]; [x63]] in
  let m := example_mem_with strs 100 [x7a; x00] in
  (queue m 1 (example_elems strs) ∧ (length (example_elems strs) < 10)%nat) ∧
  ∃ m', q_free 10 1 (State m []) = Done tt (State m' []) ∧
        m' !! 1 = None ∧ m' !! 4 = None ∧ m' !! 5 = None ∧ m' !! 100 = m !! 100.
Proof.
  intros strs m.
  assert (queue m 1 (example_elems strs)) as Hq
    by (apply (bool_decide_unpack _); vm_compute; exact I).
  assert (length (example_elems strs) < 10)%nat as Hf by (simpl; lia).
  split; [by split|].
  destruct (q_free_releases_queue m [] 1 (example_elems strs) 10 Hq Hf) as (_ & m' & Hrun & Hm').
  exists m'. split; [exact Hrun|]. rewrite !Hm'. by vm_compute.
Defined.

(** X3: on a NULL-terminated chain of [n >= 2] nodes whose [prev]
    fields are set, [__q_split_into_two] returns the node of index
    [n / 2] and cuts the chain before it by one write, to the [next] of
    the node of index [n / 2 - 1]: what is left are two NULL-terminated
    chains, the first [n / 2] nodes and the others, neither empty. *)
Theorem q_split_into_two_halves (m : gmap N block) (o : list bool) (l : list N)
    (fuel : nat) :
  chain m l → plinked m l → (2 ≤ length l)%nat → (length l < 2 * fuel)%nat →
  let k := (length l / 2)%nat in
  ∃ m', __q_split_into_two fuel (hd NULL l) (State m o) = Done (nth k l NULL) (State m' o) ∧
        chain m' (take k l) ∧ chain m' (drop k l) ∧
        (0 < k < length l)%nat ∧
        same_outside [nth (k - 1) l NULL] m m'.
Proof.
  intros Hc Hp Hlen Hf k.
  destruct (q_split_run m o l fuel Hc Hp Hlen Hf) as (Hrun & Hc1 & Hc2 & Hk).
  eexists. split_and!; [exact Hrun|done|done|subst k; lia|subst k; lia|].
  intros x Hx. unfold set_next. apply lookup_alter_ne.
  intros E. apply Hx. apply list_elem_of_singleton. by rewrite <- E.
Qed.

Lemma q_split_into_two_halves_witness :
  let strs := [[x61]; [x62]; [x63]; [x64]; [x65]] in
  let m := example_chain strs 0 in
  let l := map e_addr (example_elems strs) in
  (chain m l ∧ plinked m l ∧ (2 ≤ length l)%nat ∧ (length l < 2 * 10)%nat) ∧
  ∃ m', __q_split_into_two 10 2 (State m []) = Done 6 (State m' []) ∧
        chain m' [2; 4] ∧ chain m' [6; 8; 10].
Proof.
  intros strs m l.
  assert (chain m l) as Hc by (apply (bool_decide_unpack _); vm_compute; exact I).
  assert (plinked m l) as Hp by (apply (bool_decide_unpack _); vm_compute; exact I).
  assert (2 ≤ length l)%nat as Hlen by (simpl; lia).
  assert (length l < 2 * 10)%nat as Hf by (simpl; lia).
  split; [by split_and!|].
  destruct (q_split_into_two_halves m [] l 10 Hc Hp Hlen Hf) as (m' & Hrun & Hc1 & Hc2 & _).
  exists m'. split; [exact Hrun|]. split; [exact Hc1 | exact Hc2].
Defined.

(** X4: [__q_merge_two_lists], given two disjoint NULL-terminated chains
    of elements in ascending order, returns the first node of one
    NULL-terminated chain of all their elements in ascending order, of
    two elements with equal payloads the one of the left chain first;
    an empty chain (a null pointer) on either side gives the other
    chain. *)
Theorem q_merge_two_lists_merges (m : gmap N block) (o : list bool) (a b : list elem)
    (fuel : nat) :
  chain m (map e_addr a) → chain m (map e_addr b) →
  NoDup (map e_addr a ++ map e_addr b) →
  Forall (owns m) a → Forall (owns m) b →
  StronglySorted elem_le a → StronglySorted elem_le b →
  (length a + length b < fuel)%nat →
  ∃ m' es, __q_merge_two_lists fuel (hd NULL (map e_addr a)) (hd NULL (map e_addr b))
             (State m o) = Done (hd NULL (map e_addr es)) (State m' o) ∧
           chain m' (map e_addr es) ∧ Forall (owns m') es ∧
           es ≡ₚ a ++ b ∧ StronglySorted elem_le es ∧
           (∀ s, with_payload s es = with_payload s a ++ with_payload s b) ∧
           (a = [] → es = b) ∧ (b = [] → es = a).
Proof.
  intros Ha Hb Hnd Hoa Hob Sa Sb Hf.
  destruct (q_merge_run m o a b fuel Ha Hb Hnd Hoa Hob Hf) as (m' & Hrun & Hch & Ho).
  exists m', (merge a b). split_and!; [done..| | | | |].
  - apply merge_perm.
  - apply merge_sorted; [by eapply owns_all_nul_free..|done|done].
  - intros s. by apply merge_stable.
  - intros ->. apply merge_nil_l.
  - intros ->. apply merge_nil_r.
Qed.

Lemma q_merge_two_lists_merges_witness :
  let strs := [[x61]; [x63]; [x62]; [x63]; [x64]] in
  let m := example_chain strs 2 in
  let a := take 2 (example_elems strs) in
  let b := drop 2 (example_elems strs) in
  (chain m (map e_addr a) ∧ chain m (map e_addr b) ∧
   NoDup (map e_addr a ++ map e_addr b) ∧ Forall (owns m) a ∧ Forall (owns m) b ∧
   StronglySorted elem_le a ∧ StronglySorted elem_le b ∧
   (length a + length b < 10)%nat) ∧
  ∃ m' es, __q_merge_two_lists 10 2 6 (State m []) = Done (hd NULL (map e_addr es)) (State m' []) ∧
           chain m' (map e_addr es) ∧ StronglySorted elem_le es ∧
           with_payload [x63] es = [Elem 4 5 [x63]; Elem 8 9 [x63]].
Proof.
  intros strs m a b.
  assert (chain m (map e_addr a)) as Ha by (apply (bool_decide_unpack _); vm_compute; exact I).
  assert (chain m (map e_addr b)) as Hb by (apply (bool_decide_unpack _); vm_compute; exact I).
  assert (NoDup (map e_addr a ++ map e_addr b)) as Hnd
    by (apply (bool_decide_unpack _); vm_compute; exact I).
  assert (Forall (owns m) a) as Hoa by (apply (bool_decide_unpack _); vm_compute; exact I).
  assert (Forall (owns m) b) as Hob by (apply (bool_decide_unpack _); vm_compute; exact I).
  assert (StronglySorted elem_le a) as Sa
    by (repeat constructor; vm_compute; discriminate).
  assert (StronglySorted elem_le b) as Sb
    by (repeat constructor; vm_compute; discriminate).
  assert (length a + length b < 10)%nat as Hf by (simpl; lia).
  split; [by split_and!|].
  destruct (q_merge_two_lists_merges m [] a b 10 Ha Hb Hnd Hoa Hob Sa Sb Hf)
    as (m' & es & Hrun & Hch & _ & _ & Hs & Hst & _).
  exists m', es. split; [exact Hrun|]. split; [exact Hch|]. split; [exact Hs|].
  rewrite Hst. reflexivity.
Defined.

(** X5: [__q_sort], given the first node of a non-empty NULL-terminated
    chain of elements whose [prev] fields are set, returns the first
    node of a NULL-terminated chain of the same elements in ascending
    order of their payloads, those of equal payload in their original
    order. *)
Theorem q_sort_rec_sorts_chain (m : gmap N block) (o : list bool) (es : list elem)
    (fuel : nat) :
  es ≠ [] → chain m (map e_addr es) → plinked m (map e_addr es) →
  Forall (owns m) es → (length es + 1 < fuel)%nat →
  ∃ m' es', __q_sort fuel (hd NULL (map e_addr es)) (State m o) =
              Done (hd NULL (map e_addr es')) (State m' o) ∧
            chain m' (map e_addr es') ∧ Forall (owns m') es' ∧
            es' ≡ₚ es ∧ StronglySorted elem_le es' ∧
            (∀ s, with_payload s es' = with_payload s es).
Proof.
  intros Hne Hc Hp Ho Hf.
  destruct (q_sort_rec_run o fuel es m Hne Hc Hp Ho Hf)
    as (m' & es' & Hrun & (Hperm & Hs & Hst) & Hch & _ & Hsd & _).
  exists m', es'. split_and!; [done..| |done|done|done].
  by apply (owns_perm_same_data m m' es).
Qed.

Lemma q_sort_rec_sorts_chain_witness :
  let strs := [[x63]; [x61]; [x62]; [x61]] in
  let m := example_chain strs 0 in
  let es := example_elems strs in
  (es ≠ [] ∧ chain m (map e_addr es) ∧ plinked m (map e_addr es) ∧
   Forall (owns m) es ∧ (length es + 1 < 10)%nat) ∧
  ∃ m' es', __q_sort 10 2 (State m []) = Done (hd NULL (map e_addr es')) (State m' []) ∧
            chain m' (map e_addr es') ∧ StronglySorted elem_le es' ∧
            with_payload [x61] es' = [Elem 4 5 [x61]; Elem 8 9 [x61]].
Proof.
  intros strs m es.
  assert (es ≠ []) as Hne by discriminate.
  assert (chain m (map e_addr es)) as Hc by (apply (bool_decide_unpack _); vm_compute; exact I).
  assert (plinked m (map e_addr es)) as Hp
    by (apply (bool_decide_unpack _); vm_compute; exact I).
  assert (Forall (owns m) es) as Ho by (apply (bool_decide_unpack _); vm_compute; exact I).
  assert (length es + 1 < 10)%nat as Hf by (simpl; lia).
  split; [by split_and!|].
  destruct (q_sort_rec_sorts_chain m [] es 10 Hne Hc Hp Ho Hf)
    as (m' & es' & Hrun & Hch & _ & _ & Hs & Hst).
  exists m', es'. split; [exact Hrun|]. split; [exact Hch|]. split; [exact Hs|].
  rewrite Hst. reflexivity.
Defined.

(** X6: [q_sort] followed by [q_delete_dup] leaves exactly the elements
    whose payload no other element of the original queue has, in
    ascending order; no payload is left twice. *)
Theorem q_sort_then_delete_dup (m : gmap N block) (o : list bool) (head : N)
    (es : list elem) (fuel : nat) :
  queue m head es → (length es + 1 < fuel)%nat →
  ∃ m1 es1 m2,
    q_sort fuel head (State m o) = Done tt (State m1 o) ∧ queue m1 head es1 ∧
    q_delete_dup fuel head (State m1 o) = Done true (State m2 o) ∧
    queue m2 head (only_once es1) ∧
    only_once es1 ≡ₚ only_once es ∧
    StronglySorted elem_le (only_once es1) ∧
    NoDup (payloads (only_once es1)).
Proof.
  intros Hq Hf.
  destruct (q_sort_run m o head es fuel Hq Hf) as (m1 & es1 & Hrun1 & Hq1 & (Hp & Hs & _) & _).
  destruct (q_delete_dup_run m1 o head es1 fuel Hq1) as (m2 & Hrun2 & Hq2).
  { rewrite Hp. lia. }
  pose proof (queue_nul_free _ _ _ Hq1) as Hnf.
  rewrite (dedup_from_spec None false es1 Hnf) in Hq2 by (by intros e _).
  rewrite (unique_among_sorted_once es1 Hnf Hs) in Hq2.
  exists m1, es1, m2. split_and!; [done..| | |].
  - by apply only_once_perm.
  - apply (sorted_sublist es1); [apply only_once_sublist | done].
  - apply only_once_payloads_nodup.
    destruct Hq1 as (_ & _ & (Hnd & _) & _). apply NoDup_cons in Hnd as [_ Hnd].
    by apply (NoDup_fmap_1 e_addr).
Qed.

Lemma q_sort_then_delete_dup_witness :
  let strs := [[x62]; [x61]; [x63]; [x61]; [x64]; [x63]] in
  let m := example_mem strs in
  (queue m 1 (example_elems strs) ∧ (length (example_elems strs) + 1 < 10)%nat) ∧
  ∃ m1 es1 m2,
    q_sort 10 1 (State m []) = Done tt (State m1 []) ∧
    q_delete_dup 10 1 (State m1 []) = Done true (State m2 []) ∧
    queue m2 1 (only_once es1) ∧
    only_once es1 ≡ₚ [Elem 2 3 [x62]; Elem 10 11 [x64]].
Proof.
  intros strs m.
  assert (queue m 1 (example_elems strs)) as Hq
    by (apply (bool_decide_unpack _); vm_compute; exact I).
  assert (length (example_elems strs) + 1 < 10)%nat as Hf by (simpl; lia).
  split; [by split|].
  destruct (q_sort_then_delete_dup m [] 1 (example_elems strs) 10 Hq Hf)
    as (m1 & es1 & m2 & Hrun1 & _ & Hrun2 & Hq2 & Hp & _).
  exists m1, es1, m2. split; [exact Hrun1|]. split; [exact Hrun2|]. split; [exact Hq2|].
  rewrite Hp. reflexivity.
Defined.

(** X7: the order of the payloads after [q_sort] is the one ascending
    order of the payloads of the queue; a queue that is in ascending
    order already keeps every element in its place, so a second [q_sort]
    changes the order no more. *)
Theorem q_sort_canonical (m : gmap N block) (o : list bool) (head : N)
    (es : list elem) (fuel : nat) :
  queue m head es → (length es + 1 < fuel)%nat →
  ∃ m' es',
    q_sort fuel head (State m o) = Done tt (State m' o) ∧ queue m' head es' ∧
    (∀ ps, ps ≡ₚ payloads es → StronglySorted str_le ps → payloads es' = ps) ∧
    (StronglySorted elem_le es → es' = es) ∧
    ∃ m'', q_sort fuel head (State m' o) = Done tt (State m'' o) ∧ queue m'' head es'.
Proof.
  intros Hq Hf.
  destruct (q_sort_run m o head es fuel Hq Hf) as (m' & es' & Hrun & Hq' & Hst & _).
  pose proof Hst as (Hp & Hs & Hw).
  pose proof (queue_nul_free _ _ _ Hq) as Hnf.
  pose proof (queue_nul_free _ _ _ Hq') as Hnf'.
  exists m', es'. split_and!; [done..| | |].
  - intros ps Hps Hsps. apply payloads_sorted_unique; [done..| |done].
    rewrite Hps. unfold payloads. by rewrite Hp.
  - intros Hsorted. apply (stable_sorted_unique es); [done..|].
    by split_and!.
  - destruct (q_sort_run m' o head es' fuel Hq') as (m'' & es'' & Hrun' & Hq'' & Hst' & _).
    { rewrite Hp. lia. }
    assert (es'' = es') as ->.
    { apply (stable_sorted_unique es'); [done..|]. by split_and!. }
    by exists m''.
Qed.

Lemma q_sort_canonical_witness :
  let strs := [[x62]; [x61]; [x63]; [x61]] in
  let m := example_mem strs in
  (queue m 1 (example_elems strs) ∧ (length (example_elems strs) + 1 < 10)%nat) ∧
  ∃ m' es',
    q_sort 10 1 (State m []) = Done tt (State m' []) ∧ queue m' 1 es' ∧
    payloads es' = [[x61]; [x61]; [x62]; [x63]].
Proof.
  intros strs m.
  assert (queue m 1 (example_elems strs)) as Hq
    by (apply (bool_decide_unpack _); vm_compute; exact I).
  assert (length (example_elems strs) + 1 < 10)%nat as Hf by (simpl; lia).
  split; [by split|].
  destruct (q_sort_canonical m [] 1 (example_elems strs) 10 Hq Hf)
    as (m' & es' & Hrun & Hq' & Hps & _).
  exists m', es'. split; [exact Hrun|]. split; [exact Hq'|].
  apply Hps.
  - apply (bool_decide_unpack _). vm_compute. exact I.
  - repeat constructor; vm_compute; discriminate.
Defined.

(** X8: the earlier [q_delete_dup] of [part_000], on a well-formed queue
    whose first payload is not the empty string, removes every member of
    each run of equal adjacent payloads and keeps the other elements in
    their order, as the later one does; it returns false on a null
    list.  [empty] is the string literal that [prev_value] starts
    with. *)
Theorem part000_q_delete_dup_removes_runs (m : gmap N block) (o : list bool)
    (head empty : N) (es : list elem) (fuel : nat) :
  queue m head es → str_at m empty = Some [] →
  (∀ e rest, es = e :: rest → e_str e ≠ []) → (length es < fuel)%nat →
  Part000.q_delete_dup fuel empty NULL (State m o) = Done false (State m o) ∧
  ∃ m', Part000.q_delete_dup fuel empty head (State m o) = Done true (State m' o) ∧
        queue m' head (unique_among_neighbours None es).
Proof.
  intros Hq Hempty Hfirst Hf. split; [done|].
  destruct (part000_q_delete_dup_run m o head empty es fuel Hq Hempty Hfirst Hf)
    as (m' & Hrun & Hq').
  exists m'. split; [done|].
  rewrite <- (dedup_from_spec None false es); [done| |by intros e _].
  by eapply queue_nul_free.
Qed.

Lemma part000_q_delete_dup_removes_runs_witness :
  let strs := [[x61]; [x61]; [x62]; [x63]; [x63]] in
  let m := example_mem_with strs 100 [x00] in
  (queue m 1 (example_elems strs) ∧ str_at m 100 = Some [] ∧
   (∀ e rest, example_elems strs = e :: rest → e_str e ≠ []) ∧
   (length (example_elems strs) < 10)%nat) ∧
  ∃ m', Part000.q_delete_dup 10 100 1 (State m []) = Done true (State m' []) ∧
        queue m' 1 [Elem 6 7 [x62]].
Proof.
  intros strs m.
  assert (queue m 1 (example_elems strs)) as Hq
    by (apply (bool_decide_unpack _); vm_compute; exact I).
  assert (str_at m 100 = Some []) as Hempty by (vm_compute; reflexivity).
  assert (∀ e rest, example_elems strs = e :: rest → e_str e ≠ []) as Hfirst.
  { intros e rest E. injection E as <- _. discriminate. }
  assert (length (example_elems strs) < 10)%nat as Hf by (simpl; lia).
  split; [by split_and!|].
  destruct (part000_q_delete_dup_removes_runs m [] 1 100 (example_elems strs) 10
              Hq Hempty Hfirst Hf) as (_ & m' & Hrun & Hq').
  exists m'. split; [exact Hrun | exact Hq'].
Defined.

(** X9: the earlier [q_delete_dup] of [part_000] goes wrong on every
    well-formed queue whose first payload is the empty string: the first
    element compares equal to the initial [prev_value], [start] becomes
    the entry of the sentinel, and deleting it reads [start->value]
    outside the sentinel. *)
Theorem part000_q_delete_dup_empty_first (m : gmap N block) (o : list bool)
    (head empty : N) (e : elem) (es : list elem) (fuel : nat) :
  queue m head (e :: es) → e_str e = [] →
  str_at m empty = Some [] → empty ∉ map e_val (e :: es) →
  (length es + 1 < fuel)%nat →
  Part000.q_delete_dup fuel empty head (State m o) = Fault.
Proof. apply part000_q_delete_dup_fault. Qed.

Lemma part000_q_delete_dup_empty_first_witness :
  let strs := [[]; [x61]; [x62]] in
  let m := example_mem_with strs 100 [x00] in
  (queue m 1 (Elem 2 3 [] :: [Elem 4 5 [x61]; Elem 6 7 [x62]]) ∧
   e_str (Elem 2 3 []) = [] ∧ str_at m 100 = Some [] ∧
   (100 ∉ map e_val (Elem 2 3 [] :: [Elem 4 5 [x61]; Elem 6 7 [x62]])) ∧
   (length [Elem 4 5 [x61]; Elem 6 7 [x62]] + 1 < 10)%nat) ∧
  Part000.q_delete_dup 10 100 1 (State m []) = Fault ∧
  ∃ m', q_delete_dup 10 1 (State m []) = Done true (State m' []).
Proof.
  intros strs m.
  assert (queue m 1 (Elem 2 3 [] :: [Elem 4 5 [x61]; Elem 6 7 [x62]])) as Hq
    by (apply (bool_decide_unpack _); vm_compute; exact I).
  assert (str_at m 100 = Some []) as Hempty by (vm_compute; reflexivity).
  assert (100 ∉ map e_val (Elem 2 3 [] :: [Elem 4 5 [x61]; Elem 6 7 [x62]])) as Hnotin
    by (apply (bool_decide_unpack _); vm_compute; exact I).
  assert (length [Elem 4 5 [x61]; Elem 6 7 [x62]] + 1 < 10)%nat as Hf by (simpl; lia).
  split; [by split_and!|]. split.
  - exact (part000_q_delete_dup_empty_first m [] 1 100 _ _ 10 Hq eq_refl Hempty Hnotin Hf).
  - eexists. vm_compute. reflexivity.
Defined.

(** X10: whatever the allocator does, [q_new], then any sequence of
    insertions of strings of the caller, removals each followed by
    [q_release_element], [q_size], [q_delete_mid], [q_delete_dup],
    [q_swap], [q_reverse] and [q_sort], then [q_free], returns and leaves
    the memory exactly as it was: nothing is leaked, and no block of the
    caller is written or freed. *)
Theorem session_restores_memory (m : gmap N block) (o : list bool) (l : list action)
    (fuel : nat) :
  Forall (action_ok m) l → (length l + 1 < fuel)%nat →
  ∃ o', session fuel l (State m o) = Done tt (State m o').
Proof. apply session_run. Qed.

Lemma session_restores_memory_witness :
  let m := example_mem_with [[x61]] 100 [x62; x00] in
  let l := [DoInsertHead 100; DoInsertTail 100; DoInsertHead 100; DoSort; DoRemoveTail;
            DoSwap; DoInsertTail 100; DoDeleteDup; DoReverse; DoDeleteMid; DoSize] in
  (Forall (action_ok m) l ∧ (length l + 1 < 20)%nat) ∧
  ∃ o', session 20 l (State m [true; true; true; true; false; true]) = Done tt (State m o').
Proof.
  intros m l.
  assert (string_ok m 100) as Hs.
  { right. exists [x62]. split; vm_compute; reflexivity. }
  assert (Forall (action_ok m) l) as Hok.
  { repeat apply Forall_cons_2; try exact Hs; try exact I. apply Forall_nil_2. }
  assert (length l + 1 < 20)%nat as Hf by (simpl; lia).
  split; [by split|].
  exact (session_restores_memory m _ l 20 Hok Hf).
Defined.

(** X11: [q_remove_head] (respectively [q_remove_tail]) without a
    buffer followed by [q_release_element] on the element returned frees
    the element and its string, leaves the other elements in a
    well-formed queue, and changes no block outside the queue. *)
Theorem q_remove_then_release (m : gmap N block) (o : list bool) (head : N)
    (es : list elem) :
  queue m head es → es ≠ [] →
  (∃ e rest m', es = e :: rest ∧
     remove_and_release (q_remove_head head NULL 0) (State m o) = Done tt (State m' o) ∧
     queue m' head rest ∧ m' !! e_addr e = None ∧ m' !! e_val e = None ∧
     same_outside (blocks_of head es) m m') ∧
  (∃ e rest m', es = rest ++ [e] ∧
     remove_and_release (q_remove_tail head NULL 0) (State m o) = Done tt (State m' o) ∧
     queue m' head rest ∧ m' !! e_addr e = None ∧ m' !! e_val e = None ∧
     same_outside (blocks_of head es) m m').
Proof.
  intros Hq Hne.
  assert (∀ es' m', tidy_step head es m es' m' →
            (∀ x, x ∈ blocks_of head es' → x ∈ blocks_of head es) →
            same_outside (blocks_of head es) m m') as Hframe.
  { intros es' m' [H1 _] Hsub x Hx. rewrite H1.
    - by rewrite bool_decide_eq_false_2.
    - intros Hin. by apply Hx, Hsub. }
  split.
  - destruct es as [|e rest]; [done|].
    destruct (remove_head_release_run m o head e rest Hq) as (Hrun & Hq' & Ht).
    eexists e, rest, _. split_and!; [done|exact Hrun|done| | |].
    + by rewrite lookup_delete_eq.
    + rewrite lookup_delete. case_decide; [done|]. by rewrite lookup_delete_eq.
    + apply (Hframe rest _ Ht). intros x. rewrite !elem_of_blocks_of. cbn [map].
      set_solver.
  - destruct (exists_last Hne) as (rest & e & ->).
    destruct (remove_tail_release_run m o head e rest Hq) as (Hrun & Hq' & Ht).
    eexists e, rest, _. split_and!; [done|exact Hrun|done| | |].
    + by rewrite lookup_delete_eq.
    + rewrite lookup_delete. case_decide; [done|]. by rewrite lookup_delete_eq.
    + apply (Hframe rest _ Ht). intros x. rewrite !elem_of_blocks_of, !map_app.
      set_solver.
Qed.

Lemma q_remove_then_release_witness :
  let strs := [[x61]; [x62]; [x63]] in
  let m := example_mem_with strs 100 [x7a; x00] in
  (queue m 1 (example_elems strs) ∧ example_elems strs ≠ []) ∧
  ∃ m', remove_and_release (q_remove_head 1 NULL 0) (State m []) = Done tt (State m' []) ∧
        queue m' 1 [Elem 4 5 [x62]; Elem 6 7 [x63]] ∧
        m' !! 2 = None ∧ m' !! 3 = None ∧ m' !! 100 = m !! 100.
Proof.
  intros strs m.
  assert (queue m 1 (example_elems strs)) as Hq
    by (apply (bool_decide_unpack _); vm_compute; exact I).
  assert (example_elems strs ≠ []) as Hne by discriminate.
  split; [by split|].
  destruct (q_remove_then_release m [] 1 (example_elems strs) Hq Hne)
    as ((e & rest & m' & Hes & Hrun & Hq' & Ha & Hv & Hfr) & _).
  injection Hes as <- <-.
  exists m'. split; [exact Hrun|]. split; [exact Hq'|]. split; [exact Ha|].
  split; [exact Hv|]. apply Hfr. apply (bool_decide_unpack _). vm_compute. exact I.
Defined.

(** X12: when both allocations succeed, [q_insert_head] followed by
    [q_remove_head] (respectively [q_insert_tail] followed by
    [q_remove_tail]) returns the element just inserted, at an address
    that was free, holding a copy of the string; the queue has its
    elements of before, and a buffer given to the removal holds the
    first [bufsize - 1] bytes of the string. *)
Theorem q_insert_then_remove (m : gmap N block) (o : list bool) (head : N)
    (es : list elem) (s : N) (str : list byte) (sp bufsize : N) :
  queue m head es → s ≠ NULL → str_at m s = Some str →
  N.of_nat (length str) + 1 < SIZE_MOD → buffer_ok m sp bufsize es →
  (pop_outcome o).1 = true → (pop_outcome (pop_outcome o).2).1 = true →
  let o2 := (pop_outcome (pop_outcome o).2).2 in
  (∃ m1 m2 p v,
     q_insert_head head s (State m o) = Done true (State m1 o2) ∧
     q_remove_head head sp bufsize (State m1 o2) = Done p (State m2 o2) ∧
     p ≠ NULL ∧ m !! p = None ∧ queue m2 head es ∧ owns m2 (Elem p v str) ∧
     (sp ≠ NULL → bufsize ≠ 0 →
      str_at m2 sp = Some (take (N.to_nat (bufsize - 1)) str))) ∧
  (∃ m1 m2 p v,
     q_insert_tail head s (State m o) = Done true (State m1 o2) ∧
     q_remove_tail head sp bufsize (State m1 o2) = Done p (State m2 o2) ∧
     p ≠ NULL ∧ m !! p = None ∧ queue m2 head es ∧ owns m2 (Elem p v str) ∧
     (sp ≠ NULL → bufsize ≠ 0 →
      str_at m2 sp = Some (take (N.to_nat (bufsize - 1)) str))).
Proof.
  intros Hq Hs0 Hstr Hlen Hbuf Ho1 Ho2 o2. split.
  - by apply q_insert_remove_head.
  - by apply q_insert_remove_tail.
Qed.

Lemma q_insert_then_remove_witness :
  let strs := [[x61]; [x62]] in
  let m := <[200 := BChars [x2e; x2e; x2e]]>
             (example_mem_with strs 100 [x68; x65; x6c; x6c; x6f; x00]) in
  (queue m 1 (example_elems strs) ∧ 100 ≠ NULL ∧
   str_at m 100 = Some [x68; x65; x6c; x6c; x6f] ∧
   N.of_nat (length [x68; x65; x6c; x6c; x6f]) + 1 < SIZE_MOD ∧
   buffer_ok m 200 3 (example_elems strs) ∧
   (pop_outcome []).1 = true ∧ (pop_outcome (pop_outcome []).2).1 = true) ∧
  ∃ m1 m2 p v,
    q_insert_head 1 100 (State m []) = Done true (State m1 []) ∧
    q_remove_head 1 200 3 (State m1 []) = Done p (State m2 []) ∧
    queue m2 1 (example_elems strs) ∧ owns m2 (Elem p v [x68; x65; x6c; x6c; x6f]) ∧
    str_at m2 200 = Some [x68; x65].
Proof.
  intros strs m.
  assert (queue m 1 (example_elems strs)) as Hq
    by (apply (bool_decide_unpack _); vm_compute; exact I).
  assert (100 ≠ NULL) as Hs0 by (vm_compute; discriminate).
  assert (str_at m 100 = Some [x68; x65; x6c; x6c; x6f]) as Hstr by (vm_compute; reflexivity).
  assert (N.of_nat (length [x68; x65; x6c; x6c; x6f]) + 1 < SIZE_MOD) as Hlen
    by (vm_compute; reflexivity).
  assert (buffer_ok m 200 3 (example_elems strs)) as Hbuf.
  { split; [vm_compute; reflexivity|]. right. right. exists [x2e; x2e; x2e].
    split; [vm_compute; reflexivity|]. split; [vm_compute; lia|].
    apply (bool_decide_unpack _). vm_compute. exact I. }
  split; [by split_and!|].
  destruct (q_insert_then_remove m [] 1 (example_elems strs) 100 _ 200 3
              Hq Hs0 Hstr Hlen Hbuf eq_refl eq_refl)
    as ((m1 & m2 & p & v & Hrun1 & Hrun2 & _ & _ & Hq2 & Hown & Hsp) & _).
  exists m1, m2, p, v. split; [exact Hrun1|]. split; [exact Hrun2|]. split; [exact Hq2|].
  split; [exact Hown|]. apply Hsp; vm_compute; discriminate.
Defined.

(** X13: [q_swap], [q_reverse] and [q_sort] only write the link fields
    of the nodes of the queue: every block that is not the sentinel or
    an element is unchanged, the strings of the queue among them, and
    the blocks allocated after the call are the blocks allocated before
    it. *)
Theorem relinking_keeps_blocks (m : gmap N block) (o : list bool) (head : N)
    (es : list elem) (fuel : nat) :
  queue m head es → (length es + 1 < fuel)%nat →
  (∃ m', q_swap fuel head (State m o) = Done tt (State m' o) ∧
         same_outside (head :: map e_addr es) m m' ∧
         ∀ x, is_Some (m' !! x) ↔ is_Some (m !! x)) ∧
  (∃ m', q_reverse fuel head (State m o) = Done tt (State m' o) ∧
         same_outside (head :: map e_addr es) m m' ∧
         ∀ x, is_Some (m' !! x) ↔ is_Some (m !! x)) ∧
  (∃ m', q_sort fuel head (State m o) = Done tt (State m' o) ∧
         same_outside (head :: map e_addr es) m m' ∧
         ∀ x, is_Some (m' !! x) ↔ is_Some (m !! x)).
Proof.
  intros Hq Hf. split_and!.
  - destruct (q_swap_run_strong m o head es fuel Hq ltac:(lia)) as (m' & Hrun & Hq' & _ & Hfr).
    exists m'. split_and!; [done..|].
    by apply (relink_allocated m m' head es (swap_pairs es)); [| |apply swap_pairs_perm|].
  - destruct (q_reverse_run_strong m o head es fuel Hq ltac:(lia))
      as (m' & Hrun & Hq' & _ & Hfr).
    exists m'. split_and!; [done..|].
    apply (relink_allocated m m' head es (rev es)); [done..| |done].
    symmetry. apply Permutation_rev.
  - destruct (q_sort_run_strong m o head es fuel Hq Hf)
      as (m' & es' & Hrun & Hq' & (Hp & _) & _ & Hfr).
    exists m'. split_and!; [done..|].
    by apply (relink_allocated m m' head es es').
Qed.

Lemma relinking_keeps_blocks_witness :
  let strs := [[x63]; [x61]; [x62]] in
  let m := example_mem_with strs 100 [x7a; x00] in
  (queue m 1 (example_elems strs) ∧ (length (example_elems strs) + 1 < 10)%nat) ∧
  ∃ m', q_sort 10 1 (State m []) = Done tt (State m' []) ∧
        m' !! 3 = m !! 3 ∧ m' !! 100 = m !! 100.
Proof.
  intros strs m.
  assert (queue m 1 (example_elems strs)) as Hq
    by (apply (bool_decide_unpack _); vm_compute; exact I).
  assert (length (example_elems strs) + 1 < 10)%nat as Hf by (simpl; lia).
  split; [by split|].
  destruct (relinking_keeps_blocks m [] 1 (example_elems strs) 10 Hq Hf)
    as (_ & _ & m' & Hrun & Hfr & _).
  exists m'. split; [exact Hrun|].
  split; apply Hfr; apply (bool_decide_unpack _); vm_compute; exact I.
Defined.

(** X14: [q_delete_dup] and [q_delete_mid] free the element and the
    string of every element they remove and change no block outside the
    queue: after the call a block that is not one of the queue left is
    free if it was a block of the queue, and as before otherwise. *)
Theorem deletions_free_elements (m : gmap N block) (o : list bool) (head : N)
    (es : list elem) (fuel : nat) :
  queue m head es → (length es < fuel)%nat →
  (∃ m', q_delete_dup fuel head (State m o) = Done true (State m' o) ∧
         ∀ x, x ∉ blocks_of head (unique_among_neighbours None es) →
              m' !! x = if bool_decide (x ∈ blocks_of head es) then None else m !! x) ∧
  (es ≠ [] →
   ∃ m', q_delete_mid fuel head (State m o) = Done true (State m' o) ∧
         ∀ x, x ∉ blocks_of head (delete (length es / 2)%nat es) →
              m' !! x = if bool_decide (x ∈ blocks_of head es) then None else m !! x).
Proof.
  intros Hq Hf. split.
  - destruct (q_delete_dup_run_strong m o head es fuel Hq Hf) as (m' & Hrun & _ & [H1 _]).
    exists m'. split; [done|].
    rewrite <- (dedup_from_spec None false es); [done| |by intros e _].
    by eapply queue_nul_free.
  - intros Hne.
    destruct (q_delete_mid_tidy m o head es fuel Hq Hne ltac:(lia)) as (m' & Hrun & _ & [H1 _]).
    exists m'. split; [done|]. by rewrite delete_take_drop.
Qed.

Lemma deletions_free_elements_witness :
  let strs := [[x61]; [x61]; [x62]] in
  let m := example_mem_with strs 100 [x7a; x00] in
  (queue m 1 (example_elems strs) ∧ (length (example_elems strs) < 10)%nat) ∧
  ∃ m', q_delete_dup 10 1 (State m []) = Done true (State m' []) ∧
        m' !! 2 = None ∧ m' !! 3 = None ∧ m' !! 4 = None ∧ m' !! 5 = None ∧
        m' !! 100 = m !! 100.
Proof.
  intros strs m.
  assert (queue m 1 (example_elems strs)) as Hq
    by (apply (bool_decide_unpack _); vm_compute; exact I).
  assert (length (example_elems strs) < 10)%nat as Hf by (simpl; lia).
  split; [by split|].
  destruct (deletions_free_elements m [] 1 (example_elems strs) 10 Hq Hf)
    as ((m' & Hrun & Hm') & _).
  exists m'. split; [exact Hrun|].
  rewrite !Hm' by (apply (bool_decide_unpack _); vm_compute; exact I).
  by vm_compute.
Defined.

(** X15: when no allocation fails, inserting the strings [strs] one
    after the other with [q_insert_tail] appends elements holding
    [strs] in this order after the elements of the queue, and inserting
    them with [q_insert_head] puts elements holding them in the reverse
    order before the elements of the queue. *)
Theorem insertions_keep_order (m : gmap N block) (o : list bool) (head : N)
    (es : list elem) (ss : list N) (strs : list (list byte)) :
  queue m head es → strings_at m ss strs → never_fails o →
  (∃ m' o' new, run_updates head (map PushTail ss) (State m o) = Done tt (State m' o') ∧
                queue m' head (es ++ new) ∧ payloads new = strs) ∧
  (∃ m' o' new, run_updates head (map PushHead ss) (State m o) = Done tt (State m' o') ∧
                queue m' head (new ++ es) ∧ payloads new = rev strs).
Proof.
  intros Hq Hss Ho. split.
  - destruct (push_tail_all head ss strs m o es Hq Hss Ho)
      as (m' & o' & new & Hrun & Hq' & Hpay & _).
    by exists m', o', new.
  - destruct (push_head_all head ss strs m o es Hq Hss Ho)
      as (m' & o' & new & Hrun & Hq' & Hpay & _).
    exists m', o', (rev new). split_and!; [done..|].
    unfold payloads in *. by rewrite map_rev, Hpay.
Qed.

Lemma insertions_keep_order_witness :
  let m := <[102 := BChars [x63; x00]]>
             (<[101 := BChars [x62; x00]]> (example_mem_with [[x7a]] 100 [x61; x00])) in
  (queue m 1 (example_elems [[x7a]]) ∧
   strings_at m [100; 101; 102] [[x61]; [x62]; [x63]] ∧ never_fails []) ∧
  (∃ m' o' new, run_updates 1 (map PushTail [100; 101; 102]) (State m []) =
                  Done tt (State m' o') ∧
                queue m' 1 (example_elems [[x7a]] ++ new) ∧
                payloads new = [[x61]; [x62]; [x63]]) ∧
  (∃ m' o' new, run_updates 1 (map PushHead [100; 101; 102]) (State m []) =
                  Done tt (State m' o') ∧
                queue m' 1 (new ++ example_elems [[x7a]]) ∧
                payloads new = [[x63]; [x62]; [x61]]).
Proof.
  intros m.
  assert (queue m 1 (example_elems [[x7a]])) as Hq
    by (apply (bool_decide_unpack _); vm_compute; exact I).
  assert (strings_at m [100; 101; 102] [[x61]; [x62]; [x63]]) as Hss.
  { unfold strings_at.
    repeat (apply List.Forall2_cons; [split_and!; [done|vm_compute; reflexivity..]|]).
    apply List.Forall2_nil. }
  assert (never_fails []) as Ho by apply Forall_nil_2.
  split; [by split_and!|].
  exact (insertions_keep_order m [] 1 _ _ _ Hq Hss Ho).
Defined.
